(** * Intel HEX streaming reader (components/ihex/ihex.c)

    A shallow embedding of the byte-at-a-time Intel HEX decoder and the
    properties its specification states about it.

    Machine integers are modelled as [Z] with the wrap-around of their C
    type written out ([u8], [u16], [u32]).  The reader is a record that is
    threaded through every call; the external data callback acts on a
    separate world of type [World], which is threaded alongside the reader
    so that every invocation of the callback is observable. *)

From Stdlib Require Import Ascii String.
From Stdlib Require Import ZArith List Bool Lia.
Import ListNotations.
Open Scope Z_scope.

(** ** Fixed-width integers *)

Definition u8  (x : Z) : Z := x mod 256.
Definition u16 (x : Z) : Z := x mod 65536.
Definition u32 (x : Z) : Z := x mod 4294967296.

(** ** Types of ihex.h *)

Inductive ihex_tLexerState : Type :=
| IHEX_LEXER_STATE_WAIT_COLON
| IHEX_LEXER_STATE_WAIT_BYTE_COUNT
| IHEX_LEXER_STATE_WAIT_ADDRESS
| IHEX_LEXER_STATE_WAIT_TYPE
| IHEX_LEXER_STATE_WAIT_DATA
| IHEX_LEXER_STATE_WAIT_CHECK_SUM.

Inductive ihex_tLexerTokenType : Type :=
| IHEX_LEXER_TOKENTYPE_RECORD_MARK
| IHEX_LEXER_TOKENTYPE_RECLEN
| IHEX_LEXER_TOKENTYPE_LOAD_OFFSET
| IHEX_LEXER_TOKENTYPE_RECTYP
| IHEX_LEXER_TOKENTYPE_DATA
| IHEX_LEXER_TOKENTYPE_CHKSUM.

Definition IHEX_TYPE_00_DATA_RECORD : Z := 0.
Definition IHEX_TYPE_01_END_OF_FILE_RECORD : Z := 1.
Definition IHEX_TYPE_02_EXTENDED_SEGMENT_ADDRESS_RECORD : Z := 2.
Definition IHEX_TYPE_03_START_SEGMENT_ADDRESS_RECORD : Z := 3.
Definition IHEX_TYPE_04_EXTENDED_LINEAR_ADDRESS_RECORD : Z := 4.
Definition IHEX_TYPE_05_START_LINEAR_ADDRESS_RECORD : Z := 5.

Inductive ihex_tMessage : Type :=
| IHEX_MESSAGE_CONTINUE
| IHEX_MESSAGE_END
| IHEX_MESSAGE_INVALID_INPUT_DATA
| IHEX_MESSAGE_CHECK_SUM_ERROR
| IHEX_MESSAGE_VERIFICATION_ERROR.

Record ihex_tRecordData : Type := mkRecordData {
  record_mark : Z;        (* uint8_t  *)
  reclen : Z;             (* uint8_t  *)
  load_offset : Z;        (* uint16_t *)
  rectyp : Z;             (* uint8_t  *)
  data : Z;               (* uint8_t  *)
  target_check_sum : Z    (* uint8_t  *)
}.

Record ihex_tLexer : Type := mkLexer {
  state : ihex_tLexerState;
  num_expected_characters : Z;   (* uint16_t *)
  ext_offset_byte_pos : Z;       (* uint8_t  *)
  ext_offset : Z;                (* uint32_t *)
  rec_byte_offset : Z;           (* uint16_t *)
  calc_chksum : Z;               (* uint8_t  *)
  record_data : ihex_tRecordData
}.

(** Field assignments. *)

Definition set_record_mark (v : Z) (d : ihex_tRecordData) : ihex_tRecordData :=
  mkRecordData v (reclen d) (load_offset d) (rectyp d) (data d) (target_check_sum d).
Definition set_reclen (v : Z) (d : ihex_tRecordData) : ihex_tRecordData :=
  mkRecordData (record_mark d) v (load_offset d) (rectyp d) (data d) (target_check_sum d).
Definition set_load_offset (v : Z) (d : ihex_tRecordData) : ihex_tRecordData :=
  mkRecordData (record_mark d) (reclen d) v (rectyp d) (data d) (target_check_sum d).
Definition set_rectyp (v : Z) (d : ihex_tRecordData) : ihex_tRecordData :=
  mkRecordData (record_mark d) (reclen d) (load_offset d) v (data d) (target_check_sum d).
Definition set_data (v : Z) (d : ihex_tRecordData) : ihex_tRecordData :=
  mkRecordData (record_mark d) (reclen d) (load_offset d) (rectyp d) v (target_check_sum d).
Definition set_target_check_sum (v : Z) (d : ihex_tRecordData) : ihex_tRecordData :=
  mkRecordData (record_mark d) (reclen d) (load_offset d) (rectyp d) (data d) v.

Definition set_state (v : ihex_tLexerState) (l : ihex_tLexer) : ihex_tLexer :=
  mkLexer v (num_expected_characters l) (ext_offset_byte_pos l) (ext_offset l)
          (rec_byte_offset l) (calc_chksum l) (record_data l).
Definition set_num_expected_characters (v : Z) (l : ihex_tLexer) : ihex_tLexer :=
  mkLexer (state l) v (ext_offset_byte_pos l) (ext_offset l)
          (rec_byte_offset l) (calc_chksum l) (record_data l).
Definition set_ext_offset_byte_pos (v : Z) (l : ihex_tLexer) : ihex_tLexer :=
  mkLexer (state l) (num_expected_characters l) v (ext_offset l)
          (rec_byte_offset l) (calc_chksum l) (record_data l).
Definition set_ext_offset (v : Z) (l : ihex_tLexer) : ihex_tLexer :=
  mkLexer (state l) (num_expected_characters l) (ext_offset_byte_pos l) v
          (rec_byte_offset l) (calc_chksum l) (record_data l).
Definition set_rec_byte_offset (v : Z) (l : ihex_tLexer) : ihex_tLexer :=
  mkLexer (state l) (num_expected_characters l) (ext_offset_byte_pos l) (ext_offset l)
          v (calc_chksum l) (record_data l).
Definition set_calc_chksum (v : Z) (l : ihex_tLexer) : ihex_tLexer :=
  mkLexer (state l) (num_expected_characters l) (ext_offset_byte_pos l) (ext_offset l)
          (rec_byte_offset l) v (record_data l).
Definition set_record_data (v : ihex_tRecordData) (l : ihex_tLexer) : ihex_tLexer :=
  mkLexer (state l) (num_expected_characters l) (ext_offset_byte_pos l) (ext_offset l)
          (rec_byte_offset l) (calc_chksum l) v.

(** ** Pure helpers of ihex.c *)

(** [ihex_IsValidData]: the characters [ihex_Put] lets through to the lexer. *)
Definition ihex_IsValidData (data : Z) : bool :=
  (data =? 58) ||
  ((48 <=? data) && (data <=? 57)) ||
  ((65 <=? data) && (data <=? 70)) ||
  ((97 <=? data) && (data <=? 102)).

(** [ihex_CharToValue]: the value of a hex digit, [-1] for any other byte. *)
Definition ihex_CharToValue (data : Z) : Z :=
  if (48 <=? data) && (data <=? 57) then data - 48
  else if (65 <=? data) && (data <=? 70) then data - 65 + 10
  else if (97 <=? data) && (data <=? 102) then data - 97 + 10
  else -1.

(** [ihex_InsertDigit]: all three arguments arrive converted to their
    parameter types (uint16_t, uint8_t, uint8_t).  The shifts are the
    mathematical ones truncated to 16 bits; in C they are only defined while
    [digit_pos * 4] stays below the width of [int], which is the case on
    every path the theorems below exercise ([digit_pos <= 3]). *)
Definition ihex_InsertDigit (src_val nibble_data digit_pos : Z) : Z :=
  let mask := 15 in
  let new_data := u16 (Z.shiftl (Z.land nibble_data 15) (digit_pos * 4)) in
  let mask := u16 (Z.shiftl mask (digit_pos * 4)) in
  let dst_val := u16 (Z.land src_val (Z.lnot mask)) in
  let dst_val := u16 (Z.lor dst_val (Z.land new_data mask)) in
  dst_val.

Section Reader.

(** The part of the outside world the data callback reads and writes. *)
Variable World : Type.

(** [ihex_tDataCallback]: address (uint32_t) and data (uint8_t) to a status,
    with its effect on the world. *)
Definition ihex_tDataCallback : Type := Z -> Z -> World -> ihex_tMessage * World.

Record ihex_tReader : Type := mkReader {
  lexer : ihex_tLexer;
  funcData : option ihex_tDataCallback   (* [None] is the NULL pointer *)
}.

Definition upd_lexer (f : ihex_tLexer -> ihex_tLexer) (reader : ihex_tReader) : ihex_tReader :=
  mkReader (f (lexer reader)) (funcData reader).

Definition upd_record (f : ihex_tRecordData -> ihex_tRecordData) (reader : ihex_tReader)
  : ihex_tReader :=
  upd_lexer (fun l => set_record_data (f (record_data l)) l) reader.

Definition ihex_Init (reader : ihex_tReader) (func_data : option ihex_tDataCallback)
  : ihex_tReader :=
  mkReader (lexer reader) func_data.

Definition ihex_Begin (reader : ihex_tReader) : ihex_tReader :=
  upd_lexer (set_ext_offset 0)
    (upd_lexer (set_state IHEX_LEXER_STATE_WAIT_COLON) reader).

Definition ihex_SetNextState (reader : ihex_tReader) (next_state : ihex_tLexerState)
           (num_expected_digits : Z) : ihex_tReader :=
  upd_lexer (set_num_expected_characters num_expected_digits)
    (upd_lexer (set_state next_state) reader).

(** [ihex_LexerTokenStream]: the semantic action of a completed field.
    The shift by [8 * ext_offset_byte_pos] is the mathematical one truncated
    to 32 bits; in C it is only defined below 32, which holds for the two
    payload bytes of an extension record (positions 1, 0 and 3, 2). *)
Definition ihex_LexerTokenStream (reader : ihex_tReader) (token_type : ihex_tLexerTokenType)
           (token_data : Z) (w : World) : ihex_tMessage * ihex_tReader * World :=
  let lx := lexer reader in
  let rd := record_data lx in
  match token_type with
  | IHEX_LEXER_TOKENTYPE_RECORD_MARK =>
      (IHEX_MESSAGE_CONTINUE,
       upd_lexer (set_rec_byte_offset 0) (upd_lexer (set_calc_chksum 0) reader), w)
  | IHEX_LEXER_TOKENTYPE_RECLEN =>
      (IHEX_MESSAGE_CONTINUE,
       upd_lexer (set_calc_chksum (u8 (calc_chksum lx + token_data))) reader, w)
  | IHEX_LEXER_TOKENTYPE_LOAD_OFFSET =>
      (IHEX_MESSAGE_CONTINUE,
       upd_lexer (set_calc_chksum
                    (u8 (calc_chksum lx + (Z.shiftr token_data 8 + Z.land token_data 255))))
                 reader, w)
  | IHEX_LEXER_TOKENTYPE_RECTYP =>
      let reader := upd_lexer (set_calc_chksum (u8 (calc_chksum lx + token_data))) reader in
      let reader :=
        if rectyp rd =? IHEX_TYPE_02_EXTENDED_SEGMENT_ADDRESS_RECORD then
          upd_lexer (set_ext_offset_byte_pos 1) (upd_lexer (set_ext_offset 0) reader)
        else if rectyp rd =? IHEX_TYPE_04_EXTENDED_LINEAR_ADDRESS_RECORD then
          upd_lexer (set_ext_offset_byte_pos 3) (upd_lexer (set_ext_offset 0) reader)
        else reader in
      (IHEX_MESSAGE_CONTINUE, reader, w)
  | IHEX_LEXER_TOKENTYPE_DATA =>
      let reader := upd_lexer (set_calc_chksum (u8 (calc_chksum lx + token_data))) reader in
      let '(message, reader, w) :=
        if rectyp rd =? IHEX_TYPE_00_DATA_RECORD then
          match funcData reader with
          | Some func =>
              let '(message, w) :=
                func (u32 (u32 (ext_offset lx + load_offset rd) + rec_byte_offset lx))
                     (u8 token_data) w in
              (message, reader, w)
          | None => (IHEX_MESSAGE_CONTINUE, reader, w)
          end
        else if rectyp rd =? IHEX_TYPE_02_EXTENDED_SEGMENT_ADDRESS_RECORD then
          let ext :=
            u32 (Z.lor (ext_offset lx)
                       (u32 (Z.shiftl token_data (8 * ext_offset_byte_pos lx)))) in
          let ext := if ext_offset_byte_pos lx =? 0 then u32 (Z.shiftl ext 4) else ext in
          (IHEX_MESSAGE_CONTINUE,
           upd_lexer (set_ext_offset_byte_pos (u8 (ext_offset_byte_pos lx - 1)))
                     (upd_lexer (set_ext_offset ext) reader), w)
        else if rectyp rd =? IHEX_TYPE_04_EXTENDED_LINEAR_ADDRESS_RECORD then
          let ext :=
            u32 (Z.lor (ext_offset lx)
                       (u32 (Z.shiftl token_data (8 * ext_offset_byte_pos lx)))) in
          (IHEX_MESSAGE_CONTINUE,
           upd_lexer (set_ext_offset_byte_pos (u8 (ext_offset_byte_pos lx - 1)))
                     (upd_lexer (set_ext_offset ext) reader), w)
        else (IHEX_MESSAGE_CONTINUE, reader, w) in
      (message, upd_lexer (set_rec_byte_offset (u16 (rec_byte_offset lx + 1))) reader, w)
  | IHEX_LEXER_TOKENTYPE_CHKSUM =>
      let sum := u8 (Z.lnot (calc_chksum lx) + 1) in
      let reader := upd_lexer (set_calc_chksum sum) reader in
      let message :=
        if rectyp rd =? IHEX_TYPE_01_END_OF_FILE_RECORD then IHEX_MESSAGE_END
        else if negb (sum =? target_check_sum rd) then IHEX_MESSAGE_CHECK_SUM_ERROR
        else IHEX_MESSAGE_CONTINUE in
      (message, reader, w)
  end.

(** [ihex_Lexer]: one accepted character drives the record state machine.
    Every digit-expecting state decrements [num_expected_characters] before
    it looks at the character.  The parameter [data] of the source is
    [data_byte] here, [data] being the field of [ihex_tRecordData]. *)
Definition ihex_Lexer (reader : ihex_tReader) (data_byte : Z) (w : World)
  : ihex_tMessage * ihex_tReader * World :=
  let message := IHEX_MESSAGE_CONTINUE in
  match state (lexer reader) with
  | IHEX_LEXER_STATE_WAIT_COLON =>
      if negb (data_byte =? 58) then (message, reader, w)
      else
        let reader := upd_lexer (set_record_data (mkRecordData 0 0 0 0 0 0)) reader in
        let reader := upd_record (set_record_mark data_byte) reader in
        let '(message, reader, w) :=
          ihex_LexerTokenStream reader IHEX_LEXER_TOKENTYPE_RECORD_MARK
                                (record_mark (record_data (lexer reader))) w in
        (message, ihex_SetNextState reader IHEX_LEXER_STATE_WAIT_BYTE_COUNT 2, w)

  | IHEX_LEXER_STATE_WAIT_BYTE_COUNT =>
      let reader :=
        upd_lexer (fun l => set_num_expected_characters
                              (u16 (num_expected_characters l - 1)) l) reader in
      let temp_digit := ihex_CharToValue data_byte in
      if temp_digit <? 0 then (IHEX_MESSAGE_INVALID_INPUT_DATA, reader, w)
      else
        let reader :=
          upd_record (fun d => set_reclen
                                 (u8 (ihex_InsertDigit (reclen d) (u8 temp_digit)
                                        (u8 (num_expected_characters (lexer reader))))) d)
                     reader in
        if num_expected_characters (lexer reader) =? 0 then
          let '(message, reader, w) :=
            ihex_LexerTokenStream reader IHEX_LEXER_TOKENTYPE_RECLEN
                                  (reclen (record_data (lexer reader))) w in
          (message, ihex_SetNextState reader IHEX_LEXER_STATE_WAIT_ADDRESS 4, w)
        else (message, reader, w)

  | IHEX_LEXER_STATE_WAIT_ADDRESS =>
      let reader :=
        upd_lexer (fun l => set_num_expected_characters
                              (u16 (num_expected_characters l - 1)) l) reader in
      let temp_digit := ihex_CharToValue data_byte in
      if temp_digit <? 0 then (IHEX_MESSAGE_INVALID_INPUT_DATA, reader, w)
      else
        let reader :=
          upd_record (fun d => set_load_offset
                                 (ihex_InsertDigit (load_offset d) (u8 temp_digit)
                                    (u8 (num_expected_characters (lexer reader)))) d)
                     reader in
        if num_expected_characters (lexer reader) =? 0 then
          let '(message, reader, w) :=
            ihex_LexerTokenStream reader IHEX_LEXER_TOKENTYPE_LOAD_OFFSET
                                  (load_offset (record_data (lexer reader))) w in
          (message, ihex_SetNextState reader IHEX_LEXER_STATE_WAIT_TYPE 2, w)
        else (message, reader, w)

  | IHEX_LEXER_STATE_WAIT_TYPE =>
      let reader :=
        upd_lexer (fun l => set_num_expected_characters
                              (u16 (num_expected_characters l - 1)) l) reader in
      let temp_digit := ihex_CharToValue data_byte in
      if temp_digit <? 0 then (IHEX_MESSAGE_INVALID_INPUT_DATA, reader, w)
      else
        let reader :=
          upd_record (fun d => set_rectyp
                                 (u8 (ihex_InsertDigit (rectyp d) (u8 temp_digit)
                                        (u8 (num_expected_characters (lexer reader))))) d)
                     reader in
        if num_expected_characters (lexer reader) =? 0 then
          let '(message, reader, w) :=
            ihex_LexerTokenStream reader IHEX_LEXER_TOKENTYPE_RECTYP
                                  (rectyp (record_data (lexer reader))) w in
          let reader := upd_record (set_data 0) reader in
          if 0 <? reclen (record_data (lexer reader)) then
            (message,
             ihex_SetNextState reader IHEX_LEXER_STATE_WAIT_DATA
                               (u16 (reclen (record_data (lexer reader)) * 2)), w)
          else
            (message, ihex_SetNextState reader IHEX_LEXER_STATE_WAIT_CHECK_SUM 2, w)
        else (message, reader, w)

  | IHEX_LEXER_STATE_WAIT_DATA =>
      let reader :=
        upd_lexer (fun l => set_num_expected_characters
                              (u16 (num_expected_characters l - 1)) l) reader in
      let temp_digit := ihex_CharToValue data_byte in
      if temp_digit <? 0 then (IHEX_MESSAGE_INVALID_INPUT_DATA, reader, w)
      else
        let digit_pos := u8 (num_expected_characters (lexer reader) mod 2) in
        let reader :=
          upd_record (fun d => set_data
                                 (u8 (ihex_InsertDigit (data d) (u8 temp_digit) digit_pos)) d)
                     reader in
        let '(message, reader, w) :=
          if digit_pos =? 0 then
            let '(message, reader, w) :=
              ihex_LexerTokenStream reader IHEX_LEXER_TOKENTYPE_DATA
                                    (data (record_data (lexer reader))) w in
            (message, upd_record (set_data 0) reader, w)
          else (message, reader, w) in
        if num_expected_characters (lexer reader) =? 0 then
          (message, ihex_SetNextState reader IHEX_LEXER_STATE_WAIT_CHECK_SUM 2, w)
        else (message, reader, w)

  | IHEX_LEXER_STATE_WAIT_CHECK_SUM =>
      let reader :=
        upd_lexer (fun l => set_num_expected_characters
                              (u16 (num_expected_characters l - 1)) l) reader in
      let temp_digit := ihex_CharToValue data_byte in
      if temp_digit <? 0 then (IHEX_MESSAGE_INVALID_INPUT_DATA, reader, w)
      else
        let reader :=
          upd_record (fun d => set_target_check_sum
                                 (u8 (ihex_InsertDigit (target_check_sum d) (u8 temp_digit)
                                        (u8 (num_expected_characters (lexer reader))))) d)
                     reader in
        if num_expected_characters (lexer reader) =? 0 then
          let '(message, reader, w) :=
            ihex_LexerTokenStream reader IHEX_LEXER_TOKENTYPE_CHKSUM
                                  (target_check_sum (record_data (lexer reader))) w in
          (message, upd_lexer (set_state IHEX_LEXER_STATE_WAIT_COLON) reader, w)
        else (message, reader, w)
  end.

(** [ihex_Put]: the entry point, one byte per call. *)
Definition ihex_Put (reader : ihex_tReader) (data_byte : Z) (w : World)
  : ihex_tMessage * ihex_tReader * World :=
  if data_byte =? 10 then (IHEX_MESSAGE_CONTINUE, reader, w)
  else if data_byte =? 13 then (IHEX_MESSAGE_CONTINUE, reader, w)
  else if negb (ihex_IsValidData data_byte) then (IHEX_MESSAGE_INVALID_INPUT_DATA, reader, w)
  else ihex_Lexer reader data_byte w.

(** Feeding a whole byte sequence, one [ihex_Put] per byte; the statuses of
    the calls are collected in order. *)
Fixpoint feed (reader : ihex_tReader) (w : World) (input : list Z)
  : list ihex_tMessage * ihex_tReader * World :=
  match input with
  | [] => ([], reader, w)
  | c :: rest =>
      let '(m, reader, w) := ihex_Put reader c w in
      let '(ms, reader, w) := feed reader w rest in
      (m :: ms, reader, w)
  end.

End Reader.

Arguments mkReader {World}.
Arguments lexer {World}.
Arguments funcData {World}.
Arguments upd_lexer {World}.
Arguments upd_record {World}.
Arguments ihex_Init {World}.
Arguments ihex_Begin {World}.
Arguments ihex_SetNextState {World}.
Arguments ihex_LexerTokenStream {World}.
Arguments ihex_Lexer {World}.
Arguments ihex_Put {World}.
Arguments feed {World}.

(** ** Text input *)

(** The bytes of a string literal, as [ihex_Put] receives them. *)
Fixpoint bytes_of_string (s : String.string) : list Z :=
  match s with
  | String.EmptyString => []
  | String.String a rest => Z.of_N (Ascii.N_of_ascii a) :: bytes_of_string rest
  end.

(** A callback that records every invocation and answers with [status]. *)
Definition logging_callback (status : Z -> Z -> ihex_tMessage)
  : ihex_tDataCallback (list (Z * Z)) :=
  fun address data_byte log => (status address data_byte, log ++ [(address, data_byte)]).

(** A reader whose storage is all zero, before [ihex_Init] and [ihex_Begin]. *)
Definition blank_lexer : ihex_tLexer :=
  mkLexer IHEX_LEXER_STATE_WAIT_COLON 0 0 0 0 0 (mkRecordData 0 0 0 0 0 0).

Definition blank_reader {World : Type} : ihex_tReader World :=
  mkReader blank_lexer None.

(** ** Characters *)

(** Hex digits are exactly the bytes [ihex_CharToValue] gives a value to. *)
Definition is_hex (c : Z) : bool := 0 <=? ihex_CharToValue c.

Lemma CharToValue_range c : -1 <= ihex_CharToValue c < 16.
Proof.
  unfold ihex_CharToValue.
  repeat match goal with
         | |- context [if ?b then _ else _] => destruct b eqn:?
         end; lia.
Qed.

Lemma is_hex_value c : is_hex c = true -> 0 <= ihex_CharToValue c < 16.
Proof.
  unfold is_hex. intros H. apply Z.leb_le in H.
  pose proof (CharToValue_range c). lia.
Qed.

Lemma is_hex_false c : is_hex c = false -> (ihex_CharToValue c <? 0) = true.
Proof. unfold is_hex. intros H. apply Z.leb_gt in H. now apply Z.ltb_lt. Qed.

Lemma is_hex_ltb c : is_hex c = true -> (ihex_CharToValue c <? 0) = false.
Proof. unfold is_hex. intros H. apply Z.leb_le in H. now apply Z.ltb_ge. Qed.

Lemma is_hex_valid c :
  is_hex c = true ->
  (c =? 10) = false /\ (c =? 13) = false /\ (c =? 58) = false /\ ihex_IsValidData c = true.
Proof.
  unfold is_hex, ihex_CharToValue, ihex_IsValidData. intros H.
  repeat match type of H with
         | context [if ?b then _ else _] => destruct b eqn:?
         end;
    repeat match goal with
           | E : (_ && _) = true |- _ => apply andb_prop in E; destruct E
           | E : (_ <=? _) = true |- _ => apply Z.leb_le in E
           end;
    try (apply Z.leb_le in H; lia);
    repeat split; try (apply Z.eqb_neq; lia);
    repeat match goal with
           | |- context [?a =? ?b] => destruct (Z.eqb_spec a b); [lia|]
           | |- context [?a <=? ?b] => destruct (Z.leb_spec a b); [|try lia]
           end; simpl; try reflexivity; lia.
Qed.

(** A byte that is valid for [ihex_Put] and is not a hex digit is the mark. *)
Lemma valid_not_hex c : ihex_IsValidData c = true -> is_hex c = false -> c = 58.
Proof.
  unfold is_hex, ihex_CharToValue, ihex_IsValidData. intros V H.
  destruct (Z.eqb_spec c 58); [assumption|]. simpl in V.
  destruct ((48 <=? c) && (c <=? 57)) eqn:E1.
  { apply andb_prop in E1. destruct E1 as [A B].
    apply Z.leb_le in A. apply Z.leb_gt in H. lia. }
  destruct ((65 <=? c) && (c <=? 70)) eqn:E2.
  { apply andb_prop in E2. destruct E2 as [A B].
    apply Z.leb_le in A. apply Z.leb_gt in H. lia. }
  destruct ((97 <=? c) && (c <=? 102)) eqn:E3.
  { apply andb_prop in E3. destruct E3 as [A B].
    apply Z.leb_le in A. apply Z.leb_gt in H. lia. }
  discriminate.
Qed.

(** ** Digit insertion

    The fields are filled most significant digit first.  The lemmas below
    give the value of a field once all its digits are in; they are checked
    on every combination of nibble values. *)

Definition nibbles : list Z := [0;1;2;3;4;5;6;7;8;9;10;11;12;13;14;15].

Lemma nibbles_all (P : Z -> bool) :
  forallb P nibbles = true -> forall v, 0 <= v < 16 -> P v = true.
Proof.
  intros H v Hv. rewrite forallb_forall in H. apply H.
  assert (E : v = 0 \/ v = 1 \/ v = 2 \/ v = 3 \/ v = 4 \/ v = 5 \/ v = 6 \/ v = 7 \/
              v = 8 \/ v = 9 \/ v = 10 \/ v = 11 \/ v = 12 \/ v = 13 \/ v = 14 \/ v = 15) by lia.
  unfold nibbles.
  repeat (destruct E as [->|E]; [simpl; tauto|]). subst. simpl; tauto.
Qed.

(** A two-digit field (length, type, payload byte, checksum). *)
Lemma InsertDigit_byte v1 v0 :
  0 <= v1 < 16 -> 0 <= v0 < 16 ->
  u8 (ihex_InsertDigit (u8 (ihex_InsertDigit 0 (u8 v1) 1)) (u8 v0) 0) = 16 * v1 + v0.
Proof.
  intros H1 H0. apply Z.eqb_eq.
  revert v0 H0. apply nibbles_all. revert v1 H1. apply nibbles_all.
  vm_compute. reflexivity.
Qed.

(** The four-digit load offset. *)
Lemma InsertDigit_word v3 v2 v1 v0 :
  0 <= v3 < 16 -> 0 <= v2 < 16 -> 0 <= v1 < 16 -> 0 <= v0 < 16 ->
  ihex_InsertDigit
    (ihex_InsertDigit
       (ihex_InsertDigit (ihex_InsertDigit 0 (u8 v3) 3) (u8 v2) 2) (u8 v1) 1) (u8 v0) 0
  = 4096 * v3 + 256 * v2 + 16 * v1 + v0.
Proof.
  intros H3 H2 H1 H0. apply Z.eqb_eq.
  revert v0 H0. apply nibbles_all. revert v1 H1. apply nibbles_all.
  revert v2 H2. apply nibbles_all. revert v3 H3. apply nibbles_all.
  vm_compute. reflexivity.
Qed.

(** The value two hex digit characters spell, most significant first. *)
Definition hex2 (c1 c0 : Z) : Z := 16 * ihex_CharToValue c1 + ihex_CharToValue c0.

(** The value four hex digit characters spell. *)
Definition hex4 (c3 c2 c1 c0 : Z) : Z := 256 * hex2 c3 c2 + hex2 c1 c0.

Lemma hex2_range c1 c0 : is_hex c1 = true -> is_hex c0 = true -> 0 <= hex2 c1 c0 < 256.
Proof.
  intros H1 H0. apply is_hex_value in H1, H0. unfold hex2. lia.
Qed.

(** The states in which the lexer expects a hex digit. *)
Definition expects_digit (s : ihex_tLexerState) : bool :=
  match s with
  | IHEX_LEXER_STATE_WAIT_COLON => false
  | _ => true
  end.

Section StepFacts.

Context {World : Type}.
Implicit Types (r : ihex_tReader World) (w : World).

Lemma Put_hex r c w : is_hex c = true -> ihex_Put r c w = ihex_Lexer r c w.
Proof.
  intros H. destruct (is_hex_valid c H) as (A & B & _ & D).
  unfold ihex_Put. now rewrite A, B, D.
Qed.

(** A rejected byte never reaches the lexer. *)
Lemma Put_rejected r c w :
  c <> 10 -> c <> 13 -> ihex_IsValidData c = false ->
  ihex_Put r c w = (IHEX_MESSAGE_INVALID_INPUT_DATA, r, w).
Proof.
  intros A B V. unfold ihex_Put.
  destruct (Z.eqb_spec c 10); [contradiction|].
  destruct (Z.eqb_spec c 13); [contradiction|].
  now rewrite V.
Qed.

(** The mark inside a record: the lexer has already counted it as a digit
    when it finds that it is none. *)
Lemma Put_mark_in_record r w :
  expects_digit (state (lexer r)) = true ->
  ihex_Put r 58 w =
  (IHEX_MESSAGE_INVALID_INPUT_DATA,
   upd_lexer (fun l => set_num_expected_characters (u16 (num_expected_characters l - 1)) l) r,
   w).
Proof.
  intros H. unfold ihex_Put, ihex_Lexer. simpl.
  destruct (state (lexer r)); try discriminate; reflexivity.
Qed.

Lemma upd_lexer_id r : upd_lexer (fun l => l) r = r.
Proof. now destruct r. Qed.

End StepFacts.

(** ** Symbolic execution of the lexer

    Readers are kept in constructor form; [rsimpl] unfolds field updates and
    projections and nothing else, so that the arithmetic stays readable. *)

Ltac rsimpl :=
  cbv beta iota zeta delta
      [lexer funcData state num_expected_characters ext_offset_byte_pos ext_offset
       rec_byte_offset calc_chksum record_data record_mark reclen load_offset rectyp
       data target_check_sum upd_lexer upd_record set_record_mark set_reclen
       set_load_offset set_rectyp set_data set_target_check_sum set_state
       set_num_expected_characters set_ext_offset_byte_pos set_ext_offset
       set_rec_byte_offset set_calc_chksum set_record_data ihex_SetNextState].

Ltac lexer_digit H :=
  rewrite (Put_hex _ _ _ H); unfold ihex_Lexer; rsimpl; rewrite (is_hex_ltb _ H); rsimpl.

Lemma split_word h l :
  0 <= h -> 0 <= l < 256 ->
  Z.shiftr (256 * h + l) 8 = h /\ Z.land (256 * h + l) 255 = l.
Proof.
  intros Hh Hl. split.
  - rewrite Z.shiftr_div_pow2 by lia. change (2 ^ 8) with 256.
    symmetry. apply (Z.div_unique _ _ _ l); lia.
  - change 255 with (Z.ones 8). rewrite Z.land_ones by lia. change (2 ^ 8) with 256.
    symmetry. apply (Z.mod_unique _ _ h); lia.
Qed.

(** One lemma per field of a record: what feeding all digits of the field
    does to a reader waiting for its first digit. *)

Section Steps.
Context {World : Type}.
Variable cb : option (ihex_tDataCallback World).
Implicit Types (w : World).

Lemma step_mark n pos ext rbo calc rd w :
  ihex_Put (mkReader (mkLexer IHEX_LEXER_STATE_WAIT_COLON n pos ext rbo calc rd) cb) 58 w =
  (IHEX_MESSAGE_CONTINUE,
   mkReader (mkLexer IHEX_LEXER_STATE_WAIT_BYTE_COUNT 2 pos ext 0 0
                     (mkRecordData 58 0 0 0 0 0)) cb, w).
Proof. reflexivity. Qed.

Lemma step_length pos ext rbo calc mk lo ty da tg c1 c0 w :
  is_hex c1 = true -> is_hex c0 = true ->
  feed (mkReader (mkLexer IHEX_LEXER_STATE_WAIT_BYTE_COUNT 2 pos ext rbo calc
                     (mkRecordData mk 0 lo ty da tg)) cb) w [c1; c0] =
  ([IHEX_MESSAGE_CONTINUE; IHEX_MESSAGE_CONTINUE],
   mkReader (mkLexer IHEX_LEXER_STATE_WAIT_ADDRESS 4 pos ext rbo (u8 (calc + hex2 c1 c0))
                     (mkRecordData mk (hex2 c1 c0) lo ty da tg)) cb, w).
Proof.
  intros H1 H0. unfold feed.
  lexer_digit H1. change (u16 (2 - 1)) with 1. change (u8 1) with 1.
  change (1 =? 0) with false. cbv iota.
  lexer_digit H0. change (u16 (1 - 1)) with 0. change (u8 0) with 0.
  change (0 =? 0) with true. cbv iota.
  rewrite InsertDigit_byte by (apply is_hex_value; assumption).
  reflexivity.
Qed.

Lemma step_address pos ext rbo calc mk len ty da tg c3 c2 c1 c0 w :
  is_hex c3 = true -> is_hex c2 = true -> is_hex c1 = true -> is_hex c0 = true ->
  feed (mkReader (mkLexer IHEX_LEXER_STATE_WAIT_ADDRESS 4 pos ext rbo calc
                     (mkRecordData mk len 0 ty da tg)) cb) w [c3; c2; c1; c0] =
  ([IHEX_MESSAGE_CONTINUE; IHEX_MESSAGE_CONTINUE; IHEX_MESSAGE_CONTINUE;
    IHEX_MESSAGE_CONTINUE],
   mkReader (mkLexer IHEX_LEXER_STATE_WAIT_TYPE 2 pos ext rbo
                     (u8 (calc + (hex2 c3 c2 + hex2 c1 c0)))
                     (mkRecordData mk len (hex4 c3 c2 c1 c0) ty da tg)) cb, w).
Proof.
  intros H3 H2 H1 H0. unfold feed.
  lexer_digit H3. change (u16 (4 - 1)) with 3. change (u8 3) with 3.
  change (3 =? 0) with false. cbv iota.
  lexer_digit H2. change (u16 (3 - 1)) with 2. change (u8 2) with 2.
  change (2 =? 0) with false. cbv iota.
  lexer_digit H1. change (u16 (2 - 1)) with 1. change (u8 1) with 1.
  change (1 =? 0) with false. cbv iota.
  lexer_digit H0. change (u16 (1 - 1)) with 0. change (u8 0) with 0.
  change (0 =? 0) with true. cbv iota.
  rewrite InsertDigit_word by (apply is_hex_value; assumption).
  replace (4096 * ihex_CharToValue c3 + 256 * ihex_CharToValue c2 +
           16 * ihex_CharToValue c1 + ihex_CharToValue c0)
    with (256 * hex2 c3 c2 + hex2 c1 c0) by (unfold hex2; lia).
  unfold ihex_LexerTokenStream. rsimpl.
  destruct (split_word (hex2 c3 c2) (hex2 c1 c0)) as [E1 E2];
    [ pose proof (hex2_range c3 c2 H3 H2); lia | now apply hex2_range | ].
  rewrite E1, E2. reflexivity.
Qed.

(** The extension accumulator as the type field leaves it. *)
Definition ext_after_type (T pos ext : Z) : Z * Z :=
  if T =? 2 then (1, 0) else if T =? 4 then (3, 0) else (pos, ext).

Lemma step_type pos ext rbo calc mk len lo da tg c1 c0 w :
  is_hex c1 = true -> is_hex c0 = true ->
  feed (mkReader (mkLexer IHEX_LEXER_STATE_WAIT_TYPE 2 pos ext rbo calc
                     (mkRecordData mk len lo 0 da tg)) cb) w [c1; c0] =
  ([IHEX_MESSAGE_CONTINUE; IHEX_MESSAGE_CONTINUE],
   mkReader (mkLexer (if 0 <? len then IHEX_LEXER_STATE_WAIT_DATA
                      else IHEX_LEXER_STATE_WAIT_CHECK_SUM)
                     (if 0 <? len then u16 (len * 2) else 2)
                     (fst (ext_after_type (hex2 c1 c0) pos ext))
                     (snd (ext_after_type (hex2 c1 c0) pos ext))
                     rbo (u8 (calc + hex2 c1 c0))
                     (mkRecordData mk len lo (hex2 c1 c0) 0 tg)) cb, w).
Proof.
  intros H1 H0. unfold feed.
  lexer_digit H1. change (u16 (2 - 1)) with 1. change (u8 1) with 1.
  change (1 =? 0) with false. cbv iota.
  lexer_digit H0. change (u16 (1 - 1)) with 0. change (u8 0) with 0.
  change (0 =? 0) with true. cbv iota.
  rewrite InsertDigit_byte by (apply is_hex_value; assumption).
  fold (hex2 c1 c0).
  unfold ihex_LexerTokenStream, ext_after_type. rsimpl.
  change IHEX_TYPE_02_EXTENDED_SEGMENT_ADDRESS_RECORD with 2.
  change IHEX_TYPE_04_EXTENDED_LINEAR_ADDRESS_RECORD with 4.
  destruct (hex2 c1 c0 =? 2); [| destruct (hex2 c1 c0 =? 4)];
    rsimpl; destruct (0 <? len); reflexivity.
Qed.

Lemma step_checksum pos ext rbo calc mk len lo ty da c1 c0 w :
  is_hex c1 = true -> is_hex c0 = true ->
  feed (mkReader (mkLexer IHEX_LEXER_STATE_WAIT_CHECK_SUM 2 pos ext rbo calc
                     (mkRecordData mk len lo ty da 0)) cb) w [c1; c0] =
  ([IHEX_MESSAGE_CONTINUE;
    if ty =? 1 then IHEX_MESSAGE_END
    else if negb (u8 (Z.lnot calc + 1) =? hex2 c1 c0) then IHEX_MESSAGE_CHECK_SUM_ERROR
         else IHEX_MESSAGE_CONTINUE],
   mkReader (mkLexer IHEX_LEXER_STATE_WAIT_COLON 0 pos ext rbo (u8 (Z.lnot calc + 1))
                     (mkRecordData mk len lo ty da (hex2 c1 c0))) cb, w).
Proof.
  intros H1 H0. unfold feed.
  lexer_digit H1. change (u16 (2 - 1)) with 1. change (u8 1) with 1.
  change (1 =? 0) with false. cbv iota.
  lexer_digit H0. change (u16 (1 - 1)) with 0. change (u8 0) with 0.
  change (0 =? 0) with true. cbv iota.
  rewrite InsertDigit_byte by (apply is_hex_value; assumption).
  fold (hex2 c1 c0).
  unfold ihex_LexerTokenStream. rsimpl.
  change IHEX_TYPE_01_END_OF_FILE_RECORD with 1.
  reflexivity.
Qed.

(** The dispatch of one completed payload byte: the status it yields, the
    extension accumulator (byte position and base) and the world after it. *)
Definition data_token (ty lo b pos ext rbo : Z) (w : World)
  : ihex_tMessage * (Z * Z) * World :=
  if ty =? 0 then
    match cb with
    | Some func =>
        let '(m, w) := func (u32 (u32 (ext + lo) + rbo)) (u8 b) w in (m, (pos, ext), w)
    | None => (IHEX_MESSAGE_CONTINUE, (pos, ext), w)
    end
  else if ty =? 2 then
    let e := u32 (Z.lor ext (u32 (Z.shiftl b (8 * pos)))) in
    (IHEX_MESSAGE_CONTINUE, (u8 (pos - 1), if pos =? 0 then u32 (Z.shiftl e 4) else e), w)
  else if ty =? 4 then
    (IHEX_MESSAGE_CONTINUE,
     (u8 (pos - 1), u32 (Z.lor ext (u32 (Z.shiftl b (8 * pos))))), w)
  else (IHEX_MESSAGE_CONTINUE, (pos, ext), w).

Lemma step_data k pos ext rbo calc mk len lo ty tg c1 c0 w :
  is_hex c1 = true -> is_hex c0 = true -> 1 <= k <= 255 ->
  feed (mkReader (mkLexer IHEX_LEXER_STATE_WAIT_DATA (2 * k) pos ext rbo calc
                     (mkRecordData mk len lo ty 0 tg)) cb) w [c1; c0] =
  let '(m, (pos', ext'), w') := data_token ty lo (hex2 c1 c0) pos ext rbo w in
  ([IHEX_MESSAGE_CONTINUE; m],
   mkReader (mkLexer (if k =? 1 then IHEX_LEXER_STATE_WAIT_CHECK_SUM
                      else IHEX_LEXER_STATE_WAIT_DATA)
                     (if k =? 1 then 2 else 2 * (k - 1))
                     pos' ext' (u16 (rbo + 1)) (u8 (calc + hex2 c1 c0))
                     (mkRecordData mk len lo ty 0 tg)) cb, w').
Proof.
  intros H1 H0 Hk. unfold feed.
  assert (E1 : u16 (2 * k - 1) = 2 * k - 1) by (unfold u16; apply Z.mod_small; lia).
  assert (E2 : u16 (2 * k - 1 - 1) = 2 * (k - 1)) by (unfold u16; rewrite Z.mod_small; lia).
  assert (P1 : u8 ((2 * k - 1) mod 2) = 1).
  { replace (2 * k - 1) with (1 + (k - 1) * 2) by lia. now rewrite Z.mod_add by lia. }
  assert (P0 : u8 ((2 * (k - 1)) mod 2) = 0).
  { now rewrite Z.mul_comm, Z.mod_mul by lia. }
  lexer_digit H1. rewrite E1, P1.
  change (1 =? 0) with false. cbv iota.
  assert (N1 : (2 * k - 1 =? 0) = false) by (apply Z.eqb_neq; lia).
  rewrite N1.
  lexer_digit H0. rewrite E2, P0.
  change (0 =? 0) with true. cbv iota.
  rewrite InsertDigit_byte by (apply is_hex_value; assumption).
  fold (hex2 c1 c0).
  assert (K : (2 * (k - 1) =? 0) = (k =? 1)).
  { destruct (Z.eqb_spec k 1); [subst; reflexivity | apply Z.eqb_neq; lia]. }
  unfold ihex_LexerTokenStream, data_token. rsimpl.
  change IHEX_TYPE_00_DATA_RECORD with 0.
  change IHEX_TYPE_02_EXTENDED_SEGMENT_ADDRESS_RECORD with 2.
  change IHEX_TYPE_04_EXTENDED_LINEAR_ADDRESS_RECORD with 4.
  destruct (ty =? 0).
  { destruct cb as [func|]; [destruct (func _ _ w) as [m w']|];
      rsimpl; rewrite K; destruct (k =? 1); reflexivity. }
  destruct (ty =? 2); [rsimpl; rewrite K; destruct (k =? 1); reflexivity|].
  destruct (ty =? 4); rsimpl; rewrite K; destruct (k =? 1); reflexivity.
Qed.

End Steps.

(** ** Whole records *)

(** The bytes a run of hex digit characters spells, two characters each. *)
Fixpoint bytes_of_digits (cs : list Z) : list Z :=
  match cs with
  | c1 :: c0 :: rest => hex2 c1 c0 :: bytes_of_digits rest
  | _ => []
  end.

(** The status of the call that consumes the last checksum digit. *)
Definition checksum_verdict (ty calc target : Z) : ihex_tMessage :=
  if ty =? 1 then IHEX_MESSAGE_END
  else if negb (u8 (Z.lnot calc + 1) =? target) then IHEX_MESSAGE_CHECK_SUM_ERROR
       else IHEX_MESSAGE_CONTINUE.

Section Records.
Context {World : Type}.
Variable cb : option (ihex_tDataCallback World).
Implicit Types (w : World).

Lemma feed_app (r : ihex_tReader World) w xs ys :
  feed r w (xs ++ ys) =
  let '(ms1, r1, w1) := feed r w xs in
  let '(ms2, r2, w2) := feed r1 w1 ys in
  (ms1 ++ ms2, r2, w2).
Proof.
  revert r w. induction xs as [|x xs IH]; intros r w; simpl.
  - now destruct (feed r w ys) as [[ms2 r2] w2].
  - destruct (ihex_Put r x w) as [[m r'] w']. rewrite IH.
    destruct (feed r' w' xs) as [[ms1 r1] w1].
    now destruct (feed r1 w1 ys) as [[ms2 r2] w2].
Qed.

Lemma feed_two (r : ihex_tReader World) w c1 c0 rest :
  feed r w (c1 :: c0 :: rest) =
  let '(ms1, r1, w1) := feed r w [c1; c0] in
  let '(ms2, r2, w2) := feed r1 w1 rest in
  (ms1 ++ ms2, r2, w2).
Proof. exact (feed_app r w [c1; c0] rest). Qed.

(** What the bytes after the type field do: every byte but the last is a
    payload byte, the last one is the checksum.  The arguments are the
    lexer fields that still change ([pos], [ext], [rbo], [calc]). *)
Fixpoint tail_run (len lo ty : Z) (bs : list Z) (pos ext rbo calc : Z) (w : World)
  : list ihex_tMessage * ihex_tLexer * World :=
  match bs with
  | [] =>
      ([], mkLexer IHEX_LEXER_STATE_WAIT_CHECK_SUM 2 pos ext rbo calc
                   (mkRecordData 58 len lo ty 0 0), w)
  | b :: rest =>
      match rest with
      | [] =>
          ([IHEX_MESSAGE_CONTINUE; checksum_verdict ty calc b],
           mkLexer IHEX_LEXER_STATE_WAIT_COLON 0 pos ext rbo (u8 (Z.lnot calc + 1))
                   (mkRecordData 58 len lo ty 0 b), w)
      | _ :: _ =>
          let '(m, (pos', ext'), w') := data_token cb ty lo b pos ext rbo w in
          let '(ms, lx, w'') :=
            tail_run len lo ty rest pos' ext' (u16 (rbo + 1)) (u8 (calc + b)) w' in
          (IHEX_MESSAGE_CONTINUE :: m :: ms, lx, w'')
      end
  end.

(** The reader between the type field and the end of the record, with [k]
    payload bytes still to come. *)
Definition tail_reader (k : nat) (len lo ty pos ext rbo calc : Z) : ihex_tReader World :=
  mkReader
    (mkLexer (match k with O => IHEX_LEXER_STATE_WAIT_CHECK_SUM
                         | S _ => IHEX_LEXER_STATE_WAIT_DATA end)
             (match k with O => 2 | S _ => 2 * Z.of_nat k end)
             pos ext rbo calc (mkRecordData 58 len lo ty 0 0)) cb.

Lemma tail_run_payload len lo ty b b' rest pos ext rbo calc w :
  tail_run len lo ty (b :: b' :: rest) pos ext rbo calc w =
  let '(m, (pos', ext'), w') := data_token cb ty lo b pos ext rbo w in
  let '(ms, lx, w'') :=
    tail_run len lo ty (b' :: rest) pos' ext' (u16 (rbo + 1)) (u8 (calc + b)) w' in
  (IHEX_MESSAGE_CONTINUE :: m :: ms, lx, w'').
Proof. reflexivity. Qed.

Lemma feed_tail (k : nat) : forall ds len lo ty pos ext rbo calc w,
  length ds = (2 * (k + 1))%nat -> Forall (fun c => is_hex c = true) ds ->
  Z.of_nat k <= 255 ->
  feed (tail_reader k len lo ty pos ext rbo calc) w ds =
  let '(ms, lx, w') := tail_run len lo ty (bytes_of_digits ds) pos ext rbo calc w in
  (ms, mkReader lx cb, w').
Proof.
  induction k as [|k IH]; intros ds len lo ty pos ext rbo calc w Hlen Hhex Hk.
  - destruct ds as [|c1 [|c0 [|? ?]]]; try discriminate.
    pose proof (Forall_inv Hhex) as H1.
    pose proof (Forall_inv (Forall_inv_tail Hhex)) as H0. cbv beta in H1, H0.
    unfold tail_reader. rewrite (step_checksum cb) by assumption. reflexivity.
  - destruct ds as [|c1 [|c0 ds]]; try (simpl in Hlen; lia).
    pose proof (Forall_inv Hhex) as H1.
    pose proof (Forall_inv (Forall_inv_tail Hhex)) as H0. cbv beta in H1, H0.
    pose proof (Forall_inv_tail (Forall_inv_tail Hhex)) as Hhex''.
    rewrite feed_two.
    unfold tail_reader at 1.
    rewrite (step_data cb (Z.of_nat (S k))) by (try assumption; lia).
    assert (Hlen' : length ds = (2 * (k + 1))%nat) by (simpl in Hlen; lia).
    destruct ds as [|d1 [|d0 ds']]; try (simpl in Hlen'; lia).
    change (bytes_of_digits (c1 :: c0 :: d1 :: d0 :: ds'))
      with (hex2 c1 c0 :: hex2 d1 d0 :: bytes_of_digits ds').
    rewrite tail_run_payload.
    destruct (data_token cb ty lo (hex2 c1 c0) pos ext rbo w) as [[m [pos' ext']] w'].
    specialize (IH (d1 :: d0 :: ds') len lo ty pos' ext' (u16 (rbo + 1))
                   (u8 (calc + hex2 c1 c0)) w' Hlen' Hhex'' ltac:(lia)).
    change (bytes_of_digits (d1 :: d0 :: ds'))
      with (hex2 d1 d0 :: bytes_of_digits ds') in IH.
    replace (mkReader _ cb) with (tail_reader k len lo ty pos' ext' (u16 (rbo + 1))
                                    (u8 (calc + hex2 c1 c0))).
    + rewrite IH.
      destruct (tail_run len lo ty (hex2 d1 d0 :: bytes_of_digits ds') pos' ext'
                         (u16 (rbo + 1)) (u8 (calc + hex2 c1 c0)) w') as [[ms lx] w''].
      reflexivity.
    + unfold tail_reader. destruct k as [|k'].
      * reflexivity.
      * assert (E : (Z.of_nat (S (S k')) =? 1) = false) by (apply Z.eqb_neq; lia).
        rewrite E. do 3 f_equal. lia.
Qed.

(** The running checksum once length, load offset and type are in. *)
Definition header_sum (len ah al ty : Z) : Z := u8 (u8 (u8 (0 + len) + (ah + al)) + ty).

(** The mark and the three header fields. *)
Lemma feed_header n pos ext rbo calc rd w l1 l0 a3 a2 a1 a0 t1 t0 :
  Forall (fun c => is_hex c = true) [l1; l0; a3; a2; a1; a0; t1; t0] ->
  feed (mkReader (mkLexer IHEX_LEXER_STATE_WAIT_COLON n pos ext rbo calc rd) cb) w
       [58; l1; l0; a3; a2; a1; a0; t1; t0] =
  let len := hex2 l1 l0 in
  let ty := hex2 t1 t0 in
  (repeat IHEX_MESSAGE_CONTINUE 9,
   tail_reader (Z.to_nat len) len (hex4 a3 a2 a1 a0) ty
               (fst (ext_after_type ty pos ext)) (snd (ext_after_type ty pos ext))
               0 (header_sum len (hex2 a3 a2) (hex2 a1 a0) ty), w).
Proof.
  intros Hhex.
  repeat match goal with
         | H : Forall _ (_ :: _) |- _ =>
             let Hc := fresh "Hc" in
             pose proof (Forall_inv H) as Hc; cbv beta in Hc;
             apply Forall_inv_tail in H
         end.
  pose proof (hex2_range l1 l0 ltac:(assumption) ltac:(assumption)) as Rl.
  cbv zeta.
  change [58; l1; l0; a3; a2; a1; a0; t1; t0]
    with ([58] ++ [l1; l0] ++ [a3; a2; a1; a0] ++ [t1; t0]).
  rewrite feed_app. cbn [feed]. rewrite step_mark.
  rewrite feed_app, (step_length cb) by assumption.
  rewrite feed_app, (step_address cb) by assumption.
  rewrite (step_type cb) by assumption.
  set (len := hex2 l1 l0) in *. set (ty := hex2 t1 t0).
  cbn [app repeat]. do 2 f_equal.
  unfold tail_reader, header_sum.
  destruct (Z.ltb_spec 0 len) as [Hpos|Hzero].
  - destruct (Z.to_nat len) as [|k] eqn:E; [lia|].
    rewrite <- E, Z2Nat.id by lia.
    replace (u16 (len * 2)) with (2 * len); [reflexivity|].
    unfold u16. rewrite Z.mod_small; lia.
  - replace len with 0 by lia. reflexivity.
Qed.

(** A whole record, digit by digit: the mark, the three header fields and
    the tail (payload and checksum digits). *)
Lemma feed_record n pos ext rbo calc rd w l1 l0 a3 a2 a1 a0 t1 t0 tail :
  Forall (fun c => is_hex c = true) (l1 :: l0 :: a3 :: a2 :: a1 :: a0 :: t1 :: t0 :: tail) ->
  length tail = (2 * (Z.to_nat (hex2 l1 l0) + 1))%nat ->
  feed (mkReader (mkLexer IHEX_LEXER_STATE_WAIT_COLON n pos ext rbo calc rd) cb) w
       (58 :: l1 :: l0 :: a3 :: a2 :: a1 :: a0 :: t1 :: t0 :: tail) =
  let len := hex2 l1 l0 in
  let ty := hex2 t1 t0 in
  let '(ms, lx, w') :=
    tail_run len (hex4 a3 a2 a1 a0) ty (bytes_of_digits tail)
             (fst (ext_after_type ty pos ext)) (snd (ext_after_type ty pos ext))
             0 (header_sum len (hex2 a3 a2) (hex2 a1 a0) ty) w in
  (repeat IHEX_MESSAGE_CONTINUE 9 ++ ms, mkReader lx cb, w').
Proof.
  intros Hhex Hlen.
  assert (Hhead : Forall (fun c => is_hex c = true) [l1; l0; a3; a2; a1; a0; t1; t0]).
  { change (l1 :: l0 :: a3 :: a2 :: a1 :: a0 :: t1 :: t0 :: tail)
      with ([l1; l0; a3; a2; a1; a0; t1; t0] ++ tail) in Hhex.
    apply Forall_app in Hhex. tauto. }
  assert (Htail : Forall (fun c => is_hex c = true) tail).
  { change (l1 :: l0 :: a3 :: a2 :: a1 :: a0 :: t1 :: t0 :: tail)
      with ([l1; l0; a3; a2; a1; a0; t1; t0] ++ tail) in Hhex.
    apply Forall_app in Hhex. tauto. }
  pose proof (hex2_range l1 l0 (Forall_inv Hhead) (Forall_inv (Forall_inv_tail Hhead))) as Rl.
  change (58 :: l1 :: l0 :: a3 :: a2 :: a1 :: a0 :: t1 :: t0 :: tail)
    with ([58; l1; l0; a3; a2; a1; a0; t1; t0] ++ tail).
  rewrite feed_app, feed_header by assumption. cbv beta iota zeta.
  rewrite (feed_tail (Z.to_nat (hex2 l1 l0))) by (try assumption; lia).
  destruct (tail_run _ _ _ _ _ _ _ _ _) as [[ms lx] w']. reflexivity.
Qed.

End Records.

(** ** The text of a record

    A record is the mark [':'] followed by hex digit characters.  The
    definitions below read the fields off the digits [ds] that follow the
    mark, as the wire format lays them out: length, load offset (two bytes),
    type, payload, checksum. *)

Definition sum_bytes (bs : list Z) : Z := fold_right Z.add 0 bs.

Definition rec_length (ds : list Z) : Z := nth 0 (bytes_of_digits ds) 0.
Definition rec_offset (ds : list Z) : Z :=
  256 * nth 1 (bytes_of_digits ds) 0 + nth 2 (bytes_of_digits ds) 0.
Definition rec_type (ds : list Z) : Z := nth 3 (bytes_of_digits ds) 0.
Definition rec_payload (ds : list Z) : list Z :=
  firstn (Z.to_nat (rec_length ds)) (skipn 4 (bytes_of_digits ds)).
Definition rec_checksum (ds : list Z) : Z :=
  nth (4 + Z.to_nat (rec_length ds)) (bytes_of_digits ds) 0.

(** All characters are hex digits and there are as many payload bytes as
    the length field declares. *)
Definition well_formed_record (ds : list Z) : Prop :=
  Forall (fun c => is_hex c = true) ds /\
  length ds = (2 * (5 + Z.to_nat (rec_length ds)))%nat.

(** The 8-bit sum of every field byte before the checksum. *)
Definition record_sum (ds : list Z) : Z :=
  u8 (rec_length ds + nth 1 (bytes_of_digits ds) 0 + nth 2 (bytes_of_digits ds) 0
      + rec_type ds + sum_bytes (rec_payload ds)).

(** The 8-bit two's complement: bitwise negate, add one, truncate. *)
Definition twos_complement (s : Z) : Z := u8 (Z.lnot s + 1).

Lemma bytes_of_digits_length m : forall ds,
  length ds = (2 * m)%nat -> length (bytes_of_digits ds) = m.
Proof.
  induction m as [|m IH]; intros ds H.
  - destruct ds; [reflexivity | simpl in H; lia].
  - destruct ds as [|c1 [|c0 ds]]; try (simpl in H; lia).
    cbn [bytes_of_digits length]. f_equal. apply IH. simpl in H. lia.
Qed.

Lemma bytes_of_digits_range ds :
  Forall (fun c => is_hex c = true) ds ->
  Forall (fun b => 0 <= b < 256) (bytes_of_digits ds).
Proof.
  revert ds. fix IH 1. intros [|c1 [|c0 ds]] H; cbn [bytes_of_digits]; try constructor.
  - apply hex2_range.
    + exact (Forall_inv H).
    + exact (Forall_inv (Forall_inv_tail H)).
  - apply IH. exact (Forall_inv_tail (Forall_inv_tail H)).
Qed.

Lemma firstn_nth_last {A} (d : A) n : forall l,
  length l = S n -> l = firstn n l ++ [nth n l d].
Proof.
  induction n as [|n IH]; intros [|x l] H; try discriminate.
  - destruct l; [reflexivity | discriminate].
  - cbn [firstn nth app]. f_equal. apply IH. simpl in H. lia.
Qed.

Section RecordRun.
Context {World : Type}.
Variable cb : option (ihex_tDataCallback World).
Implicit Types (w : World).

(** The payload bytes in order: statuses of the dispatches, the extension
    accumulator and the world after the last one. *)
Fixpoint payload_run (lo ty : Z) (p : list Z) (pos ext rbo : Z) (w : World)
  : list ihex_tMessage * (Z * Z) * World :=
  match p with
  | [] => ([], (pos, ext), w)
  | b :: rest =>
      let '(m, (pos', ext'), w') := data_token cb ty lo b pos ext rbo w in
      let '(ms, pe, w'') := payload_run lo ty rest pos' ext' (u16 (rbo + 1)) w' in
      (m :: ms, pe, w'')
  end.

(** Every payload byte takes two calls: Continue for its first digit, the
    status of the dispatch for its second. *)
Definition per_byte (ms : list ihex_tMessage) : list ihex_tMessage :=
  flat_map (fun m => [IHEX_MESSAGE_CONTINUE; m]) ms.

Lemma u8_range x : 0 <= u8 x < 256.
Proof. unfold u8. apply Z.mod_pos_bound. lia. Qed.

Lemma u16_range x : 0 <= u16 x < 65536.
Proof. unfold u16. apply Z.mod_pos_bound. lia. Qed.

Lemma u8_add_l x y : u8 (u8 x + y) = u8 (x + y).
Proof. unfold u8. apply Z.add_mod_idemp_l. lia. Qed.

Lemma u16_add_l x y : u16 (u16 x + y) = u16 (x + y).
Proof. unfold u16. apply Z.add_mod_idemp_l. lia. Qed.

Lemma header_sum_add len ah al ty s :
  u8 (header_sum len ah al ty + s) = u8 (len + ah + al + ty + s).
Proof.
  unfold header_sum. rewrite u8_add_l.
  replace (u8 (u8 (0 + len) + (ah + al)) + ty + s)
    with (u8 (u8 (0 + len) + (ah + al)) + (ty + s)) by lia.
  rewrite u8_add_l.
  replace (u8 (0 + len) + (ah + al) + (ty + s))
    with (u8 (0 + len) + (ah + al + ty + s)) by lia.
  rewrite u8_add_l. f_equal. lia.
Qed.

Lemma tail_run_cons len lo ty b rest pos ext rbo calc w :
  rest <> [] ->
  tail_run cb len lo ty (b :: rest) pos ext rbo calc w =
  let '(m, (pos', ext'), w') := data_token cb ty lo b pos ext rbo w in
  let '(ms, lx, w'') :=
    tail_run cb len lo ty rest pos' ext' (u16 (rbo + 1)) (u8 (calc + b)) w' in
  (IHEX_MESSAGE_CONTINUE :: m :: ms, lx, w'').
Proof. destruct rest; [contradiction | reflexivity]. Qed.

Lemma tail_run_split len lo ty C : forall p pos ext rbo calc w,
  0 <= calc < 256 -> 0 <= rbo < 65536 ->
  tail_run cb len lo ty (p ++ [C]) pos ext rbo calc w =
  let '(ms, (pos', ext'), w') := payload_run lo ty p pos ext rbo w in
  (per_byte ms ++ [IHEX_MESSAGE_CONTINUE; checksum_verdict ty (u8 (calc + sum_bytes p)) C],
   mkLexer IHEX_LEXER_STATE_WAIT_COLON 0 pos' ext'
           (u16 (rbo + Z.of_nat (length p)))
           (u8 (Z.lnot (u8 (calc + sum_bytes p)) + 1))
           (mkRecordData 58 len lo ty 0 C), w').
Proof.
  induction p as [|b p IH]; intros pos ext rbo calc w Hc Hr.
  - cbn [app tail_run payload_run per_byte flat_map sum_bytes fold_right length].
    change (Z.of_nat 0) with 0. rewrite !Z.add_0_r.
    replace (u8 calc) with calc by (unfold u8; rewrite Z.mod_small; lia).
    replace (u16 rbo) with rbo by (unfold u16; rewrite Z.mod_small; lia).
    reflexivity.
  - assert (E : (b :: p) ++ [C] = b :: (p ++ [C])) by reflexivity.
    rewrite E. clear E.
    rewrite tail_run_cons by (destruct p; discriminate).
    cbn [payload_run].
    destruct (data_token cb ty lo b pos ext rbo w) as [[m [pos' ext']] w'].
    rewrite IH by (apply u8_range || apply u16_range).
    destruct (payload_run lo ty p pos' ext' (u16 (rbo + 1)) w') as [[ms [pos'' ext'']] w''].
    cbn [per_byte flat_map app sum_bytes fold_right length].
    fold (sum_bytes p). fold (per_byte ms).
    rewrite u8_add_l, u16_add_l.
    replace (calc + b + sum_bytes p) with (calc + (b + sum_bytes p)) by lia.
    replace (rbo + 1 + Z.of_nat (length p)) with (rbo + Z.of_nat (S (length p))) by lia.
    reflexivity.
Qed.

(** The lexer between two records, as a completed record leaves it. *)
Definition after_record (ds : list Z) (pos ext : Z) : ihex_tLexer :=
  mkLexer IHEX_LEXER_STATE_WAIT_COLON 0 pos ext
          (u16 (Z.of_nat (length (rec_payload ds))))
          (twos_complement (record_sum ds))
          (mkRecordData 58 (rec_length ds) (rec_offset ds) (rec_type ds) 0 (rec_checksum ds)).

(** Feeding a whole well-formed record to a reader that waits for a mark. *)
Lemma record_run (r : ihex_tReader World) w ds :
  funcData r = cb ->
  state (lexer r) = IHEX_LEXER_STATE_WAIT_COLON ->
  well_formed_record ds ->
  feed r w (58 :: ds) =
  let '(pos0, ext0) :=
    ext_after_type (rec_type ds) (ext_offset_byte_pos (lexer r)) (ext_offset (lexer r)) in
  let '(ms, (pos, ext), w') :=
    payload_run (rec_offset ds) (rec_type ds) (rec_payload ds) pos0 ext0 0 w in
  (repeat IHEX_MESSAGE_CONTINUE 9 ++ per_byte ms ++
     [IHEX_MESSAGE_CONTINUE;
      checksum_verdict (rec_type ds) (record_sum ds) (rec_checksum ds)],
   mkReader (after_record ds pos ext) cb, w').
Proof.
  intros Hcb Hst [Hhex Hlen].
  destruct r as [[st n pos ext rbo calc rd] cb']. cbn in Hcb, Hst. subst cb' st.
  cbn [lexer ext_offset_byte_pos ext_offset].
  destruct ds as [|l1 [|l0 [|a3 [|a2 [|a1 [|a0 [|t1 [|t0 tail]]]]]]]];
    try (exfalso; simpl in Hlen; lia).
  assert (Hl : rec_length (l1 :: l0 :: a3 :: a2 :: a1 :: a0 :: t1 :: t0 :: tail) = hex2 l1 l0)
    by reflexivity.
  assert (Hlen' : length tail = (2 * (Z.to_nat (hex2 l1 l0) + 1))%nat).
  { rewrite Hl in Hlen. simpl in Hlen. lia. }
  rewrite (feed_record cb) by assumption. cbv zeta.
  pose proof (bytes_of_digits_length _ _ Hlen') as Hb.
  unfold after_record, record_sum, twos_complement, rec_payload, rec_checksum, rec_offset,
    rec_type.
  rewrite Hl.
  change (nth (4 + Z.to_nat (hex2 l1 l0))
              (bytes_of_digits (l1 :: l0 :: a3 :: a2 :: a1 :: a0 :: t1 :: t0 :: tail)) 0)
    with (nth (Z.to_nat (hex2 l1 l0)) (bytes_of_digits tail) 0).
  cbn [bytes_of_digits nth skipn].
  set (L := Z.to_nat (hex2 l1 l0)) in *.
  rewrite (firstn_nth_last 0 L (bytes_of_digits tail)) at 1 by lia.
  set (P := firstn L (bytes_of_digits tail)).
  set (C := nth L (bytes_of_digits tail) 0).
  destruct (ext_after_type (hex2 t1 t0) pos ext) as [pos0 ext0]. cbn [fst snd].
  rewrite tail_run_split by (unfold header_sum; try apply u8_range; lia).
  fold (hex4 a3 a2 a1 a0).
  destruct (payload_run _ _ P pos0 ext0 0 w) as [[ms [pos' ext']] w'].
  rewrite header_sum_add. reflexivity.
Qed.

End RecordRun.

(** ** Payload bytes *)

Lemma lor_shiftl_add hi lo k :
  0 <= k -> 0 <= lo < 2 ^ k ->
  Z.lor (Z.shiftl hi k) lo = hi * 2 ^ k + lo.
Proof.
  intros Hk Hlo.
  rewrite <- Z.shiftl_mul_pow2 by assumption.
  assert (D : Z.land (Z.shiftl hi k) lo = 0).
  { apply Z.bits_inj'. intros n Hn. rewrite Z.land_spec, Z.bits_0.
    destruct (Z.ltb_spec n k).
    - rewrite Z.shiftl_spec_low by assumption. reflexivity.
    - replace (Z.testbit lo n) with false; [apply andb_false_r|].
      symmetry. destruct (Z.eqb_spec lo 0) as [->|Hz]; [apply Z.bits_0|].
      apply Z.bits_above_log2; [lia|].
      apply Z.log2_lt_pow2; [lia|].
      apply Z.lt_le_trans with (2 ^ k); [lia|].
      apply Z.pow_le_mono_r; lia. }
  rewrite <- Z.lxor_lor by assumption.
  symmetry. apply Z.add_nocarry_lxor. assumption.
Qed.

Lemma u32_add_l x y : u32 (u32 x + y) = u32 (x + y).
Proof. unfold u32. apply Z.add_mod_idemp_l. lia. Qed.

Lemma u8_small x : 0 <= x < 256 -> u8 x = x.
Proof. intros H. unfold u8. now apply Z.mod_small. Qed.

Lemma u16_small x : 0 <= x < 65536 -> u16 x = x.
Proof. intros H. unfold u16. now apply Z.mod_small. Qed.

Lemma u32_small x : 0 <= x < 4294967296 -> u32 x = x.
Proof. intros H. unfold u32. now apply Z.mod_small. Qed.

(** The sequence of callback invocations a data record stands for: the
    [i]-th payload byte goes to address [base + i] (in 32 bits). *)
Definition data_calls (base : Z) (payload : list Z) : list (Z * Z) :=
  map (fun ib => (u32 (base + Z.of_nat (fst ib)), snd ib))
      (combine (seq 0 (length payload)) payload).

Section Callback.
Context {World : Type}.
Implicit Types (w : World) (f : ihex_tDataCallback World).

(** Invoking the callback on a sequence of (address, data) pairs, in order:
    the statuses it returns and the world it leaves. *)
Fixpoint run_callback f (calls : list (Z * Z)) w : list ihex_tMessage * World :=
  match calls with
  | [] => ([], w)
  | (a, d) :: rest =>
      let '(m, w) := f a d w in
      let '(ms, w) := run_callback f rest w in
      (m :: ms, w)
  end.

Lemma payload_run_data f lo base : forall p s pos ext w,
  Forall (fun b => 0 <= b < 256) p ->
  Z.of_nat s + Z.of_nat (length p) < 65536 ->
  u32 (ext + lo) = u32 base ->
  payload_run (Some f) lo 0 p pos ext (Z.of_nat s) w =
  let calls := map (fun ib => (u32 (base + Z.of_nat (fst ib)), snd ib))
                   (combine (seq s (length p)) p) in
  (fst (run_callback f calls w), (pos, ext), snd (run_callback f calls w)).
Proof.
  induction p as [|b p IH]; intros s pos ext w Hp Hlen Hbase; [reflexivity|].
  cbn [length] in Hlen.
  cbn [payload_run length seq combine map fst snd run_callback].
  unfold data_token. change (0 =? 0) with true. cbv iota.
  replace (u32 (u32 (ext + lo) + Z.of_nat s)) with (u32 (base + Z.of_nat s))
    by (now rewrite Hbase, u32_add_l).
  rewrite (u8_small b) by exact (Forall_inv Hp).
  destruct (f _ b w) as [m w1].
  replace (u16 (Z.of_nat s + 1)) with (Z.of_nat (S s)) by (rewrite u16_small; lia).
  rewrite IH by (try exact (Forall_inv_tail Hp); try assumption; lia).
  cbv zeta. destruct (run_callback f _ w1) as [ms w2]. reflexivity.
Qed.

(** Without a dispatch to the callback (a record of another type, or no
    callback installed) the payload bytes yield Continue and leave the
    world alone. *)
Lemma payload_run_quiet cb lo ty : forall p pos ext rbo w,
  (ty =? 0) = false \/ cb = None ->
  fst (fst (payload_run cb lo ty p pos ext rbo w)) =
    repeat IHEX_MESSAGE_CONTINUE (length p) /\
  snd (payload_run cb lo ty p pos ext rbo w) = w.
Proof.
  induction p as [|b p IH]; intros pos ext rbo w H; [split; reflexivity|].
  cbn [payload_run length repeat].
  assert (E : exists pe, data_token cb ty lo b pos ext rbo w = (IHEX_MESSAGE_CONTINUE, pe, w)).
  { unfold data_token. destruct H as [H| ->].
    - rewrite H. destruct (ty =? 2); [|destruct (ty =? 4)]; eexists; reflexivity.
    - destruct (ty =? 0); [|destruct (ty =? 2); [|destruct (ty =? 4)]];
        eexists; reflexivity. }
  destruct E as [[pos' ext'] E]. rewrite E.
  destruct (IH pos' ext' (u16 (rbo + 1)) w H) as [I1 I2].
  destruct (payload_run cb lo ty p pos' ext' (u16 (rbo + 1)) w) as [[ms pe] w'].
  cbn [fst snd] in *. subst. split; reflexivity.
Qed.

(** Only records of type 02 and 04 touch the extension accumulator. *)
Lemma payload_run_ext cb lo ty : forall p pos ext rbo w,
  (ty =? 2) = false -> (ty =? 4) = false ->
  snd (fst (payload_run cb lo ty p pos ext rbo w)) = (pos, ext).
Proof.
  induction p as [|b p IH]; intros pos ext rbo w H2 H4; [reflexivity|].
  cbn [payload_run].
  assert (E : exists m w', data_token cb ty lo b pos ext rbo w = (m, (pos, ext), w')).
  { unfold data_token. rewrite H2, H4.
    destruct (ty =? 0); [|do 2 eexists; reflexivity].
    destruct cb as [f|]; [|do 2 eexists; reflexivity].
    destruct (f _ _ w) as [m w']. do 2 eexists; reflexivity. }
  destruct E as (m & w' & E). rewrite E.
  specialize (IH pos ext (u16 (rbo + 1)) w' H2 H4).
  destruct (payload_run cb lo ty p pos ext (u16 (rbo + 1)) w') as [[ms pe] w''].
  exact IH.
Qed.

(** The two payload bytes of an extended segment address record. *)
Lemma payload_run_segment cb lo b1 b0 rbo w :
  0 <= b1 < 256 -> 0 <= b0 < 256 ->
  payload_run cb lo 2 [b1; b0] 1 0 rbo w =
  ([IHEX_MESSAGE_CONTINUE; IHEX_MESSAGE_CONTINUE],
   (255, Z.shiftl (256 * b1 + b0) 4), w).
Proof.
  intros H1 H0. cbn [payload_run]. unfold data_token.
  change (2 =? 0) with false. change (2 =? 2) with true. cbv iota.
  change (1 =? 0) with false. change (u8 (1 - 1)) with 0.
  change (0 =? 0) with true. change (u8 (0 - 1)) with 255. cbv iota beta.
  change (8 * 1) with 8. change (8 * 0) with 0.
  assert (E1 : u32 (Z.shiftl b1 8) = Z.shiftl b1 8).
  { apply u32_small. rewrite Z.shiftl_mul_pow2 by lia. change (2 ^ 8) with 256. lia. }
  assert (E2 : Z.lor (Z.shiftl b1 8) b0 = 256 * b1 + b0).
  { rewrite lor_shiftl_add by (change (2 ^ 8) with 256; lia). change (2 ^ 8) with 256. lia. }
  rewrite Z.lor_0_l, Z.shiftl_0_r, E1, E1, (u32_small b0), E2 by lia.
  rewrite (u32_small (256 * b1 + b0)) by lia.
  rewrite u32_small; [reflexivity|].
  rewrite Z.shiftl_mul_pow2 by lia. change (2 ^ 4) with 16. lia.
Qed.

(** The two payload bytes of an extended linear address record. *)
Lemma payload_run_linear cb lo b1 b0 rbo w :
  0 <= b1 < 256 -> 0 <= b0 < 256 ->
  payload_run cb lo 4 [b1; b0] 3 0 rbo w =
  ([IHEX_MESSAGE_CONTINUE; IHEX_MESSAGE_CONTINUE],
   (1, Z.shiftl (256 * b1 + b0) 16), w).
Proof.
  intros H1 H0. cbn [payload_run]. unfold data_token.
  change (4 =? 0) with false. change (4 =? 2) with false. change (4 =? 4) with true.
  cbv iota.
  change (u8 (3 - 1)) with 2. change (u8 (2 - 1)) with 1. cbv iota beta.
  change (8 * 3) with 24. change (8 * 2) with 16.
  assert (E1 : u32 (Z.shiftl b1 24) = Z.shiftl b1 24).
  { apply u32_small. rewrite Z.shiftl_mul_pow2 by lia. change (2 ^ 24) with 16777216. lia. }
  assert (E0 : u32 (Z.shiftl b0 16) = Z.shiftl b0 16).
  { apply u32_small. rewrite Z.shiftl_mul_pow2 by lia. change (2 ^ 16) with 65536. lia. }
  assert (E2 : Z.lor (Z.shiftl b1 24) (Z.shiftl b0 16) = Z.shiftl (256 * b1 + b0) 16).
  { rewrite lor_shiftl_add.
    - rewrite !Z.shiftl_mul_pow2 by lia.
      change (2 ^ 24) with 16777216. change (2 ^ 16) with 65536. lia.
    - lia.
    - rewrite Z.shiftl_mul_pow2 by lia.
      change (2 ^ 24) with 16777216. change (2 ^ 16) with 65536. lia. }
  rewrite Z.lor_0_l, E1, E1, E0, E2.
  rewrite u32_small; [reflexivity|].
  rewrite Z.shiftl_mul_pow2 by lia. change (2 ^ 16) with 65536. lia.
Qed.

End Callback.

(** ** A record up to its checksum field *)

Lemma bytes_of_digits_firstn n : forall ds,
  bytes_of_digits (firstn (2 * n) ds) = firstn n (bytes_of_digits ds).
Proof.
  induction n as [|n IH]; intros ds; [reflexivity|].
  replace (2 * S n)%nat with (S (S (2 * n))) by lia.
  destruct ds as [|c1 [|c0 ds]]; try reflexivity.
  cbn [firstn bytes_of_digits]. f_equal. apply IH.
Qed.

Lemma Forall_firstn_of {A} (P : A -> Prop) n (l : list A) :
  Forall P l -> Forall P (firstn n l).
Proof.
  intros H. rewrite <- (firstn_skipn n l) in H. apply Forall_app in H. tauto.
Qed.

Lemma header_sum_range len ah al ty : 0 <= header_sum len ah al ty < 256.
Proof. unfold header_sum. apply u8_range. Qed.

Section Prefix.
Context {World : Type}.
Variable cb : option (ihex_tDataCallback World).
Implicit Types (w : World).

Lemma feed_payload (k : nat) : forall ds len lo ty pos ext rbo calc w,
  length ds = (2 * k)%nat -> Forall (fun c => is_hex c = true) ds ->
  Z.of_nat k <= 255 -> 0 <= calc < 256 -> 0 <= rbo < 65536 ->
  feed (tail_reader cb k len lo ty pos ext rbo calc) w ds =
  let '(ms, (pos', ext'), w') :=
    payload_run cb lo ty (bytes_of_digits ds) pos ext rbo w in
  (per_byte ms,
   tail_reader cb 0 len lo ty pos' ext' (u16 (rbo + Z.of_nat k))
               (u8 (calc + sum_bytes (bytes_of_digits ds))), w').
Proof.
  induction k as [|k IH]; intros ds len lo ty pos ext rbo calc w Hlen Hhex Hk Hc Hr.
  - destruct ds; [|simpl in Hlen; lia].
    cbn [feed bytes_of_digits payload_run per_byte flat_map sum_bytes fold_right].
    change (Z.of_nat 0) with 0. rewrite !Z.add_0_r, u8_small, u16_small by assumption.
    reflexivity.
  - destruct ds as [|c1 [|c0 ds]]; try (simpl in Hlen; lia).
    pose proof (Forall_inv Hhex) as H1.
    pose proof (Forall_inv (Forall_inv_tail Hhex)) as H0. cbv beta in H1, H0.
    pose proof (Forall_inv_tail (Forall_inv_tail Hhex)) as Hhex''.
    rewrite feed_two.
    unfold tail_reader at 1.
    rewrite (step_data cb (Z.of_nat (S k))) by (try assumption; lia).
    assert (Hlen' : length ds = (2 * k)%nat) by (simpl in Hlen; lia).
    cbn [bytes_of_digits payload_run].
    destruct (data_token cb ty lo (hex2 c1 c0) pos ext rbo w) as [[m [pos' ext']] w'].
    specialize (IH ds len lo ty pos' ext' (u16 (rbo + 1))
                   (u8 (calc + hex2 c1 c0)) w' Hlen' Hhex'' ltac:(lia)
                   (u8_range _) (u16_range _)).
    replace (mkReader _ cb) with (tail_reader cb k len lo ty pos' ext' (u16 (rbo + 1))
                                    (u8 (calc + hex2 c1 c0))).
    + rewrite IH.
      destruct (payload_run cb lo ty (bytes_of_digits ds) pos' ext' (u16 (rbo + 1)) w')
        as [[ms [pos'' ext'']] w''].
      cbn [per_byte flat_map app sum_bytes fold_right].
      fold (sum_bytes (bytes_of_digits ds)). fold (per_byte ms).
      rewrite u8_add_l, u16_add_l.
      replace (calc + hex2 c1 c0 + sum_bytes (bytes_of_digits ds))
        with (calc + (hex2 c1 c0 + sum_bytes (bytes_of_digits ds))) by lia.
      replace (rbo + 1 + Z.of_nat k) with (rbo + Z.of_nat (S k)) by lia.
      reflexivity.
    + unfold tail_reader. destruct k as [|k'].
      * reflexivity.
      * assert (E : (Z.of_nat (S (S k')) =? 1) = false) by (apply Z.eqb_neq; lia).
        rewrite E. do 3 f_equal. lia.
Qed.

(** The digits of a record without its two checksum digits. *)
Definition up_to_checksum (ds : list Z) : list Z :=
  firstn (2 * (4 + Z.to_nat (rec_length ds))) ds.

(** The lexer when the last payload digit is in: it waits for the two
    checksum digits and holds the sum of all field bytes. *)
Definition before_checksum (ds : list Z) (pos ext : Z) : ihex_tLexer :=
  mkLexer IHEX_LEXER_STATE_WAIT_CHECK_SUM 2 pos ext
          (u16 (Z.of_nat (length (rec_payload ds))))
          (record_sum ds)
          (mkRecordData 58 (rec_length ds) (rec_offset ds) (rec_type ds) 0 0).

Lemma record_prefix_run (r : ihex_tReader World) w ds :
  funcData r = cb ->
  state (lexer r) = IHEX_LEXER_STATE_WAIT_COLON ->
  well_formed_record ds ->
  feed r w (58 :: up_to_checksum ds) =
  let '(pos0, ext0) :=
    ext_after_type (rec_type ds) (ext_offset_byte_pos (lexer r)) (ext_offset (lexer r)) in
  let '(ms, (pos, ext), w') :=
    payload_run cb (rec_offset ds) (rec_type ds) (rec_payload ds) pos0 ext0 0 w in
  (repeat IHEX_MESSAGE_CONTINUE 9 ++ per_byte ms,
   mkReader (before_checksum ds pos ext) cb, w').
Proof.
  intros Hcb Hst [Hhex Hlen].
  destruct r as [[st n pos ext rbo calc rd] cb']. cbn in Hcb, Hst. subst cb' st.
  cbn [lexer ext_offset_byte_pos ext_offset].
  destruct ds as [|l1 [|l0 [|a3 [|a2 [|a1 [|a0 [|t1 [|t0 tail]]]]]]]];
    try (exfalso; simpl in Hlen; lia).
  assert (Hl : rec_length (l1 :: l0 :: a3 :: a2 :: a1 :: a0 :: t1 :: t0 :: tail) = hex2 l1 l0)
    by reflexivity.
  assert (Hlen' : length tail = (2 * (Z.to_nat (hex2 l1 l0) + 1))%nat).
  { rewrite Hl in Hlen. simpl in Hlen. lia. }
  assert (Hhead : Forall (fun c => is_hex c = true) [l1; l0; a3; a2; a1; a0; t1; t0]).
  { change (l1 :: l0 :: a3 :: a2 :: a1 :: a0 :: t1 :: t0 :: tail)
      with ([l1; l0; a3; a2; a1; a0; t1; t0] ++ tail) in Hhex.
    apply Forall_app in Hhex. tauto. }
  assert (Htail : Forall (fun c => is_hex c = true) tail).
  { change (l1 :: l0 :: a3 :: a2 :: a1 :: a0 :: t1 :: t0 :: tail)
      with ([l1; l0; a3; a2; a1; a0; t1; t0] ++ tail) in Hhex.
    apply Forall_app in Hhex. tauto. }
  pose proof (hex2_range l1 l0 (Forall_inv Hhead) (Forall_inv (Forall_inv_tail Hhead))) as Rl.
  unfold up_to_checksum, before_checksum, record_sum, rec_payload, rec_offset, rec_type.
  rewrite Hl. set (L := Z.to_nat (hex2 l1 l0)) in *.
  replace (2 * (4 + L))%nat with (8 + 2 * L)%nat by lia.
  change (firstn (8 + 2 * L) (l1 :: l0 :: a3 :: a2 :: a1 :: a0 :: t1 :: t0 :: tail))
    with ([l1; l0; a3; a2; a1; a0; t1; t0] ++ firstn (2 * L) tail).
  change (58 :: [l1; l0; a3; a2; a1; a0; t1; t0] ++ firstn (2 * L) tail)
    with ([58; l1; l0; a3; a2; a1; a0; t1; t0] ++ firstn (2 * L) tail).
  rewrite feed_app, (feed_header cb) by assumption. cbv beta iota zeta.
  fold L.
  cbn [bytes_of_digits nth skipn].
  destruct (ext_after_type (hex2 t1 t0) pos ext) as [pos0 ext0]. cbn [fst snd].
  assert (Hk : Z.of_nat L <= 255) by (subst L; lia).
  assert (Hf : length (firstn (2 * L) tail) = (2 * L)%nat)
    by (rewrite length_firstn; lia).
  assert (Hz : 0 <= 0 < 65536) by lia.
  rewrite (feed_payload L _ _ _ _ _ _ _ _ _ Hf (Forall_firstn_of _ _ _ Htail) Hk
                        (header_sum_range _ _ _ _) Hz).
  rewrite bytes_of_digits_firstn.
  destruct (payload_run cb _ _ (firstn L (bytes_of_digits tail)) pos0 ext0 0 w)
    as [[ms [pos' ext']] w'].
  rewrite header_sum_add.
  unfold tail_reader.
  rewrite length_firstn, (bytes_of_digits_length (L + 1)) by assumption.
  replace (Nat.min L (L + 1)) with L by lia.
  reflexivity.
Qed.

End Prefix.

(** ** Facts about well-formed records *)

Lemma nth_range (P : Z -> Prop) (l : list Z) n :
  Forall P l -> P 0 -> P (nth n l 0).
Proof.
  intros H H0. destruct (Nat.lt_ge_cases n (length l)) as [Hn|Hn].
  - rewrite Forall_forall in H. apply H. now apply nth_In.
  - now rewrite nth_overflow.
Qed.

Lemma well_formed_fields ds :
  well_formed_record ds ->
  0 <= rec_length ds < 256 /\
  0 <= rec_offset ds < 65536 /\
  0 <= rec_type ds < 256 /\
  0 <= rec_checksum ds < 256 /\
  Forall (fun b => 0 <= b < 256) (rec_payload ds) /\
  length (rec_payload ds) = Z.to_nat (rec_length ds).
Proof.
  intros [Hhex Hlen].
  pose proof (bytes_of_digits_range ds Hhex) as Hb.
  pose proof (bytes_of_digits_length _ _ Hlen) as Hn.
  assert (R : forall n, 0 <= nth n (bytes_of_digits ds) 0 < 256)
    by (intros n; apply nth_range; [assumption | lia]).
  unfold rec_length, rec_offset, rec_type, rec_checksum, rec_payload in *.
  pose proof (R 0%nat). pose proof (R 1%nat). pose proof (R 2%nat).
  repeat split; try apply R; try lia.
  - apply Forall_firstn_of.
    rewrite <- (firstn_skipn 4 (bytes_of_digits ds)) in Hb.
    apply Forall_app in Hb. tauto.
  - rewrite length_firstn, length_skipn. unfold rec_length. lia.
Qed.

Lemma data_calls_length base p : length (data_calls base p) = length p.
Proof.
  unfold data_calls. rewrite length_map, length_combine, length_seq. lia.
Qed.

Lemma data_calls_nth base p i :
  (i < length p)%nat ->
  nth i (data_calls base p) (0, 0) = (u32 (base + Z.of_nat i), nth i p 0).
Proof.
  unfold data_calls. change i with (0 + i)%nat at 3. generalize 0%nat as s.
  revert i. induction p as [|b p IH]; intros i s Hi; [simpl in Hi; lia|].
  destruct i as [|i]; cbn [length seq combine map nth fst snd].
  - now rewrite Nat.add_0_r.
  - rewrite IH by (simpl in Hi; lia). do 3 f_equal. lia.
Qed.

(** The check of [well_formed_record], for concrete records. *)
Definition well_formed_recordb (ds : list Z) : bool :=
  forallb is_hex ds && Nat.eqb (length ds) (2 * (5 + Z.to_nat (rec_length ds))).

Lemma well_formed_record_decide ds :
  well_formed_recordb ds = true -> well_formed_record ds.
Proof.
  unfold well_formed_recordb, well_formed_record. intros H.
  apply andb_prop in H. destruct H as [H1 H2]. split.
  - rewrite forallb_forall in H1. apply Forall_forall. exact H1.
  - now apply Nat.eqb_eq.
Qed.

(** A reader with a callback that logs its invocations, begun and waiting
    for the first record. *)
Definition logging_reader : ihex_tReader (list (Z * Z)) :=
  ihex_Begin (ihex_Init blank_reader
                        (Some (logging_callback (fun _ _ => IHEX_MESSAGE_CONTINUE)))).

Lemma last_two {A} (l : list A) (a b d : A) : last (l ++ [a; b]) d = b.
Proof.
  change (l ++ [a; b]) with (l ++ [a] ++ [b]). rewrite app_assoc. apply last_last.
Qed.

Lemma feed_length {World} (r : ihex_tReader World) w input :
  length (fst (fst (feed r w input))) = length input.
Proof.
  revert r w. induction input as [|c input IH]; intros r w; [reflexivity|].
  cbn [feed]. destruct (ihex_Put r c w) as [[m r'] w'].
  specialize (IH r' w'). destruct (feed r' w' input) as [[ms r''] w''].
  cbn [fst length] in *. now rewrite IH.
Qed.

(** ** Records in sequence *)

Section Sequence.
Context {World : Type}.
Implicit Types (r : ihex_tReader World) (w : World) (f : ihex_tDataCallback World).

(** A completed record leaves the reader waiting for the next mark, with
    the same callback. *)
Lemma record_leaves_await_mark r w ds :
  state (lexer r) = IHEX_LEXER_STATE_WAIT_COLON ->
  well_formed_record ds ->
  state (lexer (snd (fst (feed r w (58 :: ds))))) = IHEX_LEXER_STATE_WAIT_COLON /\
  funcData (snd (fst (feed r w (58 :: ds)))) = funcData r.
Proof.
  intros Hst Hwf.
  rewrite (record_run (funcData r) r w ds eq_refl Hst Hwf).
  destruct (ext_after_type _ _ _) as [pos0 ext0].
  destruct (payload_run _ _ _ _ _ _ _ _) as [[ms [pos ext]] w'].
  split; reflexivity.
Qed.

(** The status of the call that consumes the last checksum digit. *)
Lemma record_verdict r w ds :
  state (lexer r) = IHEX_LEXER_STATE_WAIT_COLON ->
  well_formed_record ds ->
  last (fst (fst (feed r w (58 :: ds)))) IHEX_MESSAGE_CONTINUE =
  checksum_verdict (rec_type ds) (record_sum ds) (rec_checksum ds).
Proof.
  intros Hst Hwf.
  rewrite (record_run (funcData r) r w ds eq_refl Hst Hwf).
  destruct (ext_after_type _ _ _) as [pos0 ext0].
  destruct (payload_run _ _ _ _ _ _ _ _) as [[ms [pos ext]] w'].
  cbn [fst]. rewrite app_assoc. apply last_two.
Qed.

(** A data record: the world after it is the world after its callback
    invocations, and the extension base is untouched. *)
Lemma data_record_run r f w ds :
  funcData r = Some f ->
  state (lexer r) = IHEX_LEXER_STATE_WAIT_COLON ->
  well_formed_record ds ->
  rec_type ds = 0 ->
  snd (feed r w (58 :: ds)) =
    snd (run_callback f (data_calls (ext_offset (lexer r) + rec_offset ds) (rec_payload ds)) w)
  /\ ext_offset (lexer (snd (fst (feed r w (58 :: ds))))) = ext_offset (lexer r).
Proof.
  intros Hf Hst Hwf Hty.
  destruct (well_formed_fields ds Hwf) as (Rl & Ro & Rt & Rc & Rp & Lp).
  rewrite (record_run (Some f) r w ds Hf Hst Hwf).
  rewrite Hty. unfold ext_after_type.
  change (0 =? 2) with false. change (0 =? 4) with false. cbv iota.
  rewrite (payload_run_data f (rec_offset ds) (ext_offset (lexer r) + rec_offset ds)
                            (rec_payload ds) 0)
    by (try assumption; try reflexivity; change (Z.of_nat 0) with 0; lia).
  cbv zeta. split; reflexivity.
Qed.

(** The 16-bit value the two payload bytes of an extension record spell. *)
Definition rec_word (ds : list Z) : Z :=
  256 * nth 0 (rec_payload ds) 0 + nth 1 (rec_payload ds) 0.

(** The extension base an extension record establishes. *)
Definition extension_base (ds : list Z) : Z :=
  if rec_type ds =? 2 then Z.shiftl (rec_word ds) 4 else Z.shiftl (rec_word ds) 16.

(** An extension record with its two payload bytes: the base is in place
    as soon as the payload is in, the checksum digits do not touch it, and
    the callback is not involved. *)
Lemma extension_record_run r w ds :
  state (lexer r) = IHEX_LEXER_STATE_WAIT_COLON ->
  well_formed_record ds ->
  rec_type ds = 2 \/ rec_type ds = 4 ->
  rec_length ds = 2 ->
  ext_offset (lexer (snd (fst (feed r w (58 :: up_to_checksum ds))))) = extension_base ds /\
  ext_offset (lexer (snd (fst (feed r w (58 :: ds))))) = extension_base ds /\
  snd (feed r w (58 :: ds)) = w.
Proof.
  intros Hst Hwf Hty Hlen.
  destruct (well_formed_fields ds Hwf) as (Rl & Ro & Rt & Rc & Rp & Lp).
  rewrite (record_run (funcData r) r w ds eq_refl Hst Hwf).
  rewrite (record_prefix_run (funcData r) r w ds eq_refl Hst Hwf).
  unfold extension_base, rec_word.
  rewrite Hlen in Lp.
  destruct (rec_payload ds) as [|b1 [|b0 [|? ?]]]; try discriminate.
  pose proof (Forall_inv Rp) as R1. pose proof (Forall_inv (Forall_inv_tail Rp)) as R0.
  cbv beta in R1, R0. cbn [nth].
  destruct Hty as [-> | ->]; unfold ext_after_type.
  - change (2 =? 2) with true. cbv iota.
    rewrite payload_run_segment by assumption. repeat split; reflexivity.
  - change (4 =? 2) with false. change (4 =? 4) with true. cbv iota.
    rewrite payload_run_linear by assumption. repeat split; reflexivity.
Qed.

(** A data record that follows an extension record is addressed relative to
    the base that record established. *)
Lemma data_after_extension r f w ds ds' :
  funcData r = Some f ->
  state (lexer r) = IHEX_LEXER_STATE_WAIT_COLON ->
  well_formed_record ds ->
  rec_type ds = 2 \/ rec_type ds = 4 ->
  rec_length ds = 2 ->
  well_formed_record ds' ->
  rec_type ds' = 0 ->
  snd (feed r w ((58 :: ds) ++ 58 :: ds')) =
  snd (run_callback f (data_calls (extension_base ds + rec_offset ds') (rec_payload ds')) w).
Proof.
  intros Hf Hst Hwf Hty Hlen Hwf' Hty'.
  rewrite feed_app.
  destruct (extension_record_run r w ds Hst Hwf Hty Hlen) as (_ & He & Hw).
  destruct (record_leaves_await_mark r w ds Hst Hwf) as (Hst1 & Hf1).
  destruct (feed r w (58 :: ds)) as [[ms1 r1] w1]. cbn [fst snd] in *. subst w1.
  rewrite Hf in Hf1.
  destruct (data_record_run r1 f w ds' Hf1 Hst1 Hwf' Hty') as (Hd & _).
  destruct (feed r1 w (58 :: ds')) as [[ms2 r2] w2]. cbn [snd] in *.
  now rewrite Hd, He.
Qed.

End Sequence.

(** With the logging callback the world is the list of invocations so far:
    a data record appends exactly its calls, whatever the statuses are. *)
Lemma run_callback_logging status calls : forall log,
  snd (run_callback (logging_callback status) calls log) = log ++ calls.
Proof.
  induction calls as [|[a d] calls IH]; intros log.
  - symmetry. apply app_nil_r.
  - cbn [run_callback logging_callback]. specialize (IH (log ++ [(a, d)])).
    destruct (run_callback (logging_callback status) calls (log ++ [(a, d)])) as [ms log'].
    cbn [snd] in *. rewrite IH, <- app_assoc. reflexivity.
Qed.

Corollary data_record_log (r : ihex_tReader (list (Z * Z))) status log ds :
  funcData r = Some (logging_callback status) ->
  state (lexer r) = IHEX_LEXER_STATE_WAIT_COLON ->
  well_formed_record ds ->
  rec_type ds = 0 ->
  snd (feed r log (58 :: ds)) =
  log ++ data_calls (ext_offset (lexer r) + rec_offset ds) (rec_payload ds).
Proof.
  intros Hf Hst Hwf Hty.
  destruct (data_record_run r _ log ds Hf Hst Hwf Hty) as [H _].
  rewrite H. apply run_callback_logging.
Qed.

(** ** A reader without a callback *)

Section NullCallback.
Context {World : Type}.
Variable f : ihex_tDataCallback World.
Hypothesis f_continue : forall a d w, fst (f a d w) = IHEX_MESSAGE_CONTINUE.

(** Two runs agree: same status, same lexer; the one without a callback
    has left its world alone. *)
Definition agree (w : World) (x y : ihex_tMessage * ihex_tReader World * World) : Prop :=
  fst (fst x) = fst (fst y) /\
  lexer (snd (fst x)) = lexer (snd (fst y)) /\
  funcData (snd (fst x)) = None /\
  funcData (snd (fst y)) = Some f /\
  snd x = w.

Lemma TokenStream_agree lx tt td w w' :
  agree w (ihex_LexerTokenStream (mkReader lx None) tt td w)
          (ihex_LexerTokenStream (mkReader lx (Some f)) tt td w').
Proof.
  destruct lx as [st n pos ext rbo calc [mk len lo ty da tg]].
  unfold agree, ihex_LexerTokenStream.
  destruct tt; rsimpl; cbn [fst snd lexer funcData]; try (repeat split; reflexivity).
  - destruct (ty =? _); [|destruct (ty =? _)]; rsimpl; repeat split; reflexivity.
  - destruct (ty =? IHEX_TYPE_00_DATA_RECORD).
    + pose proof (f_continue (u32 (u32 (ext + lo) + rbo)) (u8 td) w') as E.
      destruct (f _ _ w') as [m w'']. cbn [fst] in E. subst m.
      rsimpl. repeat split; reflexivity.
    + destruct (ty =? _); [|destruct (ty =? _)]; rsimpl; repeat split; reflexivity.
Qed.

(** The lexer steps on [x] and [y], once both have gone through the same
    field updates. *)
Ltac agree_token :=
  match goal with
  | |- context [ihex_LexerTokenStream (mkReader ?lx None) ?tt ?td ?w] =>
      match goal with
      | |- context [ihex_LexerTokenStream (mkReader lx (Some f)) tt td ?w'] =>
          let H := fresh "H" in
          pose proof (TokenStream_agree lx tt td w w') as H;
          destruct (ihex_LexerTokenStream (mkReader lx None) tt td w) as [[m0 [lx0 cb0]] w0];
          destruct (ihex_LexerTokenStream (mkReader lx (Some f)) tt td w') as [[m1 [lx1 cb1]] w1];
          unfold agree in H; cbn [fst snd lexer funcData] in H;
          destruct H as (? & ? & ? & ? & ?); subst
      end
  end.

Lemma Lexer_agree lx c w w' :
  agree w (ihex_Lexer (mkReader lx None) c w) (ihex_Lexer (mkReader lx (Some f)) c w').
Proof.
  destruct lx as [st n pos ext rbo calc [mk len lo ty da tg]].
  unfold ihex_Lexer. rsimpl.
  destruct st.
  - destruct (negb (c =? 58)); [unfold agree; repeat split; reflexivity|].
    agree_token. rsimpl. unfold agree. repeat split; reflexivity.
  - destruct (ihex_CharToValue c <? 0); [unfold agree; repeat split; reflexivity|].
    destruct (_ =? 0); [|unfold agree; repeat split; reflexivity].
    agree_token. rsimpl. unfold agree. repeat split; reflexivity.
  - destruct (ihex_CharToValue c <? 0); [unfold agree; repeat split; reflexivity|].
    destruct (_ =? 0); [|unfold agree; repeat split; reflexivity].
    agree_token. rsimpl. unfold agree. repeat split; reflexivity.
  - destruct (ihex_CharToValue c <? 0); [unfold agree; repeat split; reflexivity|].
    destruct (_ =? 0); [|unfold agree; repeat split; reflexivity].
    agree_token. rsimpl. cbn [lexer record_data reclen].
    destruct (0 <? _); unfold agree; repeat split; reflexivity.
  - destruct (ihex_CharToValue c <? 0); [unfold agree; repeat split; reflexivity|].
    destruct (u8 (u16 (n - 1) mod 2) =? 0).
    + agree_token. rsimpl. cbn [lexer num_expected_characters].
      destruct (_ =? 0); unfold agree; repeat split; reflexivity.
    + destruct (_ =? 0); unfold agree; repeat split; reflexivity.
  - destruct (ihex_CharToValue c <? 0); [unfold agree; repeat split; reflexivity|].
    destruct (_ =? 0); [|unfold agree; repeat split; reflexivity].
    agree_token. rsimpl. unfold agree. repeat split; reflexivity.
Qed.

Lemma Put_agree lx c w w' :
  agree w (ihex_Put (mkReader lx None) c w) (ihex_Put (mkReader lx (Some f)) c w').
Proof.
  unfold ihex_Put.
  destruct (c =? 10); [unfold agree; repeat split; reflexivity|].
  destruct (c =? 13); [unfold agree; repeat split; reflexivity|].
  destruct (negb (ihex_IsValidData c)); [unfold agree; repeat split; reflexivity|].
  apply Lexer_agree.
Qed.

Lemma feed_agree input : forall lx (w w' : World),
  fst (fst (feed (mkReader lx None) w input)) =
    fst (fst (feed (mkReader lx (Some f)) w' input)) /\
  lexer (snd (fst (feed (mkReader lx None) w input))) =
    lexer (snd (fst (feed (mkReader lx (Some f)) w' input))) /\
  snd (feed (mkReader lx None) w input) = w.
Proof.
  induction input as [|c input IH]; intros lx w w'; [repeat split; reflexivity|].
  cbn [feed].
  pose proof (Put_agree lx c w w') as H.
  destruct (ihex_Put (mkReader lx None) c w) as [[m0 [lx0 cb0]] w0].
  destruct (ihex_Put (mkReader lx (Some f)) c w') as [[m1 [lx1 cb1]] w1].
  unfold agree in H. cbn [fst snd lexer funcData] in H.
  destruct H as (? & ? & ? & ? & ?). subst.
  specialize (IH lx1 w w1).
  destruct (feed (mkReader lx1 None) w input) as [[ms0 r0] w0].
  destruct (feed (mkReader lx1 (Some f)) w1 input) as [[ms1 r1] w1'].
  cbn [fst snd] in *. destruct IH as (-> & -> & ->). repeat split; reflexivity.
Qed.

End NullCallback.

(** ** Encoding a record

    The reader has no encoder; this one follows the wire format: two
    upper-case hex digits per byte, the field bytes followed by the two's
    complement of their 8-bit sum. *)

Definition hex_char (v : Z) : Z := if v <? 10 then 48 + v else 55 + v.

Definition digits_of_byte (b : Z) : list Z := [hex_char (b / 16); hex_char (b mod 16)].

Definition digits_of_bytes (bs : list Z) : list Z := flat_map digits_of_byte bs.

Definition encode_record (len ah al ty : Z) (payload : list Z) : list Z :=
  digits_of_bytes
    (len :: ah :: al :: ty :: payload ++
         [twos_complement (u8 (len + ah + al + ty + sum_bytes payload))]).

(** A line with the character at index [i] replaced by [c]. *)
Fixpoint replace_nth (i : nat) (c : Z) (l : list Z) : list Z :=
  match l, i with
  | [], _ => []
  | _ :: rest, O => c :: rest
  | x :: rest, S i => x :: replace_nth i c rest
  end.

Lemma hex_char_value v : 0 <= v < 16 -> ihex_CharToValue (hex_char v) = v.
Proof.
  intros H. apply Z.eqb_eq. revert v H. apply nibbles_all. reflexivity.
Qed.

Lemma hex_char_is_hex v : 0 <= v < 16 -> is_hex (hex_char v) = true.
Proof.
  intros H. unfold is_hex. rewrite hex_char_value by assumption. apply Z.leb_le. lia.
Qed.

Lemma digits_of_bytes_hex bs :
  Forall (fun b => 0 <= b < 256) bs ->
  Forall (fun c => is_hex c = true) (digits_of_bytes bs).
Proof.
  induction 1 as [|b bs Hb _ IH]; [constructor|].
  cbn [digits_of_bytes flat_map digits_of_byte app].
  constructor; [|constructor; [|exact IH]]; apply hex_char_is_hex.
  - split; [apply Z.div_pos; lia | apply Z.div_lt_upper_bound; lia].
  - apply Z.mod_pos_bound. lia.
Qed.

Lemma bytes_of_digits_of_bytes bs :
  Forall (fun b => 0 <= b < 256) bs ->
  bytes_of_digits (digits_of_bytes bs) = bs.
Proof.
  induction 1 as [|b bs Hb _ IH]; [reflexivity|].
  cbn [digits_of_bytes flat_map digits_of_byte app bytes_of_digits].
  fold (digits_of_bytes bs). rewrite IH. f_equal.
  unfold hex2. rewrite !hex_char_value.
  - symmetry. apply Z.div_mod. lia.
  - apply Z.mod_pos_bound. lia.
  - split; [apply Z.div_pos; lia | apply Z.div_lt_upper_bound; lia].
Qed.

Lemma digits_of_bytes_length bs : length (digits_of_bytes bs) = (2 * length bs)%nat.
Proof.
  induction bs as [|b bs IH]; [reflexivity|].
  cbn [digits_of_bytes flat_map digits_of_byte app length].
  fold (digits_of_bytes bs). rewrite IH. lia.
Qed.

Lemma sum_bytes_app a b : sum_bytes (a ++ b) = sum_bytes a + sum_bytes b.
Proof.
  induction a as [|x a IH]; [reflexivity|].
  cbn [app sum_bytes fold_right]. fold (sum_bytes (a ++ b)). fold (sum_bytes a). lia.
Qed.

Lemma twos_complement_range s : 0 <= twos_complement s < 256.
Proof. apply u8_range. Qed.

(** The fields of an encoded record are the bytes it was encoded from. *)
Lemma encode_record_fields len ah al ty payload :
  Forall (fun b => 0 <= b < 256) (len :: ah :: al :: ty :: payload) ->
  len = Z.of_nat (length payload) ->
  let ds := encode_record len ah al ty payload in
  well_formed_record ds /\
  rec_length ds = len /\ rec_offset ds = 256 * ah + al /\ rec_type ds = ty /\
  rec_payload ds = payload /\
  record_sum ds = u8 (len + ah + al + ty + sum_bytes payload) /\
  rec_checksum ds = twos_complement (record_sum ds).
Proof.
  intros Hr Hlen ds.
  set (C := twos_complement (u8 (len + ah + al + ty + sum_bytes payload))).
  assert (Hall : Forall (fun b => 0 <= b < 256)
                        (len :: ah :: al :: ty :: payload ++ [C])).
  { change (len :: ah :: al :: ty :: payload ++ [C])
      with ((len :: ah :: al :: ty :: payload) ++ [C]).
    apply Forall_app. split; [assumption|].
    constructor; [apply twos_complement_range | constructor]. }
  assert (Hb : bytes_of_digits ds = len :: ah :: al :: ty :: payload ++ [C])
    by (apply bytes_of_digits_of_bytes; exact Hall).
  assert (Hl : rec_length ds = len) by (unfold rec_length; now rewrite Hb).
  assert (Hp : rec_payload ds = payload).
  { unfold rec_payload. rewrite Hl, Hb, Hlen, Nat2Z.id. cbn [skipn].
    rewrite firstn_app, Nat.sub_diag, firstn_all. cbn [firstn]. apply app_nil_r. }
  assert (Hs : record_sum ds = u8 (len + ah + al + ty + sum_bytes payload)).
  { unfold record_sum. rewrite Hp, Hl. unfold rec_type. rewrite Hb. reflexivity. }
  repeat split.
  - apply digits_of_bytes_hex. exact Hall.
  - rewrite Hl. unfold ds, encode_record. rewrite digits_of_bytes_length, Hlen, Nat2Z.id.
    cbn [length]. rewrite length_app. cbn [length]. lia.
  - exact Hl.
  - unfold rec_offset. now rewrite Hb.
  - unfold rec_type. now rewrite Hb.
  - exact Hp.
  - exact Hs.
  - unfold rec_checksum. rewrite Hs, Hl, Hb.
    replace (Z.to_nat len) with (length payload) by lia.
    change (nth (4 + length payload) (len :: ah :: al :: ty :: payload ++ [C]) 0)
      with (nth (length payload) (payload ++ [C]) 0).
    rewrite nth_middle. reflexivity.
Qed.

(** ** Corrupting one character of a line *)

Lemma replace_nth_length i c : forall l, length (replace_nth i c l) = length l.
Proof.
  induction i as [|i IH]; intros [|x l]; cbn [replace_nth length]; auto.
Qed.

Lemma replace_nth_Forall (P : Z -> Prop) i c : forall l,
  P c -> Forall P l -> Forall P (replace_nth i c l).
Proof.
  induction i as [|i IH]; intros [|x l] Hc Hl; cbn [replace_nth]; try constructor.
  - exact Hc.
  - exact (Forall_inv_tail Hl).
  - exact (Forall_inv Hl).
  - apply IH; [exact Hc | exact (Forall_inv_tail Hl)].
Qed.

Lemma replace_nth_split i c : forall l,
  (i < length l)%nat ->
  replace_nth i c l = firstn i l ++ c :: skipn (S i) l.
Proof.
  induction i as [|i IH]; intros [|x l] H; cbn [length] in H; try lia.
  - reflexivity.
  - cbn [replace_nth firstn skipn app]. f_equal. apply IH. lia.
Qed.

(** Replacing a digit after the length field does not touch the length. *)
Lemma replace_nth_rec_length i c ds :
  (2 <= i)%nat -> rec_length (replace_nth i c ds) = rec_length ds.
Proof.
  intros H. unfold rec_length.
  destruct i as [|[|i]]; try lia.
  destruct ds as [|d1 [|d0 ds]]; reflexivity.
Qed.

(** Replacing one digit by a digit of another value moves the sum of the
    spelled bytes by the difference of the values, times 16 for the first
    digit of a byte. *)
Lemma sum_bytes_replace_nth c : forall ds i,
  Nat.even (length ds) = true ->
  (i < length ds)%nat ->
  sum_bytes (bytes_of_digits (replace_nth i c ds)) =
  sum_bytes (bytes_of_digits ds) +
  (ihex_CharToValue c - ihex_CharToValue (nth i ds 0)) * (if Nat.even i then 16 else 1).
Proof.
  fix IH 1. intros [|d1 [|d0 ds]] i He Hi; cbn [length] in *; try lia; try discriminate.
  destruct i as [|[|i]].
  - cbn [replace_nth bytes_of_digits sum_bytes fold_right nth Nat.even]. unfold hex2. lia.
  - cbn [replace_nth bytes_of_digits sum_bytes fold_right nth Nat.even]. unfold hex2. lia.
  - cbn [replace_nth bytes_of_digits sum_bytes fold_right nth].
    fold (sum_bytes (bytes_of_digits (replace_nth i c ds))).
    fold (sum_bytes (bytes_of_digits ds)).
    rewrite (IH ds i) by (try exact He; lia).
    change (Nat.even (S (S i))) with (Nat.even i). lia.
Qed.

(** The two's complement of [s] is [c] exactly when [s + c] is 0 in 8 bits. *)
Lemma twos_complement_iff s c :
  0 <= c < 256 -> (twos_complement (u8 s) = c <-> u8 (s + c) = 0).
Proof.
  intros Hc. unfold twos_complement, u8.
  replace (Z.lnot (s mod 256) + 1) with (- (s mod 256)) by (unfold Z.lnot; lia).
  pose proof (Z.mod_pos_bound s 256 ltac:(lia)) as Hs.
  rewrite <- (Z.add_mod_idemp_l s c) by lia.
  destruct (Z.eq_dec (s mod 256) 0) as [E|N].
  - rewrite E. change (- 0) with 0. rewrite Z.mod_0_l by lia. cbn [Z.add].
    rewrite (Z.mod_small c) by lia. split; congruence.
  - replace (- (s mod 256)) with (256 - s mod 256 + (-1) * 256) by lia.
    rewrite Z.mod_add, Z.mod_small by lia.
    split; intros H.
    + subst c. replace (s mod 256 + (256 - s mod 256)) with 256 by lia. reflexivity.
    + destruct (Z.lt_ge_cases (s mod 256 + c) 256) as [L|G].
      * rewrite Z.mod_small in H by lia. lia.
      * replace (s mod 256 + c) with (s mod 256 + c - 256 + 1 * 256) in H by lia.
        rewrite Z.mod_add, Z.mod_small in H by lia. lia.
Qed.

(** A record is checksum-valid exactly when all its bytes, the checksum
    field included, add up to 0 in 8 bits. *)
Lemma checksum_valid_iff ds :
  well_formed_record ds ->
  (twos_complement (record_sum ds) = rec_checksum ds <->
   u8 (sum_bytes (bytes_of_digits ds)) = 0).
Proof.
  intros Hwf.
  destruct (well_formed_fields ds Hwf) as (Rl & Ro & Rt & Rc & Rp & Lp).
  destruct Hwf as [Hhex Hlen].
  pose proof (bytes_of_digits_length _ _ Hlen) as Hn.
  unfold record_sum. rewrite twos_complement_iff by assumption.
  replace (sum_bytes (bytes_of_digits ds))
    with (rec_length ds + nth 1 (bytes_of_digits ds) 0 + nth 2 (bytes_of_digits ds) 0 +
          rec_type ds + sum_bytes (rec_payload ds) + rec_checksum ds); [reflexivity|].
  clear Rl Ro Rt Rc Rp Lp.
  unfold rec_type, rec_checksum, rec_payload, rec_length in *.
  destruct (bytes_of_digits ds) as [|b0 [|b1 [|b2 [|b3 rest]]]]; cbn [length] in Hn; try lia.
  change (nth (4 + Z.to_nat (nth 0 (b0 :: b1 :: b2 :: b3 :: rest) 0))
              (b0 :: b1 :: b2 :: b3 :: rest) 0)
    with (nth (Z.to_nat b0) rest 0).
  cbn [nth skipn] in *.
  assert (E : sum_bytes rest =
              sum_bytes (firstn (Z.to_nat b0) rest) + nth (Z.to_nat b0) rest 0).
  { rewrite (firstn_nth_last 0 (Z.to_nat b0) rest) at 1 by lia.
    rewrite sum_bytes_app. cbn [sum_bytes fold_right]. lia. }
  cbn [sum_bytes fold_right]. fold (sum_bytes rest). lia.
Qed.

Section Corruption.
Context {World : Type}.
Implicit Types (r : ihex_tReader World) (w : World).

Lemma per_byte_continue n :
  Forall (fun m => m = IHEX_MESSAGE_CONTINUE) (per_byte (repeat IHEX_MESSAGE_CONTINUE n)).
Proof.
  induction n as [|n IH]; [constructor|].
  cbn [repeat per_byte flat_map app]. repeat constructor. exact IH.
Qed.

(** A checksum-valid record that does not reach a callback is answered with
    Continue at every call. *)
Lemma valid_record_continue r w ds :
  state (lexer r) = IHEX_LEXER_STATE_WAIT_COLON ->
  well_formed_record ds ->
  rec_type ds <> 1 ->
  twos_complement (record_sum ds) = rec_checksum ds ->
  rec_type ds <> 0 \/ funcData r = None ->
  Forall (fun m => m = IHEX_MESSAGE_CONTINUE) (fst (fst (feed r w (58 :: ds)))).
Proof.
  intros Hst Hwf Hty Hsum Hq.
  rewrite (record_run (funcData r) r w ds eq_refl Hst Hwf).
  destruct (ext_after_type _ _ _) as [pos0 ext0].
  assert (Hq' : (rec_type ds =? 0) = false \/ funcData r = None).
  { destruct Hq as [Hq|Hq]; [left; now apply Z.eqb_neq | now right]. }
  destruct (payload_run_quiet (funcData r) (rec_offset ds) (rec_type ds) (rec_payload ds)
                              pos0 ext0 0 w Hq') as [Hm _].
  destruct (payload_run _ _ _ _ _ _ _ _) as [[ms [pos ext]] w'].
  cbn [fst] in *. subst ms.
  apply Forall_app. split; [apply Forall_forall; intros m Hm; now apply repeat_spec in Hm|].
  apply Forall_app. split; [apply per_byte_continue|].
  unfold checksum_verdict.
  destruct (Z.eqb_spec (rec_type ds) 1) as [E|_]; [contradiction|].
  fold (twos_complement (record_sum ds)). rewrite Hsum, Z.eqb_refl.
  repeat constructor.
Qed.

(** A digit after the length field replaced by a digit of another value:
    the record still has its shape, and its bytes no longer add up. *)
Lemma corrupted_digit_verdict r w ds i c :
  state (lexer r) = IHEX_LEXER_STATE_WAIT_COLON ->
  well_formed_record ds ->
  twos_complement (record_sum ds) = rec_checksum ds ->
  (2 <= i < length ds)%nat ->
  is_hex c = true ->
  ihex_CharToValue c <> ihex_CharToValue (nth i ds 0) ->
  last (fst (fst (feed r w (58 :: replace_nth i c ds)))) IHEX_MESSAGE_CONTINUE =
  if rec_type (replace_nth i c ds) =? 1 then IHEX_MESSAGE_END
  else IHEX_MESSAGE_CHECK_SUM_ERROR.
Proof.
  intros Hst Hwf Hsum Hi Hc Hv.
  assert (Hwf' : well_formed_record (replace_nth i c ds)).
  { destruct Hwf as [Hhex Hlen]. split.
    - now apply replace_nth_Forall.
    - rewrite replace_nth_length, replace_nth_rec_length by lia. exact Hlen. }
  rewrite record_verdict by assumption. unfold checksum_verdict.
  destruct (rec_type (replace_nth i c ds) =? 1); [reflexivity|].
  fold (twos_complement (record_sum (replace_nth i c ds))).
  destruct (Z.eqb_spec (twos_complement (record_sum (replace_nth i c ds)))
                       (rec_checksum (replace_nth i c ds))) as [E|_]; [|reflexivity].
  exfalso.
  apply checksum_valid_iff in E; [|assumption].
  apply checksum_valid_iff in Hsum; [|assumption].
  assert (He : Nat.even (length ds) = true).
  { destruct Hwf as [_ Hlen]. rewrite Hlen. apply Nat.even_spec. eexists. reflexivity. }
  rewrite sum_bytes_replace_nth in E by (try assumption; lia).
  pose proof (is_hex_value c Hc) as Rc.
  assert (Rd : 0 <= ihex_CharToValue (nth i ds 0) < 16).
  { apply is_hex_value. destruct Hwf as [Hhex _].
    rewrite Forall_forall in Hhex. apply Hhex. apply nth_In. lia. }
  unfold u8 in E, Hsum.
  apply Z.mod_divide in E; [|lia]. apply Z.mod_divide in Hsum; [|lia].
  destruct E as [q1 E]. destruct Hsum as [q0 Hsum].
  destruct (Nat.even i); lia.
Qed.

(** A byte that [ihex_Put] rejects is reported at the call that feeds it,
    wherever it stands in the input. *)
Lemma rejected_byte_reported r w l i c :
  (i < length l)%nat -> c <> 10 -> c <> 13 -> ihex_IsValidData c = false ->
  nth i (fst (fst (feed r w (replace_nth i c l)))) IHEX_MESSAGE_CONTINUE =
  IHEX_MESSAGE_INVALID_INPUT_DATA.
Proof.
  intros Hi H10 H13 Hv.
  rewrite replace_nth_split by assumption. rewrite feed_app.
  pose proof (feed_length r w (firstn i l)) as Hl.
  destruct (feed r w (firstn i l)) as [[ms1 r1] w1]. cbn [fst] in Hl.
  cbn [feed]. rewrite Put_rejected by assumption.
  destruct (feed r1 w1 (skipn (S i) l)) as [[ms2 r2] w2]. cbn [fst].
  rewrite length_firstn in Hl.
  replace i with (length ms1) at 1 by lia.
  apply nth_middle.
Qed.

(** Between records hex digits are skipped. *)
Lemma feed_await_mark r w xs :
  state (lexer r) = IHEX_LEXER_STATE_WAIT_COLON ->
  Forall (fun c => is_hex c = true) xs ->
  feed r w xs = (repeat IHEX_MESSAGE_CONTINUE (length xs), r, w).
Proof.
  intros Hst Hx. induction xs as [|c xs IH]; [reflexivity|].
  pose proof (Forall_inv Hx) as Hc. cbv beta in Hc.
  destruct (is_hex_valid c Hc) as (_ & _ & M & _).
  cbn [feed length repeat]. rewrite (Put_hex _ _ _ Hc).
  unfold ihex_Lexer. rewrite Hst, M. cbn [negb].
  rewrite IH by exact (Forall_inv_tail Hx). reflexivity.
Qed.

Lemma last_repeat {A} (l : list A) (x d : A) n : last (l ++ repeat x (S n)) d = x.
Proof.
  change (repeat x (S n)) with (x :: repeat x n).
  rewrite repeat_cons, app_assoc. apply last_last.
Qed.

(** Inside a checksum-valid record the lexer expects a digit: were it
    waiting for a mark before the last digit is in, the rest of the line
    would be skipped and a wrong last digit would go unreported. *)
Lemma mid_record_expects_digit r w ds k :
  state (lexer r) = IHEX_LEXER_STATE_WAIT_COLON ->
  well_formed_record ds ->
  twos_complement (record_sum ds) = rec_checksum ds ->
  (k < length ds)%nat ->
  expects_digit (state (lexer (snd (fst (feed r w (58 :: firstn k ds)))))) = true.
Proof.
  intros Hst Hwf Hsum Hk.
  destruct (expects_digit _) eqn:E; [reflexivity|]. exfalso.
  assert (Hidle : state (lexer (snd (fst (feed r w (58 :: firstn k ds))))) =
                  IHEX_LEXER_STATE_WAIT_COLON).
  { revert E.
    destruct (state (lexer (snd (fst (feed r w (58 :: firstn k ds))))));
      intros E; try discriminate E; reflexivity. }
  clear E.
  pose proof Hwf as [Hhex Hlen].
  set (j := (length ds - 1)%nat).
  set (c := if ihex_CharToValue (nth j ds 0) =? 0 then 49 else 48).
  assert (Hc : is_hex c = true) by (subst c; destruct (_ =? 0); reflexivity).
  assert (Hv : ihex_CharToValue c <> ihex_CharToValue (nth j ds 0)).
  { subst c. destruct (Z.eqb_spec (ihex_CharToValue (nth j ds 0)) 0) as [Z0|N0].
    - rewrite Z0. discriminate.
    - intros F. apply N0. symmetry. exact F. }
  pose proof (corrupted_digit_verdict r w ds j c Hst Hwf Hsum ltac:(subst j; lia) Hc Hv) as V.
  rewrite replace_nth_split in V by (subst j; lia).
  replace (skipn (S j) ds) with (@nil Z) in V by (symmetry; apply skipn_all2; subst j; lia).
  assert (Es : firstn j ds = firstn k ds ++ skipn k (firstn j ds)).
  { rewrite <- (firstn_skipn k (firstn j ds)) at 1. f_equal.
    rewrite firstn_firstn. f_equal. subst j. lia. }
  rewrite Es, <- app_assoc, app_comm_cons, feed_app in V.
  destruct (feed r w (58 :: firstn k ds)) as [[ms1 r1] w1]. cbn [fst snd] in Hidle.
  assert (Hrest : Forall (fun x => is_hex x = true) (skipn k (firstn j ds) ++ [c])).
  { apply Forall_app. split; [|repeat constructor; exact Hc].
    pose proof Hhex as Hh. rewrite <- (firstn_skipn j ds) in Hh.
    apply Forall_app in Hh. destruct Hh as [Hh _]. rewrite Es in Hh.
    apply Forall_app in Hh. tauto. }
  rewrite (feed_await_mark r1 w1 _ Hidle Hrest) in V. cbn [fst] in V.
  rewrite length_app, Nat.add_comm in V. cbn [length Nat.add] in V.
  rewrite last_repeat in V.
  destruct (_ =? 1) in V; discriminate V.
Qed.

(** A digit replaced by the mark is reported at the call that feeds it. *)
Lemma mark_in_record_reported r w ds i :
  state (lexer r) = IHEX_LEXER_STATE_WAIT_COLON ->
  well_formed_record ds ->
  twos_complement (record_sum ds) = rec_checksum ds ->
  (1 <= i <= length ds)%nat ->
  nth i (fst (fst (feed r w (replace_nth i 58 (58 :: ds))))) IHEX_MESSAGE_CONTINUE =
  IHEX_MESSAGE_INVALID_INPUT_DATA.
Proof.
  intros Hst Hwf Hsum Hi.
  destruct i as [|k]; [lia|].
  pose proof (mid_record_expects_digit r w ds k Hst Hwf Hsum ltac:(lia)) as Hd.
  rewrite replace_nth_split by (cbn [length]; lia).
  change (firstn (S k) (58 :: ds)) with (58 :: firstn k ds).
  rewrite feed_app.
  pose proof (feed_length r w (58 :: firstn k ds)) as Hl.
  destruct (feed r w (58 :: firstn k ds)) as [[ms1 r1] w1]. cbn [fst snd] in Hl, Hd.
  cbn [feed]. rewrite Put_mark_in_record by exact Hd.
  destruct (feed _ w1 (skipn (S (S k)) (58 :: ds))) as [[ms2 r2] w2]. cbn [fst].
  cbn [length] in Hl. rewrite length_firstn in Hl.
  replace (S k) with (length ms1) at 1 by lia.
  apply nth_middle.
Qed.

End Corruption.

(** ** Data records (C1) *)

(** C1: a well-formed type-00 record fed to a reader that waits for a mark
    invokes the data callback on exactly the calls [data_calls]: one per
    payload byte, in order of arrival, as many as the length field declares,
    the [i]-th one at address extension base + load offset + [i], the sum
    being taken in the 32 bits of the address.  The extension base is the
    same at every call. *)
Theorem C1_data_record_callbacks :
  forall (World : Type) (r : ihex_tReader World) (f : ihex_tDataCallback World)
         (w : World) (ds : list Z),
    funcData r = Some f ->
    state (lexer r) = IHEX_LEXER_STATE_WAIT_COLON ->
    well_formed_record ds ->
    rec_type ds = IHEX_TYPE_00_DATA_RECORD ->
    let calls := data_calls (ext_offset (lexer r) + rec_offset ds) (rec_payload ds) in
    snd (feed r w (58 :: ds)) = snd (run_callback f calls w) /\
    Z.of_nat (length calls) = rec_length ds /\
    (forall i, (i < length calls)%nat ->
               nth i calls (0, 0) =
               (u32 (ext_offset (lexer r) + rec_offset ds + Z.of_nat i),
                nth i (rec_payload ds) 0)) /\
    (forall i, (i < length calls)%nat ->
               0 <= ext_offset (lexer r) ->
               ext_offset (lexer r) + rec_offset ds + Z.of_nat i < 4294967296 ->
               fst (nth i calls (0, 0)) = ext_offset (lexer r) + rec_offset ds + Z.of_nat i) /\
    ext_offset (lexer (snd (fst (feed r w (58 :: ds))))) = ext_offset (lexer r).
Proof.
  intros World r f w ds Hf Hst Hwf Hty calls.
  destruct (well_formed_fields ds Hwf) as (Rl & Ro & Rt & Rc & Rp & Lp).
  rewrite (record_run (Some f) r w ds Hf Hst Hwf).
  rewrite Hty. unfold IHEX_TYPE_00_DATA_RECORD, ext_after_type.
  change (0 =? 2) with false. change (0 =? 4) with false. cbv iota.
  rewrite (payload_run_data f (rec_offset ds) (ext_offset (lexer r) + rec_offset ds)
                            (rec_payload ds) 0)
    by (try assumption; try reflexivity; change (Z.of_nat 0) with 0; lia).
  cbv zeta. fold (data_calls (ext_offset (lexer r) + rec_offset ds) (rec_payload ds)).
  fold calls. cbn [fst snd].
  assert (Lc : length calls = length (rec_payload ds)) by apply data_calls_length.
  repeat split.
  - lia.
  - intros i Hi. unfold calls. rewrite data_calls_nth by lia. reflexivity.
  - intros i Hi H0 Hlt. unfold calls. rewrite data_calls_nth by lia. cbn [fst].
    apply u32_small. lia.
Qed.

Lemma C1_data_record_callbacks_witness :
  snd (feed logging_reader [] (bytes_of_string ":0300300002337A1E"%string)) =
  [(48, 2); (49, 51); (50, 122)].
Proof.
  exact (proj1 (C1_data_record_callbacks
                  (list (Z * Z)) logging_reader
                  (logging_callback (fun _ _ => IHEX_MESSAGE_CONTINUE)) []
                  (bytes_of_string "0300300002337A1E"%string)
                  eq_refl eq_refl
                  (well_formed_record_decide
                     (bytes_of_string "0300300002337A1E"%string) eq_refl)
                  eq_refl)).
Defined.

(** ** The checksum verdict (C2, C5) *)

(** C2: for a well-formed record whose type is not 01, the call that
    consumes the last checksum digit returns ChecksumError exactly when the
    8-bit two's complement of the sum of the field bytes (length, both
    address bytes, type, payload) differs from the checksum field, and
    Continue when they are equal; either way the reader is back in
    AwaitMark.  The sum is the running checksum the lexer holds when the
    last payload digit is in. *)
Theorem C2_checksum_verdict :
  forall (World : Type) (r : ihex_tReader World) (w : World) (ds : list Z),
    state (lexer r) = IHEX_LEXER_STATE_WAIT_COLON ->
    well_formed_record ds ->
    rec_type ds <> IHEX_TYPE_01_END_OF_FILE_RECORD ->
    let res := feed r w (58 :: ds) in
    let verdict := last (fst (fst res)) IHEX_MESSAGE_CONTINUE in
    (verdict = IHEX_MESSAGE_CHECK_SUM_ERROR <->
     twos_complement (record_sum ds) <> rec_checksum ds) /\
    (twos_complement (record_sum ds) = rec_checksum ds ->
     verdict = IHEX_MESSAGE_CONTINUE) /\
    state (lexer (snd (fst res))) = IHEX_LEXER_STATE_WAIT_COLON /\
    calc_chksum (lexer (snd (fst (feed r w (58 :: up_to_checksum ds))))) = record_sum ds.
Proof.
  intros World r w ds Hst Hwf Hty res verdict. subst verdict res.
  rewrite (record_run (funcData r) r w ds eq_refl Hst Hwf).
  rewrite (record_prefix_run (funcData r) r w ds eq_refl Hst Hwf).
  destruct (ext_after_type _ _ _) as [pos0 ext0].
  destruct (payload_run _ _ _ _ _ _ _ _) as [[ms [pos ext]] w'].
  cbn [fst snd lexer state after_record before_checksum calc_chksum].
  rewrite app_assoc, last_two.
  unfold checksum_verdict, IHEX_TYPE_01_END_OF_FILE_RECORD in *.
  destruct (Z.eqb_spec (rec_type ds) 1) as [E|_]; [contradiction|].
  fold (twos_complement (record_sum ds)).
  destruct (Z.eqb_spec (twos_complement (record_sum ds)) (rec_checksum ds)) as [E|N];
    cbn [negb]; repeat split; try reflexivity; try congruence; try discriminate.
Qed.

Lemma C2_checksum_verdict_witness :
  let res := feed logging_reader [] (bytes_of_string ":0300300002337A1F"%string) in
  last (fst (fst res)) IHEX_MESSAGE_CONTINUE = IHEX_MESSAGE_CHECK_SUM_ERROR /\
  state (lexer (snd (fst res))) = IHEX_LEXER_STATE_WAIT_COLON.
Proof.
  pose proof (C2_checksum_verdict
                (list (Z * Z)) logging_reader []
                (bytes_of_string "0300300002337A1F"%string)
                eq_refl
                (well_formed_record_decide
                   (bytes_of_string "0300300002337A1F"%string) eq_refl)
                ltac:(vm_compute; discriminate)) as H.
  cbv zeta in H. destruct H as (H1 & _ & H3 & _).
  split; [apply H1; vm_compute; discriminate | exact H3].
Defined.

(** C5: for a well-formed record of type 01 the call that consumes the last
    checksum digit returns End whatever the checksum digits are, and the
    reader is back in AwaitMark; in particular for [":00000001"] followed by
    any two hex digits. *)
Theorem C5_end_of_file_record :
  forall (World : Type) (r : ihex_tReader World) (w : World),
    state (lexer r) = IHEX_LEXER_STATE_WAIT_COLON ->
    (forall ds,
        well_formed_record ds ->
        rec_type ds = IHEX_TYPE_01_END_OF_FILE_RECORD ->
        last (fst (fst (feed r w (58 :: ds)))) IHEX_MESSAGE_CONTINUE = IHEX_MESSAGE_END /\
        state (lexer (snd (fst (feed r w (58 :: ds))))) = IHEX_LEXER_STATE_WAIT_COLON) /\
    (forall c1 c0,
        is_hex c1 = true -> is_hex c0 = true ->
        last (fst (fst (feed r w (bytes_of_string ":00000001"%string ++ [c1; c0]))))
             IHEX_MESSAGE_CONTINUE = IHEX_MESSAGE_END).
Proof.
  intros World r w Hst.
  assert (G : forall ds,
             well_formed_record ds ->
             rec_type ds = IHEX_TYPE_01_END_OF_FILE_RECORD ->
             last (fst (fst (feed r w (58 :: ds)))) IHEX_MESSAGE_CONTINUE = IHEX_MESSAGE_END /\
             state (lexer (snd (fst (feed r w (58 :: ds))))) = IHEX_LEXER_STATE_WAIT_COLON).
  { intros ds Hwf Hty.
    rewrite (record_run (funcData r) r w ds eq_refl Hst Hwf).
    destruct (ext_after_type _ _ _) as [pos0 ext0].
    destruct (payload_run _ _ _ _ _ _ _ _) as [[ms [pos ext]] w'].
    cbn [fst snd lexer state after_record].
    rewrite app_assoc, last_two.
    unfold checksum_verdict. rewrite Hty. split; reflexivity. }
  split; [exact G|].
  intros c1 c0 H1 H0.
  apply (G (bytes_of_string "00000001"%string ++ [c1; c0])).
  - split; [|reflexivity].
    apply Forall_app. split.
    + apply Forall_forall. apply forallb_forall. reflexivity.
    + repeat constructor; assumption.
  - reflexivity.
Qed.

Lemma C5_end_of_file_record_witness :
  last (fst (fst (feed logging_reader [] (bytes_of_string ":00000001FF"%string))))
       IHEX_MESSAGE_CONTINUE = IHEX_MESSAGE_END.
Proof.
  exact (proj2 (C5_end_of_file_record (list (Z * Z)) logging_reader [] eq_refl)
               70 70 eq_refl eq_refl).
Defined.

(** ** Rejected bytes (C3, C6) *)

(** The reader after [":"]: it waits for the first length digit. *)
Definition reader_after_mark : ihex_tReader unit :=
  Eval vm_compute in snd (fst (ihex_Put (ihex_Begin blank_reader) 58 tt)).

(** The reader after [":02000000"]: it waits for four payload digits. *)
Definition reader_in_payload : ihex_tReader unit :=
  Eval vm_compute in
    snd (fst (feed (ihex_Begin blank_reader) tt (bytes_of_string ":02000000"%string))).

(** C3, as stated, fails at the record mark: in ["::"] the second [':']
    finds the lexer waiting for the first length digit; it is answered with
    InvalidInput, but the remaining-digit counter has gone from 2 to 1. *)
Lemma C3_mark_consumes_a_digit :
  reader_after_mark = snd (fst (ihex_Put (ihex_Begin blank_reader) 58 tt)) /\
  is_hex 58 = false /\ 58 <> 10 /\ 58 <> 13 /\
  state (lexer reader_after_mark) = IHEX_LEXER_STATE_WAIT_BYTE_COUNT /\
  fst (fst (ihex_Put reader_after_mark 58 tt)) = IHEX_MESSAGE_INVALID_INPUT_DATA /\
  num_expected_characters (lexer reader_after_mark) = 2 /\
  num_expected_characters (lexer (snd (fst (ihex_Put reader_after_mark 58 tt)))) = 1 /\
  snd (fst (ihex_Put reader_after_mark 58 tt)) <> reader_after_mark.
Proof.
  repeat split; try (vm_compute; reflexivity); try lia.
  intros E. apply (f_equal (fun x => num_expected_characters (lexer x))) in E.
  vm_compute in E. discriminate.
Qed.

(** C3 (amended): a byte that is no hex digit, no CR and no LF, fed in a
    digit-expecting state, is answered with InvalidInput and the world is
    untouched.  If the byte is not [':'] the reader is exactly as before;
    if it is [':'] the reader is as before except that the remaining-digit
    counter has been decremented (modulo 2^16). *)
Theorem C3_invalid_input_in_record :
  forall (World : Type) (r : ihex_tReader World) (w : World) (c : Z),
    expects_digit (state (lexer r)) = true ->
    is_hex c = false -> c <> 10 -> c <> 13 ->
    ihex_Put r c w =
    (IHEX_MESSAGE_INVALID_INPUT_DATA,
     (if c =? 58
      then upd_lexer (fun l => set_num_expected_characters
                                 (u16 (num_expected_characters l - 1)) l) r
      else r),
     w).
Proof.
  intros World r w c S H A B.
  destruct (Z.eqb_spec c 58) as [->|N].
  - now apply Put_mark_in_record.
  - apply Put_rejected; try assumption.
    destruct (ihex_IsValidData c) eqn:V; [|reflexivity].
    exfalso. apply N. now apply valid_not_hex.
Qed.

Lemma C3_invalid_input_in_record_witness :
  reader_in_payload =
    snd (fst (feed (ihex_Begin blank_reader) tt (bytes_of_string ":02000000"%string))) /\
  state (lexer reader_in_payload) = IHEX_LEXER_STATE_WAIT_DATA /\
  ihex_Put reader_in_payload 71 tt =
    (IHEX_MESSAGE_INVALID_INPUT_DATA, reader_in_payload, tt) /\
  ihex_Put reader_in_payload 58 tt =
    (IHEX_MESSAGE_INVALID_INPUT_DATA,
     upd_lexer (fun l => set_num_expected_characters
                           (u16 (num_expected_characters l - 1)) l) reader_in_payload, tt).
Proof.
  split; [vm_compute; reflexivity|]. split; [reflexivity|]. split.
  - exact (C3_invalid_input_in_record unit reader_in_payload tt 71
             eq_refl eq_refl ltac:(lia) ltac:(lia)).
  - exact (C3_invalid_input_in_record unit reader_in_payload tt 58
             eq_refl eq_refl ltac:(lia) ltac:(lia)).
Defined.

(** C6, as stated, fails at every byte outside [0-9A-Fa-f:\r\n]: a space fed
    to a freshly begun reader is answered with InvalidInput, not Continue. *)
Lemma C6_noise_is_reported :
  let r : ihex_tReader unit := ihex_Begin blank_reader in
  state (lexer r) = IHEX_LEXER_STATE_WAIT_COLON /\
  32 <> 58 /\ 32 <> 10 /\ 32 <> 13 /\
  ihex_Put r 32 tt = (IHEX_MESSAGE_INVALID_INPUT_DATA, r, tt) /\
  fst (fst (ihex_Put r 32 tt)) <> IHEX_MESSAGE_CONTINUE.
Proof.
  cbv zeta. repeat split; try reflexivity; try lia. vm_compute. discriminate.
Qed.

(** C6 (amended): in AwaitMark every byte other than [':'] leaves the reader
    and the world exactly as they were; the call returns Continue when the
    byte is CR, LF or a hex digit and InvalidInput for any other byte. *)
Theorem C6_await_mark_skips :
  forall (World : Type) (r : ihex_tReader World) (w : World) (c : Z),
    state (lexer r) = IHEX_LEXER_STATE_WAIT_COLON ->
    c <> 58 ->
    ihex_Put r c w =
    ((if (c =? 10) || (c =? 13) || is_hex c
      then IHEX_MESSAGE_CONTINUE else IHEX_MESSAGE_INVALID_INPUT_DATA), r, w).
Proof.
  intros World r w c S N.
  unfold ihex_Put.
  destruct (Z.eqb_spec c 10); [reflexivity|].
  destruct (Z.eqb_spec c 13); [reflexivity|]. simpl.
  destruct (is_hex c) eqn:H.
  - destruct (is_hex_valid c H) as (_ & _ & M & V). rewrite V. simpl.
    unfold ihex_Lexer. now rewrite S, M.
  - destruct (ihex_IsValidData c) eqn:V; [|reflexivity].
    exfalso. apply N. now apply valid_not_hex.
Qed.

Lemma C6_await_mark_skips_witness :
  ihex_Put (ihex_Begin (@blank_reader unit)) 65 tt =
  (IHEX_MESSAGE_CONTINUE, ihex_Begin (@blank_reader unit), tt).
Proof.
  apply (C6_await_mark_skips unit (ihex_Begin blank_reader) tt 65);
    [reflexivity | lia].
Defined.

(** ** The checksum round trip (C4) *)

(** C4, as stated, fails in both halves.  A correct data record is not
    answered with Continue throughout when the callback returns another
    status.  And corruption can go unnoticed, every call returning
    Continue: with the mark of [":0000000000"] replaced by ['0'] the reader
    never leaves AwaitMark; with the last ['F'] of [":0100000000FF"]
    replaced by ['f'] the line spells the same bytes; with its length digit
    ['1'] replaced by ['0'] the line is a shorter record with a matching
    checksum, followed by two skipped digits; and with a digit of
    [":0000000000"] replaced by CR the record is one digit short when the
    line ends. *)
Lemma C4_corruption_unnoticed :
  let all_continue := Forall (fun m => m = IHEX_MESSAGE_CONTINUE) in
  let r : ihex_tReader unit := ihex_Begin blank_reader in
  let refusing : ihex_tDataCallback unit :=
    fun _ _ w => (IHEX_MESSAGE_VERIFICATION_ERROR, w) in
  58 :: encode_record 0 0 0 0 [] = bytes_of_string ":0000000000"%string /\
  nth 0 (58 :: encode_record 0 0 0 0 []) 0 <> 48 /\
  all_continue (fst (fst (feed r tt (replace_nth 0 48 (58 :: encode_record 0 0 0 0 []))))) /\
  58 :: encode_record 1 0 0 0 [0] = bytes_of_string ":0100000000FF"%string /\
  nth 12 (58 :: encode_record 1 0 0 0 [0]) 0 <> 102 /\
  all_continue (fst (fst (feed r tt (replace_nth 12 102 (58 :: encode_record 1 0 0 0 [0]))))) /\
  ~ all_continue (fst (fst (feed (ihex_Begin (ihex_Init blank_reader (Some refusing))) tt
                                 (58 :: encode_record 1 0 0 0 [0])))) /\
  nth 2 (58 :: encode_record 1 0 0 0 [0]) 0 <> 48 /\
  all_continue (fst (fst (feed r tt (replace_nth 2 48 (58 :: encode_record 1 0 0 0 [0]))))) /\
  nth 5 (58 :: encode_record 0 0 0 0 []) 0 <> 13 /\
  all_continue (fst (fst (feed r tt (replace_nth 5 13 (58 :: encode_record 0 0 0 0 []))))).
Proof.
  cbv zeta.
  assert (G : ~ Forall (fun m => m = IHEX_MESSAGE_CONTINUE)
                (fst (fst (feed (ihex_Begin
                                   (ihex_Init blank_reader
                                      (Some (fun _ _ (w : unit) =>
                                               (IHEX_MESSAGE_VERIFICATION_ERROR, w))))) tt
                                (58 :: encode_record 1 0 0 0 [0]))))).
  { vm_compute. intros H.
    repeat match goal with
           | H : Forall _ (_ :: _) |- _ =>
               let E := fresh in
               pose proof (Forall_inv H) as E; apply Forall_inv_tail in H;
               try discriminate E; clear E
           end. }
  repeat match goal with
         | |- _ /\ _ => split
         end;
    try exact G; try reflexivity; try (vm_compute; discriminate);
    vm_compute; repeat constructor.
Qed.

(** C4 (amended): a record encoded from its bytes (length, both address
    bytes, type other than 01, as many payload bytes as the length says)
    with the two's-complement checksum is answered with Continue at every
    call, except that the call completing a payload byte of a type-00
    record returns what the data callback returns for that byte; so every
    call returns Continue when the type is not 00, no callback is
    installed, or the callback always returns Continue.  Replacing one hex
    digit after the length field by a hex digit of another value makes the
    call that consumes the last checksum digit return ChecksumError, or End
    when the type has become 01.  Replacing any character of the line by a
    different byte that is no hex digit, no CR and no LF (the mark
    included) makes the call that feeds it return InvalidInput. *)
Theorem C4_checksum_round_trip :
  forall (World : Type) (r : ihex_tReader World) (w : World)
         (len ah al ty : Z) (payload : list Z),
    state (lexer r) = IHEX_LEXER_STATE_WAIT_COLON ->
    Forall (fun b => 0 <= b < 256) (len :: ah :: al :: ty :: payload) ->
    len = Z.of_nat (length payload) ->
    ty <> IHEX_TYPE_01_END_OF_FILE_RECORD ->
    let ds := encode_record len ah al ty payload in
    (exists ms,
        fst (fst (feed r w (58 :: ds))) =
          repeat IHEX_MESSAGE_CONTINUE 9 ++
          flat_map (fun m => [IHEX_MESSAGE_CONTINUE; m]) ms ++
          [IHEX_MESSAGE_CONTINUE; IHEX_MESSAGE_CONTINUE] /\
        (ty <> IHEX_TYPE_00_DATA_RECORD \/ funcData r = None ->
         ms = repeat IHEX_MESSAGE_CONTINUE (length payload)) /\
        (forall f, ty = IHEX_TYPE_00_DATA_RECORD -> funcData r = Some f ->
                   ms = fst (run_callback f
                               (data_calls (ext_offset (lexer r) + (256 * ah + al)) payload)
                               w))) /\
    (ty <> IHEX_TYPE_00_DATA_RECORD \/ funcData r = None \/
     (exists f, funcData r = Some f /\
                forall a d w', fst (f a d w') = IHEX_MESSAGE_CONTINUE) ->
     Forall (fun m => m = IHEX_MESSAGE_CONTINUE) (fst (fst (feed r w (58 :: ds))))) /\
    (forall i c,
        (2 <= i < length ds)%nat ->
        is_hex c = true ->
        ihex_CharToValue c <> ihex_CharToValue (nth i ds 0) ->
        last (fst (fst (feed r w (58 :: replace_nth i c ds)))) IHEX_MESSAGE_CONTINUE =
        if rec_type (replace_nth i c ds) =? IHEX_TYPE_01_END_OF_FILE_RECORD
        then IHEX_MESSAGE_END else IHEX_MESSAGE_CHECK_SUM_ERROR) /\
    (forall i c,
        (i < length (58%Z :: ds))%nat ->
        c <> 10 -> c <> 13 -> is_hex c = false ->
        c <> nth i (58%Z :: ds) 0 ->
        nth i (fst (fst (feed r w (replace_nth i c (58 :: ds))))) IHEX_MESSAGE_CONTINUE =
        IHEX_MESSAGE_INVALID_INPUT_DATA).
Proof.
  intros World r w len ah al ty payload Hst Hr Hlen Hty ds.
  destruct (encode_record_fields len ah al ty payload Hr Hlen)
    as (Hwf & _ & Eo & Et & Ep & _ & Hsum).
  fold ds in Hwf, Eo, Et, Ep, Hsum. clearbody ds.
  unfold IHEX_TYPE_01_END_OF_FILE_RECORD, IHEX_TYPE_00_DATA_RECORD in *.
  split; [|split; [|split]].
  - destruct (well_formed_fields ds Hwf) as (Rl & Ro & Rt & Rc & Rp & Lp).
    rewrite (record_run (funcData r) r w ds eq_refl Hst Hwf).
    unfold checksum_verdict. rewrite Et, Ep.
    destruct (Z.eqb_spec ty 1) as [E|_]; [contradiction|].
    fold (twos_complement (record_sum ds)). rewrite <- Hsum, Z.eqb_refl. cbn [negb].
    destruct (ext_after_type ty _ _) as [pos0 ext0] eqn:Eext.
    destruct (payload_run (funcData r) (rec_offset ds) ty payload pos0 ext0 0 w)
      as [[ms [pos ext]] w'] eqn:Erun.
    exists ms. cbn [fst]. split; [reflexivity|]. split.
    + intros Hq.
      assert (Hq' : (ty =? 0) = false \/ funcData r = None).
      { destruct Hq as [Hq|Hq]; [left; now apply Z.eqb_neq | now right]. }
      destruct (payload_run_quiet (funcData r) (rec_offset ds) ty payload pos0 ext0 0 w Hq')
        as [Hm _].
      rewrite Erun in Hm. exact Hm.
    + intros f E0 Hf. rewrite E0 in Eext, Erun. rewrite Hf in Erun.
      unfold ext_after_type in Eext.
      change (0 =? 2) with false in Eext. change (0 =? 4) with false in Eext.
      cbv iota in Eext. injection Eext as <- <-.
      assert (Hp : Forall (fun b => 0 <= b < 256) payload)
        by (do 4 apply Forall_inv_tail in Hr; exact Hr).
      assert (Hl : 0 <= len < 256) by (apply Forall_inv in Hr; exact Hr).
      rewrite (payload_run_data f (rec_offset ds) (ext_offset (lexer r) + rec_offset ds)
                                payload 0) in Erun
        by (try assumption; try reflexivity; change (Z.of_nat 0) with 0; lia).
      cbv zeta in Erun. injection Erun as <- _ _. rewrite Eo. reflexivity.
  - intros [H0 | [Hn | (f & Hf & Hc)]].
    + apply valid_record_continue;
        try assumption; try (symmetry; assumption); try (rewrite Et; assumption).
      left. now rewrite Et.
    + apply valid_record_continue;
        try assumption; try (symmetry; assumption); try (rewrite Et; assumption).
      now right.
    + destruct r as [lx cb]. cbn [funcData lexer] in *. subst cb.
      destruct (feed_agree f Hc (58 :: ds) lx w w) as (Hm & _ & _).
      rewrite <- Hm.
      apply valid_record_continue;
        try assumption; try (symmetry; assumption); try (rewrite Et; assumption).
      now right.
  - intros i c Hi Hc Hv. apply corrupted_digit_verdict; now try symmetry.
  - intros i c Hi H10 H13 Hx Hd.
    destruct (Z.eqb_spec c 58) as [->|N].
    + apply mark_in_record_reported; try assumption; try (symmetry; assumption).
      destruct i as [|i]; [exfalso; apply Hd; reflexivity|]. cbn [length] in Hi. lia.
    + apply rejected_byte_reported; try assumption.
      destruct (ihex_IsValidData c) eqn:V; [|reflexivity].
      exfalso. apply N. now apply valid_not_hex.
Qed.

Lemma C4_checksum_round_trip_witness :
  let ds := encode_record 3 0 48 0 [2; 51; 122] in
  58 :: ds = bytes_of_string ":0300300002337A1E"%string /\
  Forall (fun m => m = IHEX_MESSAGE_CONTINUE) (fst (fst (feed logging_reader [] (58 :: ds)))) /\
  last (fst (fst (feed logging_reader [] (58 :: replace_nth 9 52 ds))))
       IHEX_MESSAGE_CONTINUE = IHEX_MESSAGE_CHECK_SUM_ERROR /\
  nth 10 (fst (fst (feed logging_reader [] (replace_nth 10 71 (58 :: ds)))))
      IHEX_MESSAGE_CONTINUE = IHEX_MESSAGE_INVALID_INPUT_DATA /\
  nth 10 (fst (fst (feed logging_reader [] (replace_nth 10 58 (58 :: ds)))))
      IHEX_MESSAGE_CONTINUE = IHEX_MESSAGE_INVALID_INPUT_DATA.
Proof.
  cbv zeta.
  pose proof (C4_checksum_round_trip
                (list (Z * Z)) logging_reader [] 3 0 48 0 [2; 51; 122]
                eq_refl
                ltac:(repeat constructor; lia)
                eq_refl ltac:(discriminate)) as (_ & H1 & H2 & H3).
  split; [reflexivity|]. split; [|split; [|split]].
  - apply H1. right. right.
    exists (logging_callback (fun _ _ => IHEX_MESSAGE_CONTINUE)).
    split; reflexivity.
  - exact (H2 9%nat 52 ltac:(vm_compute; lia) eq_refl ltac:(vm_compute; discriminate)).
  - exact (H3 10%nat 71 ltac:(vm_compute; lia) ltac:(lia) ltac:(lia) eq_refl
              ltac:(vm_compute; discriminate)).
  - exact (H3 10%nat 58 ltac:(vm_compute; lia) ltac:(lia) ltac:(lia) eq_refl
              ltac:(vm_compute; discriminate)).
Defined.

(** ** Address extension (C7, C8, C9) *)

(** C7, as stated, fails on its own example: [":020000020010"] is a record
    without its checksum field.  The base is 0x100 once these characters are
    in, but the lexer then waits for two checksum digits: the [':'] of a
    data record fed next is taken for the first of them (InvalidInput), its
    first length digit for the second (ChecksumError), and the rest of the
    data record is skipped in AwaitMark.  The callback is never invoked. *)
Lemma C7_data_record_swallowed :
  ext_offset (lexer (snd (fst (feed logging_reader []
                                    (bytes_of_string ":020000020010"%string))))) = 256 /\
  snd (feed logging_reader [] (bytes_of_string ":020000020010:01000500AA50"%string)) = [] /\
  nth 13 (fst (fst (feed logging_reader []
                         (bytes_of_string ":020000020010:01000500AA50"%string))))
      IHEX_MESSAGE_CONTINUE = IHEX_MESSAGE_INVALID_INPUT_DATA /\
  nth 14 (fst (fst (feed logging_reader []
                         (bytes_of_string ":020000020010:01000500AA50"%string))))
      IHEX_MESSAGE_CONTINUE = IHEX_MESSAGE_CHECK_SUM_ERROR.
Proof. repeat split; vm_compute; reflexivity. Qed.

(** C7 (amended): a well-formed extended segment address record (type 02,
    two payload bytes spelling the 16-bit value [rec_word]) leaves the
    extension base at that value shifted left by 4 bits, i.e. times 16.  The
    base has this value as soon as the payload is in and keeps it over the
    two checksum digits, and the addresses of a data record that follows the
    completed record are that base plus the record's load offset plus the
    byte index. *)
Theorem C7_extended_segment_address :
  forall (World : Type) (r : ihex_tReader World) (w : World) (ds : list Z),
    state (lexer r) = IHEX_LEXER_STATE_WAIT_COLON ->
    well_formed_record ds ->
    rec_type ds = IHEX_TYPE_02_EXTENDED_SEGMENT_ADDRESS_RECORD ->
    rec_length ds = 2 ->
    ext_offset (lexer (snd (fst (feed r w (58 :: up_to_checksum ds))))) =
      Z.shiftl (rec_word ds) 4 /\
    ext_offset (lexer (snd (fst (feed r w (58 :: ds))))) = Z.shiftl (rec_word ds) 4 /\
    Z.shiftl (rec_word ds) 4 = 16 * rec_word ds /\
    (forall (f : ihex_tDataCallback World) (ds' : list Z),
        funcData r = Some f ->
        well_formed_record ds' ->
        rec_type ds' = IHEX_TYPE_00_DATA_RECORD ->
        snd (feed r w ((58 :: ds) ++ 58 :: ds')) =
        snd (run_callback f
               (data_calls (Z.shiftl (rec_word ds) 4 + rec_offset ds') (rec_payload ds')) w)).
Proof.
  intros World r w ds Hst Hwf Hty Hlen.
  assert (Hb : extension_base ds = Z.shiftl (rec_word ds) 4)
    by (unfold extension_base; now rewrite Hty).
  destruct (extension_record_run r w ds Hst Hwf (or_introl Hty) Hlen) as (H1 & H2 & _).
  rewrite Hb in H1, H2.
  repeat split; try assumption.
  - rewrite Z.shiftl_mul_pow2 by lia. change (2 ^ 4) with 16. lia.
  - intros f ds' Hf Hwf' Hty'. rewrite <- Hb.
    now apply data_after_extension; [| | |left| | |].
Qed.

Lemma C7_extended_segment_address_witness :
  ext_offset (lexer (snd (fst (feed logging_reader []
                                    (bytes_of_string ":020000020010"%string))))) = 256 /\
  snd (feed logging_reader [] (bytes_of_string ":020000020010EC:01000500AA50"%string)) =
  [(261, 170)].
Proof.
  pose proof (C7_extended_segment_address
                (list (Z * Z)) logging_reader []
                (bytes_of_string "020000020010EC"%string)
                eq_refl
                (well_formed_record_decide (bytes_of_string "020000020010EC"%string) eq_refl)
                eq_refl eq_refl) as (H1 & _ & _ & H4).
  split; [exact H1|].
  exact (H4 (logging_callback (fun _ _ => IHEX_MESSAGE_CONTINUE))
            (bytes_of_string "01000500AA50"%string) eq_refl
            (well_formed_record_decide (bytes_of_string "01000500AA50"%string) eq_refl)
            eq_refl).
Defined.

(** C8, as stated, fails on its own example: [":02000004FFFF"] is a record
    without its checksum field.  The base is 0xFFFF0000 once these
    characters are in, but a type-00 record fed next loses its [':'] and its
    first length digit to the checksum field (InvalidInput, then
    ChecksumError) and is skipped in AwaitMark.  The callback is never
    invoked. *)
Lemma C8_data_record_swallowed :
  ext_offset (lexer (snd (fst (feed logging_reader []
                                    (bytes_of_string ":02000004FFFF"%string))))) = 4294901760 /\
  snd (feed logging_reader [] (bytes_of_string ":02000004FFFF:01001000559A"%string)) = [] /\
  nth 13 (fst (fst (feed logging_reader []
                         (bytes_of_string ":02000004FFFF:01001000559A"%string))))
      IHEX_MESSAGE_CONTINUE = IHEX_MESSAGE_INVALID_INPUT_DATA /\
  nth 14 (fst (fst (feed logging_reader []
                         (bytes_of_string ":02000004FFFF:01001000559A"%string))))
      IHEX_MESSAGE_CONTINUE = IHEX_MESSAGE_CHECK_SUM_ERROR.
Proof. repeat split; vm_compute; reflexivity. Qed.

(** C8 (amended): a well-formed extended linear address record (type 04,
    two payload bytes spelling the 16-bit value [rec_word]) leaves the
    extension base at that value shifted left by 16 bits, i.e. in bits 16
    to 31.  The base has this value as soon as the payload is in and keeps
    it over the two checksum digits, and the addresses of a data record that
    follows the completed record are that base plus the record's load offset
    plus the byte index. *)
Theorem C8_extended_linear_address :
  forall (World : Type) (r : ihex_tReader World) (w : World) (ds : list Z),
    state (lexer r) = IHEX_LEXER_STATE_WAIT_COLON ->
    well_formed_record ds ->
    rec_type ds = IHEX_TYPE_04_EXTENDED_LINEAR_ADDRESS_RECORD ->
    rec_length ds = 2 ->
    ext_offset (lexer (snd (fst (feed r w (58 :: up_to_checksum ds))))) =
      Z.shiftl (rec_word ds) 16 /\
    ext_offset (lexer (snd (fst (feed r w (58 :: ds))))) = Z.shiftl (rec_word ds) 16 /\
    Z.shiftl (rec_word ds) 16 = 65536 * rec_word ds /\
    (forall (f : ihex_tDataCallback World) (ds' : list Z),
        funcData r = Some f ->
        well_formed_record ds' ->
        rec_type ds' = IHEX_TYPE_00_DATA_RECORD ->
        snd (feed r w ((58 :: ds) ++ 58 :: ds')) =
        snd (run_callback f
               (data_calls (Z.shiftl (rec_word ds) 16 + rec_offset ds') (rec_payload ds')) w)).
Proof.
  intros World r w ds Hst Hwf Hty Hlen.
  assert (Hb : extension_base ds = Z.shiftl (rec_word ds) 16)
    by (unfold extension_base; now rewrite Hty).
  destruct (extension_record_run r w ds Hst Hwf (or_intror Hty) Hlen) as (H1 & H2 & _).
  rewrite Hb in H1, H2.
  repeat split; try assumption.
  - rewrite Z.shiftl_mul_pow2 by lia. change (2 ^ 16) with 65536. lia.
  - intros f ds' Hf Hwf' Hty'. rewrite <- Hb.
    now apply data_after_extension; [| | |right| | |].
Qed.

Lemma C8_extended_linear_address_witness :
  ext_offset (lexer (snd (fst (feed logging_reader []
                                    (bytes_of_string ":02000004FFFF"%string))))) = 4294901760 /\
  snd (feed logging_reader [] (bytes_of_string ":02000004FFFFFC:01001000559A"%string)) =
  [(4294901776, 85)].
Proof.
  pose proof (C8_extended_linear_address
                (list (Z * Z)) logging_reader []
                (bytes_of_string "02000004FFFFFC"%string)
                eq_refl
                (well_formed_record_decide (bytes_of_string "02000004FFFFFC"%string) eq_refl)
                eq_refl eq_refl) as (H1 & _ & _ & H4).
  split; [exact H1|].
  exact (H4 (logging_callback (fun _ _ => IHEX_MESSAGE_CONTINUE))
            (bytes_of_string "01001000559A"%string) eq_refl
            (well_formed_record_decide (bytes_of_string "01001000559A"%string) eq_refl)
            eq_refl).
Defined.

(** C9: a checksum mismatch is reported and nothing is rolled back.  An
    extension record (type 02 or 04, two payload bytes) whose checksum field
    is wrong is answered with ChecksumError, yet the base it spells is in
    effect afterwards and addresses the data records that follow.  A data
    record whose checksum field is wrong is answered with ChecksumError
    after the callback has been invoked for every payload byte, and the
    world keeps the effects of those invocations. *)
Theorem C9_checksum_error_without_rollback :
  forall (World : Type) (r : ihex_tReader World) (w : World) (ds : list Z),
    state (lexer r) = IHEX_LEXER_STATE_WAIT_COLON ->
    well_formed_record ds ->
    twos_complement (record_sum ds) <> rec_checksum ds ->
    (rec_length ds = 2 ->
     rec_type ds = IHEX_TYPE_02_EXTENDED_SEGMENT_ADDRESS_RECORD \/
     rec_type ds = IHEX_TYPE_04_EXTENDED_LINEAR_ADDRESS_RECORD ->
     last (fst (fst (feed r w (58 :: ds)))) IHEX_MESSAGE_CONTINUE =
       IHEX_MESSAGE_CHECK_SUM_ERROR /\
     ext_offset (lexer (snd (fst (feed r w (58 :: ds))))) = extension_base ds /\
     (forall (f : ihex_tDataCallback World) (ds' : list Z),
         funcData r = Some f ->
         well_formed_record ds' ->
         rec_type ds' = IHEX_TYPE_00_DATA_RECORD ->
         snd (feed r w ((58 :: ds) ++ 58 :: ds')) =
         snd (run_callback f
                (data_calls (extension_base ds + rec_offset ds') (rec_payload ds')) w))) /\
    (forall f : ihex_tDataCallback World,
        funcData r = Some f ->
        rec_type ds = IHEX_TYPE_00_DATA_RECORD ->
        last (fst (fst (feed r w (58 :: ds)))) IHEX_MESSAGE_CONTINUE =
          IHEX_MESSAGE_CHECK_SUM_ERROR /\
        snd (feed r w (58 :: ds)) =
        snd (run_callback f
               (data_calls (ext_offset (lexer r) + rec_offset ds) (rec_payload ds)) w)).
Proof.
  intros World r w ds Hst Hwf Hsum.
  assert (V : rec_type ds <> 1 ->
              last (fst (fst (feed r w (58 :: ds)))) IHEX_MESSAGE_CONTINUE =
              IHEX_MESSAGE_CHECK_SUM_ERROR).
  { intros Hty. rewrite record_verdict by assumption. unfold checksum_verdict.
    destruct (Z.eqb_spec (rec_type ds) 1) as [E|_]; [contradiction|].
    fold (twos_complement (record_sum ds)).
    destruct (Z.eqb_spec (twos_complement (record_sum ds)) (rec_checksum ds));
      [contradiction | reflexivity]. }
  split.
  - intros Hlen Hty.
    destruct (extension_record_run r w ds Hst Hwf Hty Hlen) as (_ & H2 & _).
    repeat split.
    + apply V. unfold IHEX_TYPE_02_EXTENDED_SEGMENT_ADDRESS_RECORD,
        IHEX_TYPE_04_EXTENDED_LINEAR_ADDRESS_RECORD in Hty. lia.
    + exact H2.
    + intros f ds' Hf Hwf' Hty'. now apply data_after_extension.
  - intros f Hf Hty. split.
    + apply V. unfold IHEX_TYPE_00_DATA_RECORD in Hty. lia.
    + now apply data_record_run.
Qed.

Lemma C9_checksum_error_without_rollback_witness :
  last (fst (fst (feed logging_reader [] (bytes_of_string ":02000004FFFF00"%string))))
       IHEX_MESSAGE_CONTINUE = IHEX_MESSAGE_CHECK_SUM_ERROR /\
  snd (feed logging_reader [] (bytes_of_string ":02000004FFFF00:01001000559A"%string)) =
  [(4294901776, 85)].
Proof.
  pose proof (C9_checksum_error_without_rollback
                (list (Z * Z)) logging_reader []
                (bytes_of_string "02000004FFFF00"%string)
                eq_refl
                (well_formed_record_decide (bytes_of_string "02000004FFFF00"%string) eq_refl)
                ltac:(vm_compute; discriminate)) as (H & _).
  destruct (H eq_refl (or_intror eq_refl)) as (H1 & _ & H3).
  split; [exact H1|].
  exact (H3 (logging_callback (fun _ _ => IHEX_MESSAGE_CONTINUE))
            (bytes_of_string "01001000559A"%string) eq_refl
            (well_formed_record_decide (bytes_of_string "01001000559A"%string) eq_refl)
            eq_refl).
Defined.

(** ** The NULL callback (C10) *)

(** C10: with no callback installed, feeding any input (a well-formed
    type-00 record in particular) returns at every call the status it would
    return with a callback that always answers Continue, and leaves the
    lexer in the same state: running checksum, record byte index, state,
    every field.  No callback is invoked: the world is left as it was. *)
Theorem C10_null_callback :
  forall (World : Type) (f : ihex_tDataCallback World) (r : ihex_tReader World)
         (w : World) (input : list Z),
    (forall a d w', fst (f a d w') = IHEX_MESSAGE_CONTINUE) ->
    fst (fst (feed (ihex_Init r None) w input)) =
      fst (fst (feed (ihex_Init r (Some f)) w input)) /\
    lexer (snd (fst (feed (ihex_Init r None) w input))) =
      lexer (snd (fst (feed (ihex_Init r (Some f)) w input))) /\
    snd (feed (ihex_Init r None) w input) = w.
Proof.
  intros World f r w input Hf.
  exact (feed_agree f Hf input (lexer r) w w).
Qed.

Lemma C10_null_callback_witness :
  fst (fst (feed (ihex_Init logging_reader None) []
                 (bytes_of_string ":0300300002337A1E"%string))) =
    fst (fst (feed (ihex_Init logging_reader
                              (Some (logging_callback (fun _ _ => IHEX_MESSAGE_CONTINUE))))
                   [] (bytes_of_string ":0300300002337A1E"%string))) /\
  lexer (snd (fst (feed (ihex_Init logging_reader None) []
                        (bytes_of_string ":0300300002337A1E"%string)))) =
    lexer (snd (fst (feed (ihex_Init logging_reader
                                     (Some (logging_callback
                                              (fun _ _ => IHEX_MESSAGE_CONTINUE))))
                          [] (bytes_of_string ":0300300002337A1E"%string)))) /\
  snd (feed (ihex_Init logging_reader None) []
            (bytes_of_string ":0300300002337A1E"%string)) = [].
Proof.
  exact (C10_null_callback (list (Z * Z))
           (logging_callback (fun _ _ => IHEX_MESSAGE_CONTINUE)) logging_reader []
           (bytes_of_string ":0300300002337A1E"%string)
           (fun _ _ _ => eq_refl)).
Defined.

(** * Further properties of the reader *)

(** ** Line breaks and letter case *)

(** CR and LF, the two bytes [ihex_Put] drops before anything else. *)
Definition is_line_break (c : Z) : bool := (c =? 10) || (c =? 13).

(** The upper-case form of a lower-case hex letter; other bytes unchanged. *)
Definition to_upper (c : Z) : Z := if (97 <=? c) && (c <=? 102) then c - 32 else c.

Section Transparency.
Context {World : Type}.
Implicit Types (r : ihex_tReader World) (w : World).

Lemma Put_line_break r c w :
  is_line_break c = true -> ihex_Put r c w = (IHEX_MESSAGE_CONTINUE, r, w).
Proof.
  unfold is_line_break, ihex_Put. intros H.
  destruct (c =? 10); [reflexivity|]. simpl in H. now rewrite H.
Qed.

Lemma feed_without_line_breaks input : forall r w,
  snd (fst (feed r w input)) =
    snd (fst (feed r w (filter (fun c => negb (is_line_break c)) input))) /\
  snd (feed r w input) =
    snd (feed r w (filter (fun c => negb (is_line_break c)) input)) /\
  map snd (filter (fun cm => negb (is_line_break (fst cm)))
                  (combine input (fst (fst (feed r w input))))) =
    fst (fst (feed r w (filter (fun c => negb (is_line_break c)) input))) /\
  Forall (fun cm => is_line_break (fst cm) = true -> snd cm = IHEX_MESSAGE_CONTINUE)
         (combine input (fst (fst (feed r w input)))).
Proof.
  induction input as [|c input IH]; intros r w.
  - repeat split; constructor.
  - cbn [feed filter]. destruct (is_line_break c) eqn:E; cbn [negb].
    + rewrite Put_line_break by assumption.
      destruct (IH r w) as (I1 & I2 & I3 & I4).
      destruct (feed r w input) as [[ms r'] w'].
      cbn [fst snd combine filter negb] in *. rewrite E. cbn [negb].
      repeat split; try assumption. constructor; [reflexivity | assumption].
    + cbn [feed]. destruct (ihex_Put r c w) as [[m r1] w1].
      destruct (IH r1 w1) as (I1 & I2 & I3 & I4).
      destruct (feed r1 w1 input) as [[ms r'] w'].
      destruct (feed r1 w1 (filter _ input)) as [[ms2 r2] w2].
      cbn [fst snd combine filter negb map] in *. rewrite E. cbn [negb map snd].
      repeat split; try assumption; try congruence.
      constructor; [cbn [fst]; congruence | assumption].
Qed.

Lemma CharToValue_to_upper c : ihex_CharToValue (to_upper c) = ihex_CharToValue c.
Proof.
  unfold to_upper. destruct ((97 <=? c) && (c <=? 102)) eqn:E; [|reflexivity].
  apply andb_prop in E. destruct E as [A B]. apply Z.leb_le in A, B.
  unfold ihex_CharToValue.
  repeat match goal with
         | |- context [?a <=? ?b] => destruct (Z.leb_spec a b); try lia
         end; cbn [andb]; lia.
Qed.

Lemma Put_to_upper r c w : ihex_Put r (to_upper c) w = ihex_Put r c w.
Proof.
  pose proof (CharToValue_to_upper c) as V.
  unfold to_upper in *. destruct ((97 <=? c) && (c <=? 102)) eqn:E; [|reflexivity].
  apply andb_prop in E. destruct E as [A B]. apply Z.leb_le in A, B.
  unfold ihex_Put, ihex_IsValidData.
  repeat match goal with
         | |- context [?a =? ?b] => destruct (Z.eqb_spec a b); try lia
         | |- context [?a <=? ?b] => destruct (Z.leb_spec a b); try lia
         end; cbn [andb orb negb].
  unfold ihex_Lexer. rewrite V.
  destruct (state (lexer r)); try reflexivity.
  repeat match goal with
         | |- context [?a =? ?b] => destruct (Z.eqb_spec a b); try lia
         end. reflexivity.
Qed.

Lemma feed_to_upper input : forall r w, feed r w (map to_upper input) = feed r w input.
Proof.
  induction input as [|c input IH]; intros r w; [reflexivity|].
  cbn [map feed]. rewrite Put_to_upper.
  destruct (ihex_Put r c w) as [[m r1] w1]. now rewrite IH.
Qed.

End Transparency.

(** ** The lexer and the callback *)

Section CallbackIndependence.
Context {World : Type}.
Implicit Types (w : World) (cb : option (ihex_tDataCallback World)).

(** Two runs on the same lexer with whatever callbacks and worlds: the
    lexers stay the same, and each reader keeps its callback. *)
Definition same_lexer cb1 cb2
           (x y : ihex_tMessage * ihex_tReader World * World) : Prop :=
  lexer (snd (fst x)) = lexer (snd (fst y)) /\
  funcData (snd (fst x)) = cb1 /\ funcData (snd (fst y)) = cb2.

Lemma TokenStream_same_lexer lx cb1 cb2 tt td w1 w2 :
  same_lexer cb1 cb2 (ihex_LexerTokenStream (mkReader lx cb1) tt td w1)
                     (ihex_LexerTokenStream (mkReader lx cb2) tt td w2).
Proof.
  destruct lx as [st n pos ext rbo calc [mk len lo ty da tg]].
  unfold same_lexer, ihex_LexerTokenStream.
  destruct tt; rsimpl; cbn [fst snd lexer funcData]; try (repeat split; reflexivity).
  - destruct (ty =? _); [|destruct (ty =? _)]; rsimpl; repeat split; reflexivity.
  - destruct (ty =? IHEX_TYPE_00_DATA_RECORD).
    + destruct cb1 as [f1|]; [destruct (f1 _ _ w1) as [m1 w1']|];
        (destruct cb2 as [f2|]; [destruct (f2 _ _ w2) as [m2 w2']|]);
        rsimpl; repeat split; reflexivity.
    + destruct (ty =? _); [|destruct (ty =? _)]; rsimpl; repeat split; reflexivity.
Qed.

Ltac same_token cb1 cb2 :=
  match goal with
  | |- context [ihex_LexerTokenStream (mkReader ?lx cb1) ?tt ?td ?w1] =>
      match goal with
      | |- context [ihex_LexerTokenStream (mkReader lx cb2) tt td ?w2] =>
          let H := fresh "H" in
          pose proof (TokenStream_same_lexer lx cb1 cb2 tt td w1 w2) as H;
          destruct (ihex_LexerTokenStream (mkReader lx cb1) tt td w1) as [[m1 [lx1 c1]] w1'];
          destruct (ihex_LexerTokenStream (mkReader lx cb2) tt td w2) as [[m2 [lx2 c2]] w2'];
          unfold same_lexer in H; cbn [fst snd lexer funcData] in H;
          destruct H as (? & ? & ?); subst
      end
  end.

Lemma Lexer_same_lexer lx cb1 cb2 c w1 w2 :
  same_lexer cb1 cb2 (ihex_Lexer (mkReader lx cb1) c w1) (ihex_Lexer (mkReader lx cb2) c w2).
Proof.
  destruct lx as [st n pos ext rbo calc [mk len lo ty da tg]].
  unfold ihex_Lexer. rsimpl.
  destruct st.
  - destruct (negb (c =? 58)); [unfold same_lexer; repeat split; reflexivity|].
    same_token cb1 cb2. rsimpl. unfold same_lexer. repeat split; reflexivity.
  - destruct (ihex_CharToValue c <? 0); [unfold same_lexer; repeat split; reflexivity|].
    destruct (_ =? 0); [|unfold same_lexer; repeat split; reflexivity].
    same_token cb1 cb2. rsimpl. unfold same_lexer. repeat split; reflexivity.
  - destruct (ihex_CharToValue c <? 0); [unfold same_lexer; repeat split; reflexivity|].
    destruct (_ =? 0); [|unfold same_lexer; repeat split; reflexivity].
    same_token cb1 cb2. rsimpl. unfold same_lexer. repeat split; reflexivity.
  - destruct (ihex_CharToValue c <? 0); [unfold same_lexer; repeat split; reflexivity|].
    destruct (_ =? 0); [|unfold same_lexer; repeat split; reflexivity].
    same_token cb1 cb2. rsimpl. cbn [lexer record_data reclen].
    destruct (0 <? _); unfold same_lexer; repeat split; reflexivity.
  - destruct (ihex_CharToValue c <? 0); [unfold same_lexer; repeat split; reflexivity|].
    destruct (u8 (u16 (n - 1) mod 2) =? 0).
    + same_token cb1 cb2. rsimpl. cbn [lexer num_expected_characters].
      destruct (_ =? 0); unfold same_lexer; repeat split; reflexivity.
    + destruct (_ =? 0); unfold same_lexer; repeat split; reflexivity.
  - destruct (ihex_CharToValue c <? 0); [unfold same_lexer; repeat split; reflexivity|].
    destruct (_ =? 0); [|unfold same_lexer; repeat split; reflexivity].
    same_token cb1 cb2. rsimpl. unfold same_lexer. repeat split; reflexivity.
Qed.

Lemma Put_same_lexer lx cb1 cb2 c w1 w2 :
  same_lexer cb1 cb2 (ihex_Put (mkReader lx cb1) c w1) (ihex_Put (mkReader lx cb2) c w2).
Proof.
  unfold ihex_Put.
  destruct (c =? 10); [unfold same_lexer; repeat split; reflexivity|].
  destruct (c =? 13); [unfold same_lexer; repeat split; reflexivity|].
  destruct (negb (ihex_IsValidData c)); [unfold same_lexer; repeat split; reflexivity|].
  apply Lexer_same_lexer.
Qed.

Lemma feed_same_lexer input : forall lx cb1 cb2 (w1 w2 : World),
  lexer (snd (fst (feed (mkReader lx cb1) w1 input))) =
    lexer (snd (fst (feed (mkReader lx cb2) w2 input))) /\
  funcData (snd (fst (feed (mkReader lx cb1) w1 input))) = cb1.
Proof.
  induction input as [|c input IH]; intros lx cb1 cb2 w1 w2; [split; reflexivity|].
  cbn [feed].
  pose proof (Put_same_lexer lx cb1 cb2 c w1 w2) as H.
  destruct (ihex_Put (mkReader lx cb1) c w1) as [[m1 [lx1 c1]] w1'].
  destruct (ihex_Put (mkReader lx cb2) c w2) as [[m2 [lx2 c2]] w2'].
  unfold same_lexer in H. cbn [fst snd lexer funcData] in H.
  destruct H as (? & ? & ?). subst.
  specialize (IH lx2 cb1 cb2 w1' w2').
  destruct (feed (mkReader lx2 cb1) w1' input) as [[ms1 r1] w1''].
  destruct (feed (mkReader lx2 cb2) w2' input) as [[ms2 r2] w2''].
  exact IH.
Qed.

End CallbackIndependence.

(** ** Records that do not reach the callback *)

Section Quiet.
Context {World : Type}.
Implicit Types (r : ihex_tReader World) (w : World) (f : ihex_tDataCallback World).

(** A well-formed record of a type other than 00: the world is untouched
    and every call but the last returns Continue. *)
Lemma other_record_run r w ds :
  state (lexer r) = IHEX_LEXER_STATE_WAIT_COLON ->
  well_formed_record ds ->
  rec_type ds <> 0 ->
  snd (feed r w (58 :: ds)) = w /\
  fst (fst (feed r w (58 :: ds))) =
    repeat IHEX_MESSAGE_CONTINUE (length ds) ++
    [checksum_verdict (rec_type ds) (record_sum ds) (rec_checksum ds)].
Proof.
  intros Hst Hwf Hty.
  destruct (well_formed_fields ds Hwf) as (Rl & Ro & Rt & Rc & Rp & Lp).
  rewrite (record_run (funcData r) r w ds eq_refl Hst Hwf).
  destruct (ext_after_type _ _ _) as [pos0 ext0].
  assert (Hq : (rec_type ds =? 0) = false \/ funcData r = None)
    by (left; now apply Z.eqb_neq).
  destruct (payload_run_quiet (funcData r) (rec_offset ds) (rec_type ds) (rec_payload ds)
                              pos0 ext0 0 w Hq) as [Hm Hw].
  destruct (payload_run _ _ _ _ _ _ _ _) as [[ms [pos ext]] w'].
  cbn [fst snd] in *. subst ms w'. split; [reflexivity|].
  destruct Hwf as [_ Hlen]. rewrite Hlen, Lp.
  assert (P : forall n, per_byte (repeat IHEX_MESSAGE_CONTINUE n) =
                        repeat IHEX_MESSAGE_CONTINUE (2 * n)).
  { induction n as [|n IH]; [reflexivity|].
    replace (2 * S n)%nat with (S (S (2 * n))) by lia.
    cbn [repeat per_byte flat_map app]. fold (per_byte (repeat IHEX_MESSAGE_CONTINUE n)).
    now rewrite IH. }
  rewrite P.
  change [IHEX_MESSAGE_CONTINUE; checksum_verdict (rec_type ds) (record_sum ds) (rec_checksum ds)]
    with (repeat IHEX_MESSAGE_CONTINUE 1 ++
          [checksum_verdict (rec_type ds) (record_sum ds) (rec_checksum ds)]).
  rewrite !app_assoc, <- !repeat_app. do 2 f_equal. lia.
Qed.

(** Only the types 02 and 04 touch the extension accumulator. *)
Lemma record_keeps_extension r w ds :
  state (lexer r) = IHEX_LEXER_STATE_WAIT_COLON ->
  well_formed_record ds ->
  rec_type ds <> 2 -> rec_type ds <> 4 ->
  ext_offset (lexer (snd (fst (feed r w (58 :: ds))))) = ext_offset (lexer r) /\
  ext_offset_byte_pos (lexer (snd (fst (feed r w (58 :: ds))))) =
    ext_offset_byte_pos (lexer r).
Proof.
  intros Hst Hwf H2 H4.
  rewrite (record_run (funcData r) r w ds eq_refl Hst Hwf).
  apply Z.eqb_neq in H2, H4. unfold ext_after_type. rewrite H2, H4.
  pose proof (payload_run_ext (funcData r) (rec_offset ds) (rec_type ds) (rec_payload ds)
                              (ext_offset_byte_pos (lexer r)) (ext_offset (lexer r)) 0 w
                              H2 H4) as He.
  destruct (payload_run _ _ _ _ _ _ _ _) as [[ms [pos ext]] w'].
  cbn [fst snd] in He. inversion He. subst. split; reflexivity.
Qed.

End Quiet.

(** ** Streams of records *)

(** What one record does to the extension base, and the callback
    invocations it stands for: a data record is dispatched relative to the
    base, an extension record replaces the base, any other record does
    neither. *)
Definition record_effect (base : Z) (ds : list Z) : Z * list (Z * Z) :=
  if rec_type ds =? 0 then (base, data_calls (base + rec_offset ds) (rec_payload ds))
  else if (rec_type ds =? 2) || (rec_type ds =? 4) then (extension_base ds, [])
  else (base, []).

(** The callback invocations of a sequence of records, in order. *)
Fixpoint stream_calls (base : Z) (records : list (list Z)) : list (Z * Z) :=
  match records with
  | [] => []
  | ds :: rest =>
      snd (record_effect base ds) ++ stream_calls (fst (record_effect base ds)) rest
  end.

(** The text of a sequence of records: every record behind its mark. *)
Definition stream_text (records : list (list Z)) : list Z :=
  flat_map (fun ds => 58 :: ds) records.

(** A record of a stream: well-formed, and with two payload bytes when it is
    an extension record. *)
Definition stream_record (ds : list Z) : Prop :=
  well_formed_record ds /\ (rec_type ds = 2 \/ rec_type ds = 4 -> rec_length ds = 2).

Section Stream.
Context {World : Type}.
Implicit Types (r : ihex_tReader World) (w : World) (f : ihex_tDataCallback World).

Lemma run_callback_app f a : forall b w,
  snd (run_callback f (a ++ b) w) = snd (run_callback f b (snd (run_callback f a w))).
Proof.
  induction a as [|[x d] a IH]; intros b w; [reflexivity|].
  cbn [app run_callback]. destruct (f x d w) as [m w1].
  specialize (IH b w1).
  destruct (run_callback f (a ++ b) w1) as [ms w2].
  destruct (run_callback f a w1) as [ms' w3]. exact IH.
Qed.

Lemma record_step r f w ds :
  funcData r = Some f ->
  state (lexer r) = IHEX_LEXER_STATE_WAIT_COLON ->
  stream_record ds ->
  state (lexer (snd (fst (feed r w (58 :: ds))))) = IHEX_LEXER_STATE_WAIT_COLON /\
  funcData (snd (fst (feed r w (58 :: ds)))) = Some f /\
  ext_offset (lexer (snd (fst (feed r w (58 :: ds))))) =
    fst (record_effect (ext_offset (lexer r)) ds) /\
  snd (feed r w (58 :: ds)) =
    snd (run_callback f (snd (record_effect (ext_offset (lexer r)) ds)) w).
Proof.
  intros Hf Hst [Hwf Hext].
  destruct (record_leaves_await_mark r w ds Hst Hwf) as [S1 F1]. rewrite Hf in F1.
  split; [assumption|]. split; [assumption|].
  unfold record_effect.
  destruct (Z.eqb_spec (rec_type ds) 0) as [E0|N0].
  - destruct (data_record_run r f w ds Hf Hst Hwf E0) as [Hw He]. now split.
  - destruct (Z.eqb_spec (rec_type ds) 2) as [E2|N2];
      [|destruct (Z.eqb_spec (rec_type ds) 4) as [E4|N4]]; cbn [orb fst snd run_callback].
    + destruct (extension_record_run r w ds Hst Hwf (or_introl E2) (Hext (or_introl E2)))
        as (_ & He & Hw). now split.
    + destruct (extension_record_run r w ds Hst Hwf (or_intror E4) (Hext (or_intror E4)))
        as (_ & He & Hw). now split.
    + destruct (other_record_run r w ds Hst Hwf N0) as [Hw _].
      destruct (record_keeps_extension r w ds Hst Hwf N2 N4) as [He _]. now split.
Qed.

Lemma feed_stream records : forall r f w,
  funcData r = Some f ->
  state (lexer r) = IHEX_LEXER_STATE_WAIT_COLON ->
  Forall stream_record records ->
  snd (feed r w (stream_text records)) =
    snd (run_callback f (stream_calls (ext_offset (lexer r)) records) w) /\
  state (lexer (snd (fst (feed r w (stream_text records))))) = IHEX_LEXER_STATE_WAIT_COLON.
Proof.
  induction records as [|ds records IH]; intros r f w Hf Hst Hall; [now split|].
  cbn [stream_text flat_map stream_calls]. fold (stream_text records).
  change ((58 :: ds) ++ stream_text records) with ((58 :: ds) ++ stream_text records).
  rewrite feed_app.
  destruct (record_step r f w ds Hf Hst (Forall_inv Hall)) as (S1 & F1 & E1 & W1).
  destruct (feed r w (58 :: ds)) as [[ms1 r1] w1]. cbn [fst snd] in *.
  destruct (IH r1 f w1 F1 S1 (Forall_inv_tail Hall)) as [W2 S2].
  destruct (feed r1 w1 (stream_text records)) as [[ms2 r2] w2]. cbn [fst snd] in *.
  split; [|assumption].
  now rewrite run_callback_app, <- W1, <- E1.
Qed.

End Stream.

(** ** Digit insertion, bit by bit *)

Lemma testbit_15 j : Z.testbit 15 j = (0 <=? j) && (j <? 4).
Proof.
  change 15 with (Z.ones 4).
  destruct (Z.leb_spec 0 j) as [H|H]; cbn [andb].
  - destruct (Z.ltb_spec j 4).
    + apply Z.ones_spec_low. lia.
    + apply Z.ones_spec_high. lia.
  - apply Z.testbit_neg_r. assumption.
Qed.

Lemma u16_testbit x i : 0 <= i < 16 -> Z.testbit (u16 x) i = Z.testbit x i.
Proof.
  intros H. unfold u16. change 65536 with (2 ^ 16). apply Z.mod_pow2_bits_low. lia.
Qed.

(** X12: [ihex_InsertDigit] writes the low nibble of [nibble_data] into
    nibble [digit_pos] of the 16-bit value and leaves every other bit as it
    was. *)
Theorem InsertDigit_bits :
  forall src_val nibble_data digit_pos i,
    0 <= digit_pos <= 3 -> 0 <= i < 16 ->
    Z.testbit (ihex_InsertDigit src_val nibble_data digit_pos) i =
    if (digit_pos * 4 <=? i) && (i <? digit_pos * 4 + 4)
    then Z.testbit nibble_data (i - digit_pos * 4)
    else Z.testbit src_val i.
Proof.
  intros x v p i Hp Hi. unfold ihex_InsertDigit.
  rewrite u16_testbit, Z.lor_spec, u16_testbit, !Z.land_spec, Z.lnot_spec, !u16_testbit,
    !Z.shiftl_spec, Z.land_spec, !testbit_15 by lia.
  destruct (Z.leb_spec (p * 4) i); destruct (Z.ltb_spec i (p * 4 + 4));
    destruct (Z.leb_spec 0 (i - p * 4)); destruct (Z.ltb_spec (i - p * 4) 4);
    try lia; cbn [andb negb orb];
    rewrite ?andb_true_r, ?andb_false_r, ?orb_false_r, ?orb_false_l; reflexivity.
Qed.

Lemma InsertDigit_bits_witness :
  Z.testbit (ihex_InsertDigit 4660 10 2) 9 = Z.testbit 10 1 /\
  Z.testbit (ihex_InsertDigit 4660 10 2) 12 = Z.testbit 4660 12.
Proof.
  split.
  - exact (InsertDigit_bits 4660 10 2 9 ltac:(lia) ltac:(lia)).
  - exact (InsertDigit_bits 4660 10 2 12 ltac:(lia) ltac:(lia)).
Defined.

(** ** Properties of the entry point *)

(** X1: CR and LF are transparent.  Feeding an input gives the same reader
    and the same world as feeding it with every CR and LF removed; the calls
    for the other bytes return the same statuses, and the calls for CR and
    LF return Continue. *)
Theorem line_breaks_are_transparent :
  forall (World : Type) (r : ihex_tReader World) (w : World) (input : list Z),
    let stripped := filter (fun c => negb (is_line_break c)) input in
    snd (fst (feed r w input)) = snd (fst (feed r w stripped)) /\
    snd (feed r w input) = snd (feed r w stripped) /\
    map snd (filter (fun cm => negb (is_line_break (fst cm)))
                    (combine input (fst (fst (feed r w input))))) =
      fst (fst (feed r w stripped)) /\
    Forall (fun cm => is_line_break (fst cm) = true -> snd cm = IHEX_MESSAGE_CONTINUE)
           (combine input (fst (fst (feed r w input)))).
Proof. intros World r w input. apply feed_without_line_breaks. Qed.

(** X2: hex letters are case-insensitive.  Turning the lower-case letters
    a-f of an input into upper case changes nothing: same statuses, same
    reader, same world. *)
Theorem hex_letters_are_case_insensitive :
  forall (World : Type) (r : ihex_tReader World) (w : World) (input : list Z),
    feed r w (map to_upper input) = feed r w input.
Proof. intros World r w input. apply feed_to_upper. Qed.

(** X3: the lexer does not depend on the callback.  Whatever callbacks are
    installed (none included), whatever they return and whatever the worlds
    are, the same input leaves the same lexer state; and feeding never
    changes the installed callback. *)
Theorem lexer_ignores_the_callback :
  forall (World : Type) (r : ihex_tReader World)
         (cb1 cb2 : option (ihex_tDataCallback World)) (w1 w2 : World) (input : list Z),
    lexer (snd (fst (feed (ihex_Init r cb1) w1 input))) =
      lexer (snd (fst (feed (ihex_Init r cb2) w2 input))) /\
    funcData (snd (fst (feed (ihex_Init r cb1) w1 input))) = cb1.
Proof.
  intros World r cb1 cb2 w1 w2 input.
  exact (feed_same_lexer input (lexer r) cb1 cb2 w1 w2).
Qed.

(** X4: the statuses of a data record.  The nine calls for the mark and the
    header return Continue; of the two calls for a payload byte the first
    returns Continue and the second returns what the callback returned for
    that byte, unchanged; the two calls for the checksum return Continue and
    the verdict, which does not depend on what the callback returned. *)
Theorem data_record_statuses :
  forall (World : Type) (r : ihex_tReader World) (f : ihex_tDataCallback World)
         (w : World) (ds : list Z),
    funcData r = Some f ->
    state (lexer r) = IHEX_LEXER_STATE_WAIT_COLON ->
    well_formed_record ds ->
    rec_type ds = IHEX_TYPE_00_DATA_RECORD ->
    fst (fst (feed r w (58 :: ds))) =
    repeat IHEX_MESSAGE_CONTINUE 9 ++
    flat_map (fun m => [IHEX_MESSAGE_CONTINUE; m])
             (fst (run_callback f
                     (data_calls (ext_offset (lexer r) + rec_offset ds) (rec_payload ds)) w)) ++
    [IHEX_MESSAGE_CONTINUE;
     if twos_complement (record_sum ds) =? rec_checksum ds
     then IHEX_MESSAGE_CONTINUE else IHEX_MESSAGE_CHECK_SUM_ERROR].
Proof.
  intros World r f w ds Hf Hst Hwf Hty.
  destruct (well_formed_fields ds Hwf) as (Rl & Ro & Rt & Rc & Rp & Lp).
  rewrite (record_run (Some f) r w ds Hf Hst Hwf).
  rewrite Hty. unfold IHEX_TYPE_00_DATA_RECORD, ext_after_type.
  change (0 =? 2) with false. change (0 =? 4) with false. cbv iota.
  rewrite (payload_run_data f (rec_offset ds) (ext_offset (lexer r) + rec_offset ds)
                            (rec_payload ds) 0)
    by (try assumption; try reflexivity; change (Z.of_nat 0) with 0; lia).
  cbv zeta. cbn [fst]. unfold checksum_verdict, per_byte, twos_complement, data_calls.
  change (0 =? 1) with false. cbv iota.
  destruct (_ =? rec_checksum ds); reflexivity.
Qed.

Lemma data_record_statuses_witness :
  fst (fst (feed (ihex_Begin (ihex_Init blank_reader
                                (Some (fun _ _ (w : unit) =>
                                         (IHEX_MESSAGE_VERIFICATION_ERROR, w)))))
                 tt (bytes_of_string ":0100000055AA"%string))) =
  repeat IHEX_MESSAGE_CONTINUE 10 ++
  [IHEX_MESSAGE_VERIFICATION_ERROR; IHEX_MESSAGE_CONTINUE; IHEX_MESSAGE_CONTINUE].
Proof.
  exact (data_record_statuses unit
           (ihex_Begin (ihex_Init blank_reader
                          (Some (fun _ _ (w : unit) => (IHEX_MESSAGE_VERIFICATION_ERROR, w)))))
           (fun _ _ w => (IHEX_MESSAGE_VERIFICATION_ERROR, w)) tt
           (bytes_of_string "0100000055AA"%string)
           eq_refl eq_refl
           (well_formed_record_decide (bytes_of_string "0100000055AA"%string) eq_refl)
           eq_refl).
Defined.

(** X5: records of any type other than 00 never reach the callback.  The
    world is untouched and every call before the last returns Continue; the
    last returns the verdict.  Unless the type is 02 or 04 the extension
    base and its byte position are untouched as well (types 01, 03, 05 and
    unknown types only go through the checksum). *)
Theorem other_records_are_quiet :
  forall (World : Type) (r : ihex_tReader World) (w : World) (ds : list Z),
    state (lexer r) = IHEX_LEXER_STATE_WAIT_COLON ->
    well_formed_record ds ->
    rec_type ds <> IHEX_TYPE_00_DATA_RECORD ->
    snd (feed r w (58 :: ds)) = w /\
    fst (fst (feed r w (58 :: ds))) =
      repeat IHEX_MESSAGE_CONTINUE (length ds) ++
      [if rec_type ds =? IHEX_TYPE_01_END_OF_FILE_RECORD then IHEX_MESSAGE_END
       else if twos_complement (record_sum ds) =? rec_checksum ds
            then IHEX_MESSAGE_CONTINUE else IHEX_MESSAGE_CHECK_SUM_ERROR] /\
    (rec_type ds <> IHEX_TYPE_02_EXTENDED_SEGMENT_ADDRESS_RECORD ->
     rec_type ds <> IHEX_TYPE_04_EXTENDED_LINEAR_ADDRESS_RECORD ->
     ext_offset (lexer (snd (fst (feed r w (58 :: ds))))) = ext_offset (lexer r) /\
     ext_offset_byte_pos (lexer (snd (fst (feed r w (58 :: ds))))) =
       ext_offset_byte_pos (lexer r)).
Proof.
  intros World r w ds Hst Hwf Hty.
  destruct (other_record_run r w ds Hst Hwf Hty) as [Hw Hm].
  split; [assumption|]. split.
  - rewrite Hm. unfold checksum_verdict, twos_complement, IHEX_TYPE_01_END_OF_FILE_RECORD.
    destruct (rec_type ds =? 1); [reflexivity|].
    destruct (_ =? rec_checksum ds); reflexivity.
  - intros H2 H4. now apply record_keeps_extension.
Qed.

Lemma other_records_are_quiet_witness :
  snd (feed logging_reader [] (bytes_of_string ":0400000512345678E3"%string)) = [] /\
  fst (fst (feed logging_reader [] (bytes_of_string ":0400000512345678E3"%string))) =
    repeat IHEX_MESSAGE_CONTINUE 19.
Proof.
  pose proof (other_records_are_quiet (list (Z * Z)) logging_reader []
                (bytes_of_string "0400000512345678E3"%string) eq_refl
                (well_formed_record_decide (bytes_of_string "0400000512345678E3"%string)
                                           eq_refl)
                ltac:(vm_compute; discriminate)) as (H1 & H2 & _).
  split; [exact H1 | exact H2].
Defined.

(** X6: decoding a whole stream.  For an input that, CR and LF aside, is a
    sequence of well-formed records (extension records with two payload
    bytes), the callback is invoked on exactly [stream_calls]: the payload
    bytes of the data records in order, each at the base set by the last
    extension record before it (the reader's initial base if there is
    none), plus load offset, plus byte index.  End-of-file records and
    records of other types, wrong checksums included, change nothing, and
    the reader ends in AwaitMark. *)
Theorem stream_is_decoded_record_by_record :
  forall (World : Type) (r : ihex_tReader World) (f : ihex_tDataCallback World)
         (w : World) (input : list Z) (records : list (list Z)),
    funcData r = Some f ->
    state (lexer r) = IHEX_LEXER_STATE_WAIT_COLON ->
    Forall stream_record records ->
    filter (fun c => negb (is_line_break c)) input = stream_text records ->
    snd (feed r w input) =
      snd (run_callback f (stream_calls (ext_offset (lexer r)) records) w) /\
    state (lexer (snd (fst (feed r w input)))) = IHEX_LEXER_STATE_WAIT_COLON.
Proof.
  intros World r f w input records Hf Hst Hall Hin.
  destruct (feed_without_line_breaks input r w) as (H1 & H2 & _).
  rewrite H1, H2, Hin. now apply feed_stream.
Qed.

(** The check of [stream_record], for concrete records. *)
Definition stream_recordb (ds : list Z) : bool :=
  well_formed_recordb ds &&
  (if (rec_type ds =? 2) || (rec_type ds =? 4) then rec_length ds =? 2 else true).

Lemma stream_record_decide records :
  forallb stream_recordb records = true -> Forall stream_record records.
Proof.
  intros H. apply Forall_forall. intros ds Hin.
  rewrite forallb_forall in H. specialize (H ds Hin).
  unfold stream_recordb in H. apply andb_prop in H. destruct H as [H1 H2].
  split; [now apply well_formed_record_decide|].
  intros Ht.
  assert (E : (rec_type ds =? 2) || (rec_type ds =? 4) = true).
  { destruct Ht as [-> | ->]; reflexivity. }
  rewrite E in H2. now apply Z.eqb_eq.
Qed.

Lemma stream_is_decoded_record_by_record_witness :
  snd (feed logging_reader []
            (bytes_of_string
               (":020000040800F2" ++ String (ascii_of_nat 13) (String (ascii_of_nat 10)
                ":0200100055AAEF" ++ String (ascii_of_nat 10)
                ":00000001FF"))%string)) =
  [(134217744, 85); (134217745, 170)].
Proof.
  exact (proj1 (stream_is_decoded_record_by_record
                  (list (Z * Z)) logging_reader
                  (logging_callback (fun _ _ => IHEX_MESSAGE_CONTINUE)) []
                  (bytes_of_string
                     (":020000040800F2" ++ String (ascii_of_nat 13) (String (ascii_of_nat 10)
                      ":0200100055AAEF" ++ String (ascii_of_nat 10)
                      ":00000001FF"))%string)
                  [bytes_of_string "020000040800F2"%string;
                   bytes_of_string "0200100055AAEF"%string;
                   bytes_of_string "00000001FF"%string]
                  eq_refl eq_refl
                  (stream_record_decide
                     [bytes_of_string "020000040800F2"%string;
                      bytes_of_string "0200100055AAEF"%string;
                      bytes_of_string "00000001FF"%string] eq_refl)
                  eq_refl)).
Defined.

(** X7: a record other than end-of-file is accepted exactly when all its
    bytes, the checksum byte included, add up to zero modulo 256; otherwise
    the last call returns ChecksumError. *)
Theorem record_accepted_iff_bytes_sum_to_zero :
  forall (World : Type) (r : ihex_tReader World) (w : World) (ds : list Z),
    state (lexer r) = IHEX_LEXER_STATE_WAIT_COLON ->
    well_formed_record ds ->
    rec_type ds <> IHEX_TYPE_01_END_OF_FILE_RECORD ->
    last (fst (fst (feed r w (58 :: ds)))) IHEX_MESSAGE_CONTINUE =
    if sum_bytes (bytes_of_digits ds) mod 256 =? 0
    then IHEX_MESSAGE_CONTINUE else IHEX_MESSAGE_CHECK_SUM_ERROR.
Proof.
  intros World r w ds Hst Hwf Hty.
  rewrite record_verdict by assumption. unfold checksum_verdict.
  destruct (Z.eqb_spec (rec_type ds) 1) as [E|_]; [contradiction|].
  fold (twos_complement (record_sum ds)).
  pose proof (checksum_valid_iff ds Hwf) as Hiff. unfold u8 in Hiff.
  destruct (Z.eqb_spec (twos_complement (record_sum ds)) (rec_checksum ds)) as [E|N];
    destruct (Z.eqb_spec (sum_bytes (bytes_of_digits ds) mod 256) 0) as [Z0|Z1];
    cbn [negb]; try reflexivity; tauto.
Qed.

Lemma record_accepted_iff_bytes_sum_to_zero_witness :
  last (fst (fst (feed logging_reader [] (bytes_of_string ":0300300002337A1E"%string))))
       IHEX_MESSAGE_CONTINUE = IHEX_MESSAGE_CONTINUE.
Proof.
  exact (record_accepted_iff_bytes_sum_to_zero
           (list (Z * Z)) logging_reader [] (bytes_of_string "0300300002337A1E"%string)
           eq_refl
           (well_formed_record_decide (bytes_of_string "0300300002337A1E"%string) eq_refl)
           ltac:(vm_compute; discriminate)).
Defined.

(** X8: between records nothing but the mark has an effect.  An input
    without [':'] fed to a reader in AwaitMark leaves reader and world
    exactly as they were, however long it is; each call returns Continue
    for CR, LF and hex digits and InvalidInput for any other byte. *)
Theorem await_mark_skips_everything_but_the_mark :
  forall (World : Type) (r : ihex_tReader World) (w : World) (input : list Z),
    state (lexer r) = IHEX_LEXER_STATE_WAIT_COLON ->
    ~ In 58 input ->
    feed r w input =
    (map (fun c => if is_line_break c || is_hex c
                   then IHEX_MESSAGE_CONTINUE else IHEX_MESSAGE_INVALID_INPUT_DATA) input,
     r, w).
Proof.
  intros World r w input Hst. induction input as [|c input IH]; intros Hno; [reflexivity|].
  cbn [feed map].
  assert (Hc : c <> 58) by (intros ->; apply Hno; now left).
  assert (Hp : ihex_Put r c w =
               ((if is_line_break c || is_hex c
                 then IHEX_MESSAGE_CONTINUE else IHEX_MESSAGE_INVALID_INPUT_DATA), r, w)).
  { unfold ihex_Put, is_line_break.
    destruct (Z.eqb_spec c 10); [reflexivity|].
    destruct (Z.eqb_spec c 13); [reflexivity|]. cbn [orb].
    destruct (is_hex c) eqn:H.
    - destruct (is_hex_valid c H) as (_ & _ & M & V). rewrite V. cbn [negb].
      unfold ihex_Lexer. now rewrite Hst, M.
    - destruct (ihex_IsValidData c) eqn:V; [|reflexivity].
      exfalso. apply Hc. now apply valid_not_hex. }
  rewrite Hp, IH; [reflexivity|]. intros Hin. apply Hno. now right.
Qed.

Lemma await_mark_skips_everything_but_the_mark_witness :
  feed logging_reader [] (bytes_of_string "noise 0A"%string) =
  ([IHEX_MESSAGE_INVALID_INPUT_DATA; IHEX_MESSAGE_INVALID_INPUT_DATA;
    IHEX_MESSAGE_INVALID_INPUT_DATA; IHEX_MESSAGE_INVALID_INPUT_DATA;
    IHEX_MESSAGE_CONTINUE; IHEX_MESSAGE_INVALID_INPUT_DATA;
    IHEX_MESSAGE_CONTINUE; IHEX_MESSAGE_CONTINUE], logging_reader, []).
Proof.
  exact (await_mark_skips_everything_but_the_mark
           (list (Z * Z)) logging_reader [] (bytes_of_string "noise 0A"%string) eq_refl
           ltac:(vm_compute; intuition discriminate)).
Defined.

(** X9: the bytes [ihex_Put] passes on to the lexer are the mark and the
    hex digits, and nothing else: [ihex_IsValidData] holds exactly for [':']
    and for the bytes [ihex_CharToValue] gives a value to; that value is a
    nibble, and it is the same for a letter in either case. *)
Theorem valid_data_is_mark_or_digit :
  forall c,
    ihex_IsValidData c = (c =? 58) || (0 <=? ihex_CharToValue c) /\
    -1 <= ihex_CharToValue c < 16 /\
    (0 <= ihex_CharToValue c <->
     48 <= c <= 57 \/ 65 <= c <= 70 \/ 97 <= c <= 102) /\
    ihex_CharToValue (to_upper c) = ihex_CharToValue c.
Proof.
  intros c. split; [|split; [apply CharToValue_range | split; [|apply CharToValue_to_upper]]].
  - fold (is_hex c). destruct (is_hex c) eqn:H.
    + destruct (is_hex_valid c H) as (_ & _ & M & V). now rewrite V, M.
    + rewrite orb_false_r. destruct (Z.eqb_spec c 58) as [->|N]; [reflexivity|].
      destruct (ihex_IsValidData c) eqn:V; [|reflexivity].
      exfalso. apply N. now apply valid_not_hex.
  - unfold ihex_CharToValue.
    repeat match goal with
           | |- context [?a <=? ?b] => destruct (Z.leb_spec a b)
           end; cbn [andb]; lia.
Qed.

(** ** What a record forgets *)

Section Forgetting.
Context {World : Type}.
Implicit Types (r : ihex_tReader World) (w : World) (cb : option (ihex_tDataCallback World)).

(** For a type that is not dispatched to the callback, the extension
    accumulator evolves the same way whatever the callback and the world. *)
Lemma payload_run_accumulator cb1 cb2 lo1 lo2 ty : forall p pos ext rbo1 rbo2 w1 w2,
  (ty =? 0) = false ->
  snd (fst (payload_run cb1 lo1 ty p pos ext rbo1 w1)) =
  snd (fst (payload_run cb2 lo2 ty p pos ext rbo2 w2)).
Proof.
  induction p as [|b p IH]; intros pos ext rbo1 rbo2 w1 w2 H0; [reflexivity|].
  cbn [payload_run]. unfold data_token. rewrite H0.
  destruct (ty =? 2); [|destruct (ty =? 4)];
    match goal with
    | |- context [payload_run cb1 lo1 ty p ?pos' ?ext' ?a w1] =>
        specialize (IH pos' ext' a (u16 (rbo2 + 1)) w1 w2 H0)
    end;
    destruct (payload_run cb1 _ _ _ _ _ _ _) as [[ms1 pe1] w1'];
    destruct (payload_run cb2 _ _ _ _ _ _ _) as [[ms2 pe2] w2']; exact IH.
Qed.

(** For a type other than 02 and 04 the statuses and the world do not
    depend on the byte position of the extension accumulator. *)
Lemma payload_run_position cb lo ty : forall p pos1 pos2 ext rbo w,
  (ty =? 2) = false -> (ty =? 4) = false ->
  fst (fst (payload_run cb lo ty p pos1 ext rbo w)) =
    fst (fst (payload_run cb lo ty p pos2 ext rbo w)) /\
  snd (payload_run cb lo ty p pos1 ext rbo w) = snd (payload_run cb lo ty p pos2 ext rbo w).
Proof.
  induction p as [|b p IH]; intros pos1 pos2 ext rbo w H2 H4; [split; reflexivity|].
  cbn [payload_run]. unfold data_token. rewrite H2, H4.
  destruct (ty =? 0).
  - destruct cb as [f|].
    + destruct (f _ _ w) as [m w1].
      specialize (IH pos1 pos2 ext (u16 (rbo + 1)) w1 H2 H4).
      destruct (payload_run (Some f) lo ty p pos1 _ _ _) as [[ms1 pe1] w1'].
      destruct (payload_run (Some f) lo ty p pos2 _ _ _) as [[ms2 pe2] w2'].
      cbn [fst snd] in *. destruct IH as [-> ->]. split; reflexivity.
    + specialize (IH pos1 pos2 ext (u16 (rbo + 1)) w H2 H4).
      destruct (payload_run None lo ty p pos1 _ _ _) as [[ms1 pe1] w1'].
      destruct (payload_run None lo ty p pos2 _ _ _) as [[ms2 pe2] w2'].
      cbn [fst snd] in *. destruct IH as [-> ->]. split; reflexivity.
  - specialize (IH pos1 pos2 ext (u16 (rbo + 1)) w H2 H4).
    destruct (payload_run cb lo ty p pos1 _ _ _) as [[ms1 pe1] w1'].
    destruct (payload_run cb lo ty p pos2 _ _ _) as [[ms2 pe2] w2'].
    cbn [fst snd] in *. destruct IH as [-> ->]. split; reflexivity.
Qed.

End Forgetting.

(** X10: an extension record replaces the base, it does not add to it.
    After a well-formed record of type 02 or 04 the extension base is the
    same whatever the reader's base, callback and world were before; with
    no payload at all it is zero. *)
Theorem extension_record_forgets_the_old_base :
  forall (World : Type) (r1 r2 : ihex_tReader World) (w1 w2 : World) (ds : list Z),
    state (lexer r1) = IHEX_LEXER_STATE_WAIT_COLON ->
    state (lexer r2) = IHEX_LEXER_STATE_WAIT_COLON ->
    well_formed_record ds ->
    rec_type ds = IHEX_TYPE_02_EXTENDED_SEGMENT_ADDRESS_RECORD \/
    rec_type ds = IHEX_TYPE_04_EXTENDED_LINEAR_ADDRESS_RECORD ->
    ext_offset (lexer (snd (fst (feed r1 w1 (58 :: ds))))) =
      ext_offset (lexer (snd (fst (feed r2 w2 (58 :: ds))))) /\
    (rec_length ds = 0 -> ext_offset (lexer (snd (fst (feed r1 w1 (58 :: ds))))) = 0).
Proof.
  intros World r1 r2 w1 w2 ds Hs1 Hs2 Hwf Hty.
  destruct (well_formed_fields ds Hwf) as (Rl & Ro & Rt & Rc & Rp & Lp).
  rewrite (record_run (funcData r1) r1 w1 ds eq_refl Hs1 Hwf).
  rewrite (record_run (funcData r2) r2 w2 ds eq_refl Hs2 Hwf).
  unfold IHEX_TYPE_02_EXTENDED_SEGMENT_ADDRESS_RECORD,
    IHEX_TYPE_04_EXTENDED_LINEAR_ADDRESS_RECORD in Hty.
  assert (H0 : (rec_type ds =? 0) = false) by (apply Z.eqb_neq; lia).
  assert (E : exists p0, forall pos ext, ext_after_type (rec_type ds) pos ext = (p0, 0)).
  { unfold ext_after_type. destruct Hty as [-> | ->]; eexists; intros; reflexivity. }
  destruct E as [p1 E]. rewrite !E.
  pose proof (payload_run_accumulator (funcData r1) (funcData r2) (rec_offset ds)
                (rec_offset ds) (rec_type ds) (rec_payload ds) p1 0 0 0 w1 w2 H0) as A.
  split.
  - destruct (payload_run (funcData r1) _ _ _ _ _ _ _) as [[ms1 [q1 e1]] w1'].
    destruct (payload_run (funcData r2) _ _ _ _ _ _ _) as [[ms2 [q2 e2]] w2'].
    cbn [fst snd] in A. inversion A. reflexivity.
  - intros L0. rewrite L0 in Lp. destruct (rec_payload ds); [|discriminate]. reflexivity.
Qed.

Lemma extension_record_forgets_the_old_base_witness :
  ext_offset (lexer (snd (fst (feed (upd_lexer (set_ext_offset 4096) logging_reader) []
                                    (bytes_of_string ":020000040800F2"%string))))) =
  ext_offset (lexer (snd (fst (feed logging_reader []
                                    (bytes_of_string ":020000040800F2"%string))))).
Proof.
  exact (proj1 (extension_record_forgets_the_old_base
                  (list (Z * Z)) (upd_lexer (set_ext_offset 4096) logging_reader)
                  logging_reader [] []
                  (bytes_of_string "020000040800F2"%string) eq_refl eq_refl
                  (well_formed_record_decide (bytes_of_string "020000040800F2"%string)
                                             eq_refl)
                  (or_intror eq_refl))).
Defined.

(** X11: [ihex_Begin] makes the next record independent of the past.
    Whatever two readers with the same callback held before (a record
    abandoned half way, an extension base, a checksum), after [ihex_Begin]
    a well-formed record gives the same statuses, the same world and the
    same lexer, up to the byte position of the extension accumulator, which
    [ihex_Begin] does not reset and only extension records set. *)
Theorem begin_forgets_the_past :
  forall (World : Type) (r1 r2 : ihex_tReader World) (w : World) (ds : list Z),
    funcData r1 = funcData r2 ->
    well_formed_record ds ->
    fst (fst (feed (ihex_Begin r1) w (58 :: ds))) =
      fst (fst (feed (ihex_Begin r2) w (58 :: ds))) /\
    snd (feed (ihex_Begin r1) w (58 :: ds)) = snd (feed (ihex_Begin r2) w (58 :: ds)) /\
    set_ext_offset_byte_pos 0 (lexer (snd (fst (feed (ihex_Begin r1) w (58 :: ds))))) =
      set_ext_offset_byte_pos 0 (lexer (snd (fst (feed (ihex_Begin r2) w (58 :: ds))))) /\
    (rec_type ds = IHEX_TYPE_02_EXTENDED_SEGMENT_ADDRESS_RECORD \/
     rec_type ds = IHEX_TYPE_04_EXTENDED_LINEAR_ADDRESS_RECORD ->
     lexer (snd (fst (feed (ihex_Begin r1) w (58 :: ds)))) =
       lexer (snd (fst (feed (ihex_Begin r2) w (58 :: ds))))).
Proof.
  intros World r1 r2 w ds Hf Hwf.
  rewrite (record_run (funcData r1) (ihex_Begin r1) w ds eq_refl eq_refl Hwf).
  rewrite (record_run (funcData r1) (ihex_Begin r2) w ds (eq_sym Hf) eq_refl Hwf).
  change (ext_offset (lexer (ihex_Begin r1))) with 0.
  change (ext_offset (lexer (ihex_Begin r2))) with 0.
  change (ext_offset_byte_pos (lexer (ihex_Begin r1))) with (ext_offset_byte_pos (lexer r1)).
  change (ext_offset_byte_pos (lexer (ihex_Begin r2))) with (ext_offset_byte_pos (lexer r2)).
  set (q1 := ext_offset_byte_pos (lexer r1)). set (q2 := ext_offset_byte_pos (lexer r2)).
  unfold ext_after_type, IHEX_TYPE_02_EXTENDED_SEGMENT_ADDRESS_RECORD,
    IHEX_TYPE_04_EXTENDED_LINEAR_ADDRESS_RECORD.
  destruct (Z.eqb_spec (rec_type ds) 2) as [E2|N2].
  { destruct (payload_run _ _ _ _ _ _ _ _) as [[ms [pos ext]] w']. repeat split. }
  destruct (Z.eqb_spec (rec_type ds) 4) as [E4|N4].
  { destruct (payload_run _ _ _ _ _ _ _ _) as [[ms [pos ext]] w']. repeat split. }
  apply Z.eqb_neq in N2, N4.
  destruct (payload_run_position (funcData r1) (rec_offset ds) (rec_type ds) (rec_payload ds)
                                 q1 q2 0 0 w N2 N4) as [Hm Hw].
  pose proof (payload_run_ext (funcData r1) (rec_offset ds) (rec_type ds) (rec_payload ds)
                              q1 0 0 w N2 N4) as X1.
  pose proof (payload_run_ext (funcData r1) (rec_offset ds) (rec_type ds) (rec_payload ds)
                              q2 0 0 w N2 N4) as X2.
  destruct (payload_run (funcData r1) _ _ _ q1 _ _ _) as [[ms1 [p1 e1]] w1'].
  destruct (payload_run (funcData r1) _ _ _ q2 _ _ _) as [[ms2 [p2 e2]] w2'].
  cbn [fst snd] in *. inversion X1. inversion X2. subst.
  repeat split; try reflexivity.
  intros [T|T]; apply Z.eqb_neq in N2, N4; congruence.
Qed.

Lemma begin_forgets_the_past_witness :
  fst (fst (feed (ihex_Begin (snd (fst (feed logging_reader []
                                             (bytes_of_string ":020000040800F2:0455"%string)))))
                 [] (bytes_of_string ":0300300002337A1E"%string))) =
  fst (fst (feed (ihex_Begin logging_reader) []
                 (bytes_of_string ":0300300002337A1E"%string))).
Proof.
  exact (proj1 (begin_forgets_the_past
                  (list (Z * Z))
                  (snd (fst (feed logging_reader []
                                  (bytes_of_string ":020000040800F2:0455"%string))))
                  logging_reader []
                  (bytes_of_string "0300300002337A1E"%string) eq_refl
                  (well_formed_record_decide (bytes_of_string "0300300002337A1E"%string)
                                             eq_refl))).
Defined.

(** * The circular FIFO (components/m_cfifo/m_cfifo.c)

    The FIFO control structures live at addresses ([nat]); [prev] and
    [next] are pointers to such structures and [None] is NULL.  The storage
    a FIFO works on is caller memory: [buffer] is the address of its first
    byte in a byte memory shared by all FIFOs, so two FIFOs configured on
    the same storage alias.  The operations thread both stores.

    The FreeRTOS semaphore is not part of the model: every public function
    receives the outcome of its [xSemaphoreTake] call as the argument
    [take] ([false] is pdFALSE, the timeout), and [m_cfifo_InitBuffer]
    receives whether [xSemaphoreCreateBinary] returned a handle.  What is
    modelled is therefore one call at a time, not the interleaving of
    tasks. *)

Module CFifo.

Inductive m_cfifo_tDirection : Type := M_CFIFO_UP | M_CFIFO_DOWN.

Record m_cfifo_tCFifo : Type := mkCFifo {
  prev : option nat;
  next : option nat;
  buffer : option Z;      (* uint8_t*  *)
  buffer_size : Z;        (* uint16_t *)
  used_count : Z;         (* uint16_t *)
  rdPtr : Z;              (* uint16_t *)
  wrPtr : Z;              (* uint16_t *)
  dummy_byte : Z          (* uint8_t  *)
}.

Definition set_prev (v : option nat) (c : m_cfifo_tCFifo) : m_cfifo_tCFifo :=
  mkCFifo v (next c) (buffer c) (buffer_size c) (used_count c) (rdPtr c) (wrPtr c)
          (dummy_byte c).
Definition set_next (v : option nat) (c : m_cfifo_tCFifo) : m_cfifo_tCFifo :=
  mkCFifo (prev c) v (buffer c) (buffer_size c) (used_count c) (rdPtr c) (wrPtr c)
          (dummy_byte c).
Definition set_buffer (v : option Z) (c : m_cfifo_tCFifo) : m_cfifo_tCFifo :=
  mkCFifo (prev c) (next c) v (buffer_size c) (used_count c) (rdPtr c) (wrPtr c)
          (dummy_byte c).
Definition set_buffer_size (v : Z) (c : m_cfifo_tCFifo) : m_cfifo_tCFifo :=
  mkCFifo (prev c) (next c) (buffer c) v (used_count c) (rdPtr c) (wrPtr c) (dummy_byte c).
Definition set_used_count (v : Z) (c : m_cfifo_tCFifo) : m_cfifo_tCFifo :=
  mkCFifo (prev c) (next c) (buffer c) (buffer_size c) v (rdPtr c) (wrPtr c) (dummy_byte c).
Definition set_rdPtr (v : Z) (c : m_cfifo_tCFifo) : m_cfifo_tCFifo :=
  mkCFifo (prev c) (next c) (buffer c) (buffer_size c) (used_count c) v (wrPtr c)
          (dummy_byte c).
Definition set_wrPtr (v : Z) (c : m_cfifo_tCFifo) : m_cfifo_tCFifo :=
  mkCFifo (prev c) (next c) (buffer c) (buffer_size c) (used_count c) (rdPtr c) v
          (dummy_byte c).
Definition set_dummy_byte (v : Z) (c : m_cfifo_tCFifo) : m_cfifo_tCFifo :=
  mkCFifo (prev c) (next c) (buffer c) (buffer_size c) (used_count c) (rdPtr c) (wrPtr c) v.

(** The two stores. *)
Record store : Type := mkStore {
  fifos : nat -> m_cfifo_tCFifo;   (* the control structures, by address *)
  bytes : Z -> Z                   (* the byte memory, by address *)
}.

Definition put_fifo (a : nat) (c : m_cfifo_tCFifo) (s : store) : store :=
  mkStore (fun x => if Nat.eqb x a then c else fifos s x) (bytes s).

Definition put_byte (a : Z) (v : Z) (s : store) : store :=
  mkStore (fifos s) (fun x => if x =? a then v else bytes s x).

(** What a call comes to.  [Undefined] is a remainder by zero;
    [Unfinished] is a loop that used up the bound on its iterations. *)
Inductive outcome (A : Type) : Type :=
| Returns (a : A)
| Undefined
| Unfinished.
Arguments Returns {A} a.
Arguments Undefined {A}.
Arguments Unfinished {A}.

Definition bind {A B : Type} (x : outcome A) (f : A -> outcome B) : outcome B :=
  match x with
  | Returns a => f a
  | Undefined => Undefined
  | Unfinished => Unfinished
  end.

Notation "x <- c1 ;; c2" := (bind c1 (fun x => c2))
  (at level 61, c1 at next level, right associativity).
Notation "' pat <- c1 ;; c2" := (bind c1 (fun x => match x with pat => c2 end))
  (at level 61, pat pattern, c1 at next level, right associativity).

(** ** Local functions, on the structure at address [cfifo] *)

Definition m_cfifo_This_IsEmptyInternal (s : store) (cfifo : nat) : bool :=
  used_count (fifos s cfifo) =? 0.

Definition m_cfifo_This_IsFullInternal (s : store) (cfifo : nat) : bool :=
  buffer_size (fifos s cfifo) <=? used_count (fifos s cfifo).

(** The remainder by [buffer_size] is not defined in C when the size is 0. *)
Definition m_cfifo_IncRdPtr (s : store) (cfifo : nat) : outcome store :=
  let c := fifos s cfifo in
  if buffer_size c =? 0 then Undefined
  else Returns (put_fifo cfifo (set_rdPtr (u16 ((rdPtr c + 1) mod buffer_size c)) c) s).

Definition m_cfifo_IncWrPtr (s : store) (cfifo : nat) : outcome store :=
  let c := fifos s cfifo in
  if buffer_size c =? 0 then Undefined
  else Returns (put_fifo cfifo (set_wrPtr (u16 ((wrPtr c + 1) mod buffer_size c)) c) s).

Definition m_cfifo_This_PushInternal (s : store) (cfifo : nat) (data : Z)
  : outcome (bool * store) :=
  match buffer (fifos s cfifo) with
  | None => Returns (false, s)
  | Some base =>
      if m_cfifo_This_IsFullInternal s cfifo then Returns (false, s)
      else
        let s := put_byte (base + wrPtr (fifos s cfifo)) data s in
        s <- m_cfifo_IncWrPtr s cfifo ;;
        let s := put_fifo cfifo (set_used_count (u16 (used_count (fifos s cfifo) + 1))
                                                (fifos s cfifo)) s in
        Returns (true, s)
  end.

(** [data] tells whether the out-pointer is non-NULL; the third component
    is the byte stored through it, if any. *)
Definition m_cfifo_This_PopInternal (s : store) (cfifo : nat) (data : bool)
  : outcome (bool * store * option Z) :=
  if m_cfifo_This_IsEmptyInternal s cfifo then Returns (false, s, None)
  else
    let out :=
      match buffer (fifos s cfifo) with
      | None => if data then Some (dummy_byte (fifos s cfifo)) else None
      | Some base => if data then Some (bytes s (base + rdPtr (fifos s cfifo))) else None
      end in
    s <- m_cfifo_IncRdPtr s cfifo ;;
    let s := put_fifo cfifo (set_used_count (u16 (used_count (fifos s cfifo) - 1))
                                            (fifos s cfifo)) s in
    Returns (true, s, out).

Definition m_cfifo_This_ClearInternal (s : store) (cfifo : nat) : store :=
  put_fifo cfifo (set_used_count 0 (set_wrPtr 0 (set_rdPtr 0 (fifos s cfifo)))) s.

Definition m_cfifo_This_SetFullInternal (s : store) (cfifo : nat) : store :=
  let c := fifos s cfifo in
  put_fifo cfifo (set_used_count (buffer_size c) (set_wrPtr 0 (set_rdPtr 0 c))) s.

Definition m_cfifo_This_GetSizeInternal (s : store) (cfifo : nat) : Z :=
  buffer_size (fifos s cfifo).

Definition m_cfifo_This_GetUsageInternal (s : store) (cfifo : nat) : Z :=
  used_count (fifos s cfifo).

Definition m_cfifo_GetAdjacentFifo (s : store) (cfifo : option nat)
           (direction : m_cfifo_tDirection) : option nat :=
  match cfifo with
  | None => None
  | Some a =>
      match direction with
      | M_CFIFO_UP => next (fifos s a)
      | M_CFIFO_DOWN => prev (fifos s a)
      end
  end.

(** ** Global functions

    A function that returns [bool] in C returns [option bool] here when one
    of its paths reaches the closing brace without a [return]: [None] is
    that path. *)

Definition m_cfifo_ConfigBuffer (s : store) (cfifo : option nat) (take : bool)
           (buffer : option Z) (buffer_size : Z) : option bool * store :=
  match cfifo with
  | None => (Some false, s)
  | Some a =>
      if negb take then (Some false, s)
      else
        let s := put_fifo a (set_buffer buffer (fifos s a)) s in
        let s := put_fifo a (set_buffer_size buffer_size (fifos s a)) s in
        let s := m_cfifo_This_SetFullInternal s a in
        (None, s)
  end.

(** [created]: whether [xSemaphoreCreateBinary] returned a handle.  The
    result of the inner [m_cfifo_ConfigBuffer] is ignored. *)
Definition m_cfifo_InitBuffer (s : store) (cfifo : nat) (created take : bool)
  : bool * store :=
  if negb created then (false, s)
  else
    let s := put_fifo cfifo (set_prev None (fifos s cfifo)) s in
    let s := put_fifo cfifo (set_next None (fifos s cfifo)) s in
    let s := put_fifo cfifo (set_dummy_byte 0 (fifos s cfifo)) s in
    let '(_, s) := m_cfifo_ConfigBuffer s (Some cfifo) take None 0 in
    (true, s).

Definition m_cfifo_CascadeAsNextBuffer (s : store) (cfifo cfifo_next : option nat)
           (take : bool) : bool * store :=
  match cfifo, cfifo_next with
  | Some a, Some b =>
      if negb take then (false, s)
      else
        let s := put_fifo a (set_next (Some b) (fifos s a)) s in
        let s := put_fifo b (set_prev (Some a) (fifos s b)) s in
        (true, s)
  | _, _ => (false, s)
  end.

Definition m_cfifo_SetDummyByte (s : store) (cfifo : option nat) (take : bool) (data : Z)
  : option bool * store :=
  match cfifo with
  | None => (Some false, s)
  | Some a =>
      if negb take then (Some false, s)
      else (None, put_fifo a (set_dummy_byte data (fifos s a)) s)
  end.

Definition m_cfifo_This_Push (s : store) (cfifo : option nat) (take : bool) (data : Z)
  : outcome (bool * store) :=
  match cfifo with
  | None => Returns (false, s)
  | Some a => if negb take then Returns (false, s) else m_cfifo_This_PushInternal s a data
  end.

Definition m_cfifo_This_Pop (s : store) (cfifo : option nat) (take : bool) (data : bool)
  : outcome (bool * store * option Z) :=
  match cfifo with
  | None => Returns (false, s, None)
  | Some a =>
      if negb data then Returns (false, s, None)
      else if negb take then Returns (false, s, None)
      else m_cfifo_This_PopInternal s a data
  end.

Definition m_cfifo_This_Clear (s : store) (cfifo : option nat) (take : bool) : bool * store :=
  match cfifo with
  | None => (false, s)
  | Some a => if negb take then (false, s) else (true, m_cfifo_This_ClearInternal s a)
  end.

Definition m_cfifo_This_SetFull (s : store) (cfifo : option nat) (take : bool)
  : bool * store :=
  match cfifo with
  | None => (false, s)
  | Some a => if negb take then (false, s) else (true, m_cfifo_This_SetFullInternal s a)
  end.

Definition m_cfifo_This_GetSize (s : store) (cfifo : option nat) (take : bool) : Z :=
  match cfifo with
  | None => 0
  | Some a => if negb take then 0 else m_cfifo_This_GetSizeInternal s a
  end.

Definition m_cfifo_This_GetUsage (s : store) (cfifo : option nat) (take : bool) : Z :=
  match cfifo with
  | None => 0
  | Some a => if negb take then 0 else m_cfifo_This_GetUsageInternal s a
  end.

Definition m_cfifo_This_IsEmpty (s : store) (cfifo : option nat) (take : bool) : bool :=
  match cfifo with
  | None => false
  | Some a => if negb take then false else m_cfifo_This_IsEmptyInternal s a
  end.

Definition m_cfifo_This_IsFull (s : store) (cfifo : option nat) (take : bool) : bool :=
  match cfifo with
  | None => false
  | Some a => if negb take then false else m_cfifo_This_IsFullInternal s a
  end.

(** *** The loops over a cascade

    Each loop follows the pointers until it meets NULL (or, for push and
    pop, until a FIFO accepts); [fuel] bounds the number of iterations. *)

Fixpoint push_loop (fuel : nat) (s : store) (actual_buffer : option nat) (success : bool)
         (data : Z) : outcome (bool * store) :=
  match success, actual_buffer with
  | false, Some a =>
      match fuel with
      | O => Unfinished
      | S fuel =>
          '(success, s) <- m_cfifo_This_PushInternal s a data ;;
          push_loop fuel s (next (fifos s a)) success data
      end
  | _, _ => Returns (success, s)
  end.

Definition m_cfifo_All_Push (fuel : nat) (s : store) (cfifo : option nat) (take : bool)
           (data : Z) : outcome (bool * store) :=
  match cfifo with
  | None => Returns (false, s)
  | Some _ => if negb take then Returns (false, s) else push_loop fuel s cfifo false data
  end.

(** [out] is the byte behind the out-pointer so far. *)
Fixpoint pop_loop (fuel : nat) (s : store) (actual_buffer : option nat) (success : bool)
         (data : bool) (out : option Z) : outcome (bool * store * option Z) :=
  match success, actual_buffer with
  | false, Some a =>
      match fuel with
      | O => Unfinished
      | S fuel =>
          '(success, s, written) <- m_cfifo_This_PopInternal s a data ;;
          pop_loop fuel s (next (fifos s a)) success data
                   (match written with Some v => Some v | None => out end)
      end
  | _, _ => Returns (success, s, out)
  end.

Definition m_cfifo_All_Pop (fuel : nat) (s : store) (cfifo : option nat) (take : bool)
           (data : bool) : outcome (bool * store * option Z) :=
  match cfifo with
  | None => Returns (false, s, None)
  | Some _ =>
      if negb data then Returns (false, s, None)
      else if negb take then Returns (false, s, None)
      else pop_loop fuel s cfifo false data None
  end.

Fixpoint each_loop (body : store -> nat -> store) (fuel : nat) (s : store)
         (actual_buffer : option nat) (direction : m_cfifo_tDirection) : outcome store :=
  match actual_buffer with
  | None => Returns s
  | Some a =>
      match fuel with
      | O => Unfinished
      | S fuel =>
          let s := body s a in
          each_loop body fuel s (m_cfifo_GetAdjacentFifo s actual_buffer direction) direction
      end
  end.

Definition m_cfifo_All_Clear (fuel : nat) (s : store) (cfifo : option nat) (take : bool)
           (direction : m_cfifo_tDirection) : outcome (bool * store) :=
  match cfifo with
  | None => Returns (false, s)
  | Some _ =>
      if negb take then Returns (false, s)
      else s <- each_loop m_cfifo_This_ClearInternal fuel s cfifo direction ;;
           Returns (true, s)
  end.

Definition m_cfifo_All_SetFull (fuel : nat) (s : store) (cfifo : option nat) (take : bool)
           (direction : m_cfifo_tDirection) : outcome (bool * store) :=
  match cfifo with
  | None => Returns (false, s)
  | Some _ =>
      if negb take then Returns (false, s)
      else s <- each_loop m_cfifo_This_SetFullInternal fuel s cfifo direction ;;
           Returns (true, s)
  end.

Fixpoint sum_loop (get : store -> nat -> Z) (fuel : nat) (s : store)
         (actual_buffer : option nat) (total : Z) : outcome Z :=
  match actual_buffer with
  | None => Returns total
  | Some a =>
      match fuel with
      | O => Unfinished
      | S fuel => sum_loop get fuel s (next (fifos s a)) (u32 (total + get s a))
      end
  end.

Definition m_cfifo_All_GetSize (fuel : nat) (s : store) (cfifo : option nat) (take : bool)
  : outcome Z :=
  match cfifo with
  | None => Returns 0
  | Some _ =>
      if negb take then Returns 0 else sum_loop m_cfifo_This_GetSizeInternal fuel s cfifo 0
  end.

Definition m_cfifo_All_GetUsage (fuel : nat) (s : store) (cfifo : option nat) (take : bool)
  : outcome Z :=
  match cfifo with
  | None => Returns 0
  | Some _ =>
      if negb take then Returns 0 else sum_loop m_cfifo_This_GetUsageInternal fuel s cfifo 0
  end.

Fixpoint all_loop (test : store -> nat -> bool) (fuel : nat) (s : store)
         (actual_buffer : option nat) (acc : bool) : outcome bool :=
  match actual_buffer with
  | None => Returns acc
  | Some a =>
      match fuel with
      | O => Unfinished
      | S fuel => all_loop test fuel s (next (fifos s a)) (acc && test s a)
      end
  end.

Definition m_cfifo_All_IsEmpty (fuel : nat) (s : store) (cfifo : option nat) (take : bool)
  : outcome bool :=
  match cfifo with
  | None => Returns false
  | Some _ =>
      if negb take then Returns false
      else all_loop m_cfifo_This_IsEmptyInternal fuel s cfifo true
  end.

Definition m_cfifo_All_IsFull (fuel : nat) (s : store) (cfifo : option nat) (take : bool)
  : outcome bool :=
  match cfifo with
  | None => Returns false
  | Some _ =>
      if negb take then Returns false
      else all_loop m_cfifo_This_IsFullInternal fuel s cfifo true
  end.

(** ** Reading the two stores *)

Lemma fifos_put_same a c s : fifos (put_fifo a c s) a = c.
Proof. unfold put_fifo. cbn [fifos]. now rewrite Nat.eqb_refl. Qed.

Lemma fifos_put_other a b c s : b <> a -> fifos (put_fifo a c s) b = fifos s b.
Proof.
  intros H. unfold put_fifo. cbn [fifos].
  destruct (Nat.eqb_spec b a); [contradiction | reflexivity].
Qed.

Ltac fields :=
  cbv beta iota zeta delta
    [prev next buffer buffer_size used_count rdPtr wrPtr dummy_byte
     set_prev set_next set_buffer set_buffer_size set_used_count set_rdPtr set_wrPtr
     set_dummy_byte] in *.

(** ** The bytes a FIFO holds

    A FIFO in order keeps its counter within its size and its write index
    [used_count] places after its read index, around the ring. *)

Definition fifo_ok (c : m_cfifo_tCFifo) : Prop :=
  0 <= used_count c <= buffer_size c /\ buffer_size c <= 65535 /\
  (0 < buffer_size c ->
   0 <= rdPtr c < buffer_size c /\
   wrPtr c = (rdPtr c + used_count c) mod buffer_size c).

(** The bytes that the coming pops deliver, oldest first: those of the
    storage from the read index on, or the dummy byte where there is no
    storage. *)
Definition slot (s : store) (c : m_cfifo_tCFifo) (i : nat) : Z :=
  match buffer c with
  | Some base => bytes s (base + (rdPtr c + Z.of_nat i) mod buffer_size c)
  | None => dummy_byte c
  end.

Definition contents (s : store) (cfifo : nat) : list Z :=
  map (slot s (fifos s cfifo)) (seq 0 (Z.to_nat (used_count (fifos s cfifo)))).

Lemma ring_distinct rd i u size :
  0 <= i < u -> u < size -> (rd + i) mod size <> (rd + u) mod size.
Proof.
  intros Hi Hu E.
  assert (H : ((rd + u) - (rd + i)) mod size = 0).
  { rewrite Zminus_mod, E, Z.sub_diag. apply Z.mod_0_l. lia. }
  replace (rd + u - (rd + i)) with (u - i) in H by lia.
  rewrite Z.mod_small in H; lia.
Qed.


(** *** Push *)

(** [s'] is [s] after [data] went into the FIFO at [cfifo], whose storage
    starts at [base]. *)
Definition pushed (s : store) (cfifo : nat) (base data : Z) (s' : store) : Prop :=
  let c := fifos s cfifo in
  fifos s' cfifo = set_used_count (used_count c + 1)
                     (set_wrPtr ((wrPtr c + 1) mod buffer_size c) c) /\
  (forall b, b <> cfifo -> fifos s' b = fifos s b) /\
  (forall x, bytes s' x = if x =? base + wrPtr c then data else bytes s x).

Lemma PushInternal_refuses s a data :
  buffer (fifos s a) = None \/ buffer_size (fifos s a) <= used_count (fifos s a) ->
  m_cfifo_This_PushInternal s a data = Returns (false, s).
Proof.
  intros H. unfold m_cfifo_This_PushInternal, m_cfifo_This_IsFullInternal.
  destruct (buffer (fifos s a)); [| reflexivity].
  destruct H as [H | H]; [discriminate |].
  destruct (Z.leb_spec (buffer_size (fifos s a)) (used_count (fifos s a))); [reflexivity | lia].
Qed.

Lemma PushInternal_accepts s a base data :
  fifo_ok (fifos s a) ->
  buffer (fifos s a) = Some base ->
  used_count (fifos s a) < buffer_size (fifos s a) ->
  exists s', m_cfifo_This_PushInternal s a data = Returns (true, s') /\
             pushed s a base data s'.
Proof.
  intros (Hu & Hs & Hp) Hb Hr.
  destruct Hp as [Hrd Hwr]; [lia |].
  assert (Hw : 0 <= wrPtr (fifos s a) < buffer_size (fifos s a)).
  { rewrite Hwr. apply Z.mod_pos_bound. lia. }
  unfold m_cfifo_This_PushInternal, m_cfifo_This_IsFullInternal. rewrite Hb.
  destruct (Z.leb_spec (buffer_size (fifos s a)) (used_count (fifos s a))); [lia |].
  unfold m_cfifo_IncWrPtr.
  change (fifos (put_byte (base + wrPtr (fifos s a)) data s)) with (fifos s).
  destruct (Z.eqb_spec (buffer_size (fifos s a)) 0); [lia |].
  cbv beta iota zeta delta [bind]. rewrite fifos_put_same.
  eexists; split; [reflexivity |].
  unfold pushed. split; [| split].
  - rewrite fifos_put_same.
    destruct (fifos s a) as [pv nx bf sz us rd wr dm]. fields.
    rewrite (u16_small ((wr + 1) mod sz)), (u16_small (us + 1)); [reflexivity | lia |].
    pose proof (Z.mod_pos_bound (wr + 1) sz). lia.
  - intros b Hne. now rewrite !fifos_put_other.
  - intros x. reflexivity.
Qed.

Lemma pushed_ok s a base data s' :
  fifo_ok (fifos s a) -> used_count (fifos s a) < buffer_size (fifos s a) ->
  pushed s a base data s' -> fifo_ok (fifos s' a).
Proof.
  intros (Hu & Hs & Hp) Hr (Ha & _ & _). rewrite Ha.
  destruct Hp as [Hrd Hwr]; [lia |].
  destruct (fifos s a) as [pv nx bf sz us rd wr dm]. fields.
  unfold fifo_ok. fields. split; [lia | split; [lia |]]. intros _. split; [lia |].
  rewrite Hwr, Z.add_mod_idemp_l by lia. f_equal. lia.
Qed.

Lemma pushed_contents s a base data s' :
  fifo_ok (fifos s a) -> buffer (fifos s a) = Some base ->
  used_count (fifos s a) < buffer_size (fifos s a) ->
  pushed s a base data s' -> contents s' a = contents s a ++ [data].
Proof.
  intros (Hu & Hs & Hp) Hb Hr (Ha & _ & Hm).
  destruct Hp as [Hrd Hwr]; [lia |].
  unfold contents. rewrite Ha.
  destruct (fifos s a) as [pv nx bf sz us rd wr dm].
  fields. subst bf.
  replace (Z.to_nat (us + 1)) with (Z.to_nat us + 1)%nat by lia.
  rewrite seq_app, map_app. cbn [seq map Nat.add]. f_equal.
  - apply map_ext_in. intros i Hi. apply in_seq in Hi.
    unfold slot. fields. rewrite Hm.
    destruct (Z.eqb_spec (base + (rd + Z.of_nat i) mod sz) (base + wr)) as [E | E];
      [| reflexivity].
    exfalso. apply (ring_distinct rd (Z.of_nat i) us sz); lia.
  - unfold slot. fields. rewrite Hm, Z2Nat.id by lia.
    rewrite <- Hwr, Z.eqb_refl. reflexivity.
Qed.

(** *** Pop *)

Definition popped (s : store) (cfifo : nat) (s' : store) : Prop :=
  let c := fifos s cfifo in
  fifos s' cfifo = set_used_count (used_count c - 1)
                     (set_rdPtr ((rdPtr c + 1) mod buffer_size c) c) /\
  (forall b, b <> cfifo -> fifos s' b = fifos s b) /\
  (forall x, bytes s' x = bytes s x).

Lemma PopInternal_refuses s a data :
  used_count (fifos s a) = 0 ->
  m_cfifo_This_PopInternal s a data = Returns (false, s, None).
Proof.
  intros H. unfold m_cfifo_This_PopInternal, m_cfifo_This_IsEmptyInternal.
  now rewrite H.
Qed.

Lemma PopInternal_delivers s a :
  fifo_ok (fifos s a) -> 0 < used_count (fifos s a) ->
  exists s',
    m_cfifo_This_PopInternal s a true = Returns (true, s', Some (slot s (fifos s a) 0)) /\
    popped s a s'.
Proof.
  intros (Hu & Hs & Hp) Hr.
  destruct Hp as [Hrd Hwr]; [lia |].
  unfold m_cfifo_This_PopInternal, m_cfifo_This_IsEmptyInternal.
  destruct (Z.eqb_spec (used_count (fifos s a)) 0); [lia |].
  unfold m_cfifo_IncRdPtr.
  destruct (Z.eqb_spec (buffer_size (fifos s a)) 0); [lia |].
  cbv beta iota zeta delta [bind]. rewrite fifos_put_same.
  eexists; split.
  - do 2 f_equal. unfold slot. change (Z.of_nat 0) with 0.
    rewrite Z.add_0_r, Z.mod_small by lia.
    now destruct (buffer (fifos s a)).
  - unfold popped. split; [| split].
    + rewrite fifos_put_same.
      destruct (fifos s a) as [pv nx bf sz us rd wr dm]. fields.
      rewrite (u16_small ((rd + 1) mod sz)), (u16_small (us - 1)); [reflexivity | lia |].
      pose proof (Z.mod_pos_bound (rd + 1) sz). lia.
    + intros b Hne. now rewrite !fifos_put_other.
    + intros x. reflexivity.
Qed.

Lemma popped_ok s a s' :
  fifo_ok (fifos s a) -> 0 < used_count (fifos s a) ->
  popped s a s' -> fifo_ok (fifos s' a).
Proof.
  intros (Hu & Hs & Hp) Hr (Ha & _ & _). rewrite Ha.
  destruct Hp as [Hrd Hwr]; [lia |].
  destruct (fifos s a) as [pv nx bf sz us rd wr dm]. fields.
  unfold fifo_ok. fields. split; [lia | split; [lia |]]. intros _. split.
  - apply Z.mod_pos_bound. lia.
  - rewrite Hwr, Z.add_mod_idemp_l by lia. f_equal. lia.
Qed.



Lemma popped_buffer s a s' :
  popped s a s' -> buffer (fifos s' a) = buffer (fifos s a).
Proof. intros (Ha & _). rewrite Ha. now destruct (fifos s a). Qed.

(** *** A run of pushes, then a run of pops *)








(** *** Configuration *)

Lemma SetFullInternal_fields s a :
  fifos (m_cfifo_This_SetFullInternal s a) a =
    set_used_count (buffer_size (fifos s a)) (set_wrPtr 0 (set_rdPtr 0 (fifos s a))).
Proof. unfold m_cfifo_This_SetFullInternal. now rewrite fifos_put_same. Qed.

Lemma ClearInternal_fields s a :
  fifos (m_cfifo_This_ClearInternal s a) a =
    set_used_count 0 (set_wrPtr 0 (set_rdPtr 0 (fifos s a))).
Proof. unfold m_cfifo_This_ClearInternal. now rewrite fifos_put_same. Qed.

Lemma SetFullInternal_ok s a b :
  0 <= buffer_size (fifos s a) <= 65535 ->
  fifo_ok (fifos s b) -> fifo_ok (fifos (m_cfifo_This_SetFullInternal s a) b).
Proof.
  intros Hs Hok. destruct (Nat.eq_dec b a) as [-> | Hne].
  - rewrite SetFullInternal_fields.
    destruct (fifos s a) as [pv nx bf sz us rd wr dm]. unfold fifo_ok. fields.
    split; [lia | split; [lia |]]. intros Hp. split; [lia |].
    rewrite Z.add_0_l, Z.mod_same; lia.
  - unfold m_cfifo_This_SetFullInternal. now rewrite fifos_put_other.
Qed.

Lemma ClearInternal_ok s a b :
  0 <= buffer_size (fifos s a) <= 65535 ->
  fifo_ok (fifos s b) -> fifo_ok (fifos (m_cfifo_This_ClearInternal s a) b).
Proof.
  intros Hs Hok. destruct (Nat.eq_dec b a) as [-> | Hne].
  - rewrite ClearInternal_fields.
    destruct (fifos s a) as [pv nx bf sz us rd wr dm]. unfold fifo_ok. fields.
    split; [lia | split; [lia |]]. intros Hp. split; [lia |].
    rewrite Z.add_0_l, Z.mod_0_l; lia.
  - unfold m_cfifo_This_ClearInternal. now rewrite fifos_put_other.
Qed.

Lemma fifo_ok_size c : fifo_ok c -> 0 <= buffer_size c <= 65535.
Proof. intros (Hu & Hs & _). lia. Qed.

Lemma ConfigBuffer_fields s a buf n :
  exists s', m_cfifo_ConfigBuffer s (Some a) true buf n = (None, s') /\
    fifos s' a = set_used_count n (set_wrPtr 0 (set_rdPtr 0
                   (set_buffer_size n (set_buffer buf (fifos s a))))) /\
    (forall b, b <> a -> fifos s' b = fifos s b) /\
    (forall x, bytes s' x = bytes s x).
Proof.
  eexists. split; [reflexivity |]. split; [| split].
  - rewrite SetFullInternal_fields, !fifos_put_same. now destruct (fifos s a).
  - intros b Hne. unfold m_cfifo_This_SetFullInternal. now rewrite !fifos_put_other.
  - reflexivity.
Qed.

(** ** Cascades

    [cascade direction s p l]: following the links of [direction] from the
    pointer [p] visits the structures [l] and then meets NULL. *)

Definition link (direction : m_cfifo_tDirection) (c : m_cfifo_tCFifo) : option nat :=
  match direction with
  | M_CFIFO_UP => next c
  | M_CFIFO_DOWN => prev c
  end.

Inductive cascade (direction : m_cfifo_tDirection) (s : store)
  : option nat -> list nat -> Prop :=
| cascade_end : cascade direction s None []
| cascade_step a l :
    cascade direction s (link direction (fifos s a)) l ->
    cascade direction s (Some a) (a :: l).

Lemma GetAdjacentFifo_link s a direction :
  m_cfifo_GetAdjacentFifo s (Some a) direction = link direction (fifos s a).
Proof. now destruct direction. Qed.

Lemma cascade_frame direction s s' p l :
  (forall b, In b l -> link direction (fifos s' b) = link direction (fifos s b)) ->
  cascade direction s p l -> cascade direction s' p l.
Proof.
  intros Hl H. induction H as [| a l H IH]; constructor.
  rewrite Hl by (left; reflexivity). apply IH. intros b Hb. apply Hl. now right.
Qed.

Lemma cascade_functional direction s p l1 :
  cascade direction s p l1 -> forall l2, cascade direction s p l2 -> l1 = l2.
Proof.
  induction 1 as [| a l H IH]; intros l2 H2; inversion H2; subst; [reflexivity |].
  f_equal. now apply IH.
Qed.

Lemma cascade_suffix direction s l1 : forall p b l2,
  cascade direction s p (l1 ++ b :: l2) -> cascade direction s (Some b) (b :: l2).
Proof.
  induction l1 as [| c l1 IH]; intros p b l2 H; cbn [app] in H.
  - inversion H; subst. assumption.
  - inversion H; subst. eapply IH; eassumption.
Qed.

Lemma cascade_NoDup direction s p l : cascade direction s p l -> NoDup l.
Proof.
  induction 1 as [| a l H IH]; constructor; [| assumption].
  intros Hin. apply in_split in Hin. destruct Hin as (l1 & l2 & ->).
  assert (H1 := cascade_suffix direction s l1 _ a l2 H).
  assert (H2 : cascade direction s (Some a) (a :: l1 ++ a :: l2))
    by (constructor; assumption).
  assert (E := cascade_functional _ _ _ _ H1 _ H2).
  apply (f_equal (@length nat)) in E. cbn [length] in E.
  rewrite length_app in E. cbn [length] in E. lia.
Qed.

(** *** Loops that only read *)

Definition sum_of (l : list Z) : Z := fold_right Z.add 0 l.

Lemma sum_loop_cascade get s p l :
  cascade M_CFIFO_UP s p l ->
  forall fuel total, (length l <= fuel)%nat -> 0 <= total < 4294967296 ->
  sum_loop get fuel s p total = Returns (u32 (total + sum_of (map (get s) l))).
Proof.
  induction 1 as [| a l H IH]; intros fuel total Hf Ht.
  - destruct fuel; cbn [sum_loop map sum_of fold_right]; now rewrite Z.add_0_r, u32_small.
  - destruct fuel as [| fuel]; [cbn [length] in Hf; lia |].
    cbn [sum_loop map sum_of fold_right]. cbn [link] in IH.
    rewrite IH.
    + rewrite u32_add_l. unfold sum_of. do 2 f_equal. lia.
    + cbn [length] in Hf. lia.
    + unfold u32. apply Z.mod_pos_bound. lia.
Qed.

Lemma all_loop_cascade test s p l :
  cascade M_CFIFO_UP s p l ->
  forall fuel acc, (length l <= fuel)%nat ->
  all_loop test fuel s p acc = Returns (acc && forallb (test s) l).
Proof.
  induction 1 as [| a l H IH]; intros fuel acc Hf.
  - destruct fuel; cbn [all_loop forallb]; now rewrite andb_true_r.
  - destruct fuel as [| fuel]; [cbn [length] in Hf; lia |].
    cbn [all_loop forallb]. cbn [link] in IH.
    rewrite IH by (cbn [length] in Hf; lia). now rewrite andb_assoc.
Qed.

(** *** Loops that write *)

Lemma each_loop_cascade (body : store -> nat -> store) (f : m_cfifo_tCFifo -> m_cfifo_tCFifo)
      direction :
  (forall s a, fifos (body s a) a = f (fifos s a)) ->
  (forall s a b, b <> a -> fifos (body s a) b = fifos s b) ->
  (forall s a x, bytes (body s a) x = bytes s x) ->
  (forall c, link direction (f c) = link direction c) ->
  (forall c, f (f c) = f c) ->
  forall l s p, cascade direction s p l ->
  forall fuel, (length l <= fuel)%nat ->
  exists s', each_loop body fuel s p direction = Returns s' /\
             (forall b, In b l -> fifos s' b = f (fifos s b)) /\
             (forall b, ~ In b l -> fifos s' b = fifos s b) /\
             (forall x, bytes s' x = bytes s x).
Proof.
  intros Hsame Hother Hbytes Hlink Hidem.
  assert (Hlk : forall s a b, link direction (fifos (body s a) b) = link direction (fifos s b)).
  { intros s a b. destruct (Nat.eq_dec b a) as [-> | Hne].
    - now rewrite Hsame, Hlink.
    - now rewrite Hother. }
  induction l as [| a l IH]; intros s p H fuel Hf; inversion H; subst.
  - exists s. destruct fuel; cbn [each_loop]; repeat split; intros b [].
  - destruct fuel as [| fuel]; [cbn [length] in Hf; lia |].
    cbn [each_loop]. rewrite GetAdjacentFifo_link, Hlk.
    destruct (IH (body s a) (link direction (fifos s a))) with (fuel := fuel)
      as (s' & E & Hin & Hout & Hm).
    { eapply cascade_frame; [| eassumption]. intros b _. apply Hlk. }
    { cbn [length] in Hf. lia. }
    exists s'. split; [exact E | split; [| split]].
    + intros b Hb. destruct (in_dec Nat.eq_dec b l) as [Hl | Hl].
      * rewrite Hin by assumption. destruct (Nat.eq_dec b a) as [-> | Hne].
        -- now rewrite Hsame, Hidem.
        -- now rewrite Hother.
      * destruct Hb as [<- | Hb]; [| contradiction].
        rewrite Hout by assumption. apply Hsame.
    + intros b Hb. rewrite Hout by (intros Hl; apply Hb; now right).
      apply Hother. intros ->. apply Hb. now left.
    + intros x. now rewrite Hm, Hbytes.
Qed.

Lemma push_loop_done fuel s p data :
  push_loop fuel s p true data = Returns (true, s).
Proof. now destruct fuel. Qed.

Lemma pop_loop_done fuel s p data out :
  pop_loop fuel s p true data out = Returns (true, s, out).
Proof. now destruct fuel. Qed.

(** Whether the FIFO at [a] takes another byte. *)
Definition has_room (s : store) (a : nat) : bool :=
  match buffer (fifos s a) with
  | Some _ => used_count (fifos s a) <? buffer_size (fifos s a)
  | None => false
  end.

Lemma has_room_false s a :
  has_room s a = false ->
  buffer (fifos s a) = None \/ buffer_size (fifos s a) <= used_count (fifos s a).
Proof.
  unfold has_room. destruct (buffer (fifos s a)); [| now left].
  intros H. right. apply Z.ltb_ge in H. exact H.
Qed.

Lemma has_room_true s a :
  has_room s a = true ->
  exists base, buffer (fifos s a) = Some base /\
               used_count (fifos s a) < buffer_size (fifos s a).
Proof.
  unfold has_room. destruct (buffer (fifos s a)) as [base |]; [| discriminate].
  intros H. exists base. split; [reflexivity |]. now apply Z.ltb_lt.
Qed.

Lemma push_loop_refused data l : forall s p fuel,
  cascade M_CFIFO_UP s p l -> (length l <= fuel)%nat ->
  (forall b, In b l -> has_room s b = false) ->
  push_loop fuel s p false data = Returns (false, s).
Proof.
  induction l as [| a l IH]; intros s p fuel H Hf Hr; inversion H; subst.
  - now destruct fuel.
  - destruct fuel as [| fuel]; [cbn [length] in Hf; lia |].
    cbn [push_loop].
    rewrite PushInternal_refuses by (apply has_room_false, Hr; now left).
    cbn [bind]. apply IH.
    + assumption.
    + cbn [length] in Hf. lia.
    + intros b Hb. apply Hr. now right.
Qed.

Lemma push_loop_accepted data l1 : forall s p fuel b l2 base,
  cascade M_CFIFO_UP s p (l1 ++ b :: l2) -> (length l1 < fuel)%nat ->
  (forall c, In c l1 -> has_room s c = false) ->
  fifo_ok (fifos s b) -> buffer (fifos s b) = Some base ->
  used_count (fifos s b) < buffer_size (fifos s b) ->
  exists s', push_loop fuel s p false data = Returns (true, s') /\
             pushed s b base data s'.
Proof.
  induction l1 as [| a l1 IH]; intros s p fuel b l2 base H Hf Hr Hok Hb Hu;
    cbn [app] in H; inversion H; subst.
  - destruct fuel as [| fuel]; [lia |].
    destruct (PushInternal_accepts s b base data Hok Hb Hu) as (s' & E & P).
    exists s'. cbn [push_loop]. rewrite E. cbn [bind].
    now rewrite push_loop_done.
  - destruct fuel as [| fuel]; [cbn [length] in Hf; lia |].
    cbn [push_loop].
    rewrite PushInternal_refuses by (apply has_room_false, Hr; now left).
    cbn [bind]. eapply IH; try eassumption.
    + cbn [length] in Hf. lia.
    + intros c Hc. apply Hr. now right.
Qed.

Lemma pop_loop_refused l : forall s p fuel out,
  cascade M_CFIFO_UP s p l -> (length l <= fuel)%nat ->
  (forall b, In b l -> used_count (fifos s b) = 0) ->
  pop_loop fuel s p false true out = Returns (false, s, out).
Proof.
  induction l as [| a l IH]; intros s p fuel out H Hf Hr; inversion H; subst.
  - now destruct fuel.
  - destruct fuel as [| fuel]; [cbn [length] in Hf; lia |].
    cbn [pop_loop].
    rewrite PopInternal_refuses by (apply Hr; now left).
    cbn [bind]. apply IH.
    + assumption.
    + cbn [length] in Hf. lia.
    + intros b Hb. apply Hr. now right.
Qed.

Lemma pop_loop_delivered l1 : forall s p fuel b l2 out,
  cascade M_CFIFO_UP s p (l1 ++ b :: l2) -> (length l1 < fuel)%nat ->
  (forall c, In c l1 -> used_count (fifos s c) = 0) ->
  fifo_ok (fifos s b) -> 0 < used_count (fifos s b) ->
  exists s', pop_loop fuel s p false true out
             = Returns (true, s', Some (slot s (fifos s b) 0)) /\
             popped s b s'.
Proof.
  induction l1 as [| a l1 IH]; intros s p fuel b l2 out H Hf Hr Hok Hu;
    cbn [app] in H; inversion H; subst.
  - destruct fuel as [| fuel]; [lia |].
    destruct (PopInternal_delivers s b Hok Hu) as (s' & E & P).
    exists s'. cbn [pop_loop]. rewrite E. cbn [bind].
    now rewrite pop_loop_done.
  - destruct fuel as [| fuel]; [cbn [length] in Hf; lia |].
    cbn [pop_loop].
    rewrite PopInternal_refuses by (apply Hr; now left).
    cbn [bind]. eapply IH; try eassumption.
    + cbn [length] in Hf. lia.
    + intros c Hc. apply Hr. now right.
Qed.

(** The first element of [l] that satisfies [test], with what comes before
    and after it. *)
Lemma first_such (test : nat -> bool) (l : list nat) :
  (forall b, In b l -> test b = false) \/
  exists l1 b l2, l = l1 ++ b :: l2 /\ (forall c, In c l1 -> test c = false) /\ test b = true.
Proof.
  induction l as [| a l IH].
  - left. intros b [].
  - destruct (test a) eqn:E.
    + right. exists [], a, l. split; [reflexivity | split; [intros c [] | exact E]].
    + destruct IH as [IH | (l1 & b & l2 & -> & H1 & Hb)].
      * left. intros b [<- | Hb]; [exact E | now apply IH].
      * right. exists (a :: l1), b, l2. split; [reflexivity | split; [| exact Hb]].
        intros c [<- | Hc]; [exact E | now apply H1].
Qed.

(** *** A loop on a cycle *)

Section Cycle.
Variable s : store.
Variable on_cycle : nat -> Prop.
Hypothesis cycle_closed :
  forall a, on_cycle a -> exists b, next (fifos s a) = Some b /\ on_cycle b.

Lemma sum_loop_cycle get fuel : forall a total,
  on_cycle a -> sum_loop get fuel s (Some a) total = Unfinished.
Proof.
  induction fuel as [| fuel IH]; intros a total Ha; [reflexivity |].
  cbn [sum_loop]. destruct (cycle_closed a Ha) as (b & -> & Hb). now apply IH.
Qed.

Lemma all_loop_cycle test fuel : forall a acc,
  on_cycle a -> all_loop test fuel s (Some a) acc = Unfinished.
Proof.
  induction fuel as [| fuel IH]; intros a acc Ha; [reflexivity |].
  cbn [all_loop]. destruct (cycle_closed a Ha) as (b & -> & Hb). now apply IH.
Qed.
End Cycle.

(** *** Keeping every FIFO in order *)

Definition all_ok (s : store) : Prop := forall a, fifo_ok (fifos s a).

(** [safe P o]: the call did not take a remainder by zero, and what it
    returned, if it returned, satisfies [P]. *)
Definition safe {A : Type} (P : A -> Prop) (o : outcome A) : Prop :=
  match o with
  | Returns a => P a
  | Undefined => False
  | Unfinished => True
  end.

Lemma safe_bind {A B : Type} (P : A -> Prop) (Q : B -> Prop) (x : outcome A)
      (f : A -> outcome B) :
  safe P x -> (forall a, P a -> safe Q (f a)) -> safe Q (bind x f).
Proof. destruct x; cbn [safe bind]; auto. Qed.

Lemma set_links_ok c p n d :
  fifo_ok c -> fifo_ok (set_prev p c) /\ fifo_ok (set_next n c) /\ fifo_ok (set_dummy_byte d c).
Proof. destruct c. unfold fifo_ok. fields. tauto. Qed.

Lemma put_fifo_ok s a c : all_ok s -> fifo_ok c -> all_ok (put_fifo a c s).
Proof.
  intros Hs Hc b. destruct (Nat.eq_dec b a) as [-> | Hne].
  - now rewrite fifos_put_same.
  - rewrite fifos_put_other by assumption. apply Hs.
Qed.

Lemma put_prev_ok s a p : all_ok s -> all_ok (put_fifo a (set_prev p (fifos s a)) s).
Proof. intros Hs. apply put_fifo_ok; [exact Hs |]. now apply (set_links_ok _ p None 0). Qed.

Lemma put_next_ok s a n : all_ok s -> all_ok (put_fifo a (set_next n (fifos s a)) s).
Proof. intros Hs. apply put_fifo_ok; [exact Hs |]. now apply (set_links_ok _ None n 0). Qed.

Lemma put_dummy_ok s a d : all_ok s -> all_ok (put_fifo a (set_dummy_byte d (fifos s a)) s).
Proof. intros Hs. apply put_fifo_ok; [exact Hs |]. now apply (set_links_ok _ None None d). Qed.

Lemma has_room_cases s a :
  has_room s a = false \/
  exists base, buffer (fifos s a) = Some base /\
               used_count (fifos s a) < buffer_size (fifos s a).
Proof.
  destruct (has_room s a) eqn:E; [right; now apply has_room_true | now left].
Qed.

Lemma PushInternal_ok s a data :
  all_ok s -> safe (fun r => all_ok (snd r)) (m_cfifo_This_PushInternal s a data).
Proof.
  intros Hs. destruct (has_room_cases s a) as [H | (base & Hb & Hu)].
  - rewrite PushInternal_refuses by now apply has_room_false. exact Hs.
  - destruct (PushInternal_accepts s a base data (Hs a) Hb Hu) as (s' & -> & P).
    cbn [safe snd]. intros b. destruct (Nat.eq_dec b a) as [-> | Hne].
    + eapply pushed_ok; eauto.
    + destruct P as (_ & Ho & _). rewrite Ho by assumption. apply Hs.
Qed.

Lemma PopInternal_ok s a :
  all_ok s -> safe (fun r => all_ok (snd (fst r))) (m_cfifo_This_PopInternal s a true).
Proof.
  intros Hs. destruct (Z.eq_dec (used_count (fifos s a)) 0) as [E | E].
  - rewrite PopInternal_refuses by assumption. exact Hs.
  - assert (Hu : 0 < used_count (fifos s a)) by (destruct (Hs a) as (H & _); lia).
    destruct (PopInternal_delivers s a (Hs a) Hu) as (s' & -> & P).
    cbn [safe snd fst]. intros b. destruct (Nat.eq_dec b a) as [-> | Hne].
    + eapply popped_ok; eauto.
    + destruct P as (_ & Ho & _). rewrite Ho by assumption. apply Hs.
Qed.

Lemma push_loop_ok data fuel : forall s p success,
  all_ok s -> safe (fun r => all_ok (snd r)) (push_loop fuel s p success data).
Proof.
  induction fuel as [| fuel IH]; intros s p success Hs.
  - destruct success, p; cbn [push_loop safe snd]; auto.
  - destruct success, p as [a |]; cbn [push_loop safe snd]; auto.
    eapply safe_bind; [apply PushInternal_ok, Hs |].
    intros [r s'] H. apply IH, H.
Qed.

Lemma pop_loop_ok fuel : forall s p success out,
  all_ok s -> safe (fun r => all_ok (snd (fst r))) (pop_loop fuel s p success true out).
Proof.
  induction fuel as [| fuel IH]; intros s p success out Hs.
  - destruct success, p; cbn [pop_loop safe snd fst]; auto.
  - destruct success, p as [a |]; cbn [pop_loop safe snd fst]; auto.
    eapply safe_bind; [apply PopInternal_ok, Hs |].
    intros [[r s'] w] H. apply IH, H.
Qed.

Lemma ClearInternal_all_ok s a : all_ok s -> all_ok (m_cfifo_This_ClearInternal s a).
Proof. intros Hs b. apply ClearInternal_ok; [apply fifo_ok_size, Hs | apply Hs]. Qed.

Lemma SetFullInternal_all_ok s a : all_ok s -> all_ok (m_cfifo_This_SetFullInternal s a).
Proof. intros Hs b. apply SetFullInternal_ok; [apply fifo_ok_size, Hs | apply Hs]. Qed.

Lemma each_loop_ok body direction fuel :
  (forall s a, all_ok s -> all_ok (body s a)) ->
  forall s p, all_ok s -> safe all_ok (each_loop body fuel s p direction).
Proof.
  intros Hbody. induction fuel as [| fuel IH]; intros s p Hs.
  - destruct p; cbn [each_loop safe]; auto.
  - destruct p as [a |]; cbn [each_loop safe]; auto.
Qed.

Lemma ConfigBuffer_ok s cfifo take buf n :
  0 <= n <= 65535 -> all_ok s -> all_ok (snd (m_cfifo_ConfigBuffer s cfifo take buf n)).
Proof.
  intros Hn Hs. destruct cfifo as [a |]; [| exact Hs]. destruct take; [| exact Hs].
  destruct (ConfigBuffer_fields s a buf n) as (s' & -> & Ha & Ho & _). cbn [snd].
  intros b. destruct (Nat.eq_dec b a) as [-> | Hne].
  - rewrite Ha. destruct (fifos s a). unfold fifo_ok. fields.
    split; [lia | split; [lia |]]. intros Hp. split; [lia |].
    rewrite Z.add_0_l, Z.mod_same; lia.
  - rewrite Ho by assumption. apply Hs.
Qed.

(** *** The calls of the interface, one after the other *)

Inductive call : Type :=
| InitBuffer (cfifo : nat) (created take : bool)
| CascadeAsNextBuffer (cfifo cfifo_next : option nat) (take : bool)
| ConfigBuffer (cfifo : option nat) (take : bool) (storage : option Z) (size : Z)
| SetDummyByte (cfifo : option nat) (take : bool) (data : Z)
| This_Push (cfifo : option nat) (take : bool) (data : Z)
| All_Push (cfifo : option nat) (take : bool) (data : Z)
| This_Pop (cfifo : option nat) (take : bool) (data : bool)
| All_Pop (cfifo : option nat) (take : bool) (data : bool)
| This_Clear (cfifo : option nat) (take : bool)
| All_Clear (cfifo : option nat) (take : bool) (direction : m_cfifo_tDirection)
| This_SetFull (cfifo : option nat) (take : bool)
| All_SetFull (cfifo : option nat) (take : bool) (direction : m_cfifo_tDirection).

(** The store after a call; its return value is dropped. *)
Definition run (fuel : nat) (c : call) (s : store) : outcome store :=
  match c with
  | InitBuffer cfifo created take => Returns (snd (m_cfifo_InitBuffer s cfifo created take))
  | CascadeAsNextBuffer cfifo cfifo_next take =>
      Returns (snd (m_cfifo_CascadeAsNextBuffer s cfifo cfifo_next take))
  | ConfigBuffer cfifo take storage size =>
      Returns (snd (m_cfifo_ConfigBuffer s cfifo take storage size))
  | SetDummyByte cfifo take data => Returns (snd (m_cfifo_SetDummyByte s cfifo take data))
  | This_Push cfifo take data => r <- m_cfifo_This_Push s cfifo take data ;; Returns (snd r)
  | All_Push cfifo take data =>
      r <- m_cfifo_All_Push fuel s cfifo take data ;; Returns (snd r)
  | This_Pop cfifo take data =>
      r <- m_cfifo_This_Pop s cfifo take data ;; Returns (snd (fst r))
  | All_Pop cfifo take data =>
      r <- m_cfifo_All_Pop fuel s cfifo take data ;; Returns (snd (fst r))
  | This_Clear cfifo take => Returns (snd (m_cfifo_This_Clear s cfifo take))
  | All_Clear cfifo take direction =>
      r <- m_cfifo_All_Clear fuel s cfifo take direction ;; Returns (snd r)
  | This_SetFull cfifo take => Returns (snd (m_cfifo_This_SetFull s cfifo take))
  | All_SetFull cfifo take direction =>
      r <- m_cfifo_All_SetFull fuel s cfifo take direction ;; Returns (snd r)
  end.

Fixpoint run_all (fuel : nat) (cs : list call) (s : store) : outcome store :=
  match cs with
  | [] => Returns s
  | c :: cs => s <- run fuel c s ;; run_all fuel cs s
  end.

(** The size handed to [m_cfifo_ConfigBuffer] is a [uint16_t]. *)
Definition in_range (c : call) : Prop :=
  match c with
  | ConfigBuffer _ _ _ size => 0 <= size <= 65535
  | _ => True
  end.

Lemma run_ok fuel c s : all_ok s -> in_range c -> safe all_ok (run fuel c s).
Proof.
  intros Hs Hc.
  destruct c as [cfifo created take | cfifo cfifo_next take | cfifo take storage size
                | cfifo take byte | cfifo take byte | cfifo take byte
                | cfifo take out | cfifo take out | cfifo take | cfifo take direction
                | cfifo take | cfifo take direction];
    cbn [run in_range] in *.
  - (* InitBuffer *)
    cbn [safe]. unfold m_cfifo_InitBuffer. destruct created; [| exact Hs]. cbn [negb].
    match goal with
    | |- all_ok (snd (let '(_, s0) := m_cfifo_ConfigBuffer ?s1 ?p ?t ?b ?n in (true, s0))) =>
        assert (H1 : all_ok s1) by (apply put_dummy_ok, put_next_ok, put_prev_ok, Hs);
        pose proof (ConfigBuffer_ok s1 p t b n ltac:(lia) H1) as H2;
        destruct (m_cfifo_ConfigBuffer s1 p t b n); exact H2
    end.
  - (* CascadeAsNextBuffer *)
    cbn [safe]. unfold m_cfifo_CascadeAsNextBuffer.
    destruct cfifo as [a |], cfifo_next as [b |]; try exact Hs. destruct take; [| exact Hs].
    cbn [negb snd]. apply put_prev_ok, put_next_ok, Hs.
  - (* ConfigBuffer *)
    cbn [safe]. now apply ConfigBuffer_ok.
  - (* SetDummyByte *)
    cbn [safe]. unfold m_cfifo_SetDummyByte. destruct cfifo as [a |]; [| exact Hs].
    destruct take; [| exact Hs]. cbn [negb snd]. apply put_dummy_ok, Hs.
  - (* This_Push *)
    eapply safe_bind with (P := fun r => all_ok (snd r)); [| intros r H; exact H].
    unfold m_cfifo_This_Push. destruct cfifo as [a |]; [| exact Hs].
    destruct take; [| exact Hs]. now apply PushInternal_ok.
  - (* All_Push *)
    eapply safe_bind with (P := fun r => all_ok (snd r)); [| intros r H; exact H].
    unfold m_cfifo_All_Push. destruct cfifo as [a |]; [| exact Hs].
    destruct take; [| exact Hs]. now apply push_loop_ok.
  - (* This_Pop *)
    eapply safe_bind with (P := fun r => all_ok (snd (fst r))); [| intros r H; exact H].
    unfold m_cfifo_This_Pop. destruct cfifo as [a |]; [| exact Hs].
    destruct out; [| exact Hs]. destruct take; [| exact Hs]. now apply PopInternal_ok.
  - (* All_Pop *)
    eapply safe_bind with (P := fun r => all_ok (snd (fst r))); [| intros r H; exact H].
    unfold m_cfifo_All_Pop. destruct cfifo as [a |]; [| exact Hs].
    destruct out; [| exact Hs]. destruct take; [| exact Hs]. now apply pop_loop_ok.
  - (* This_Clear *)
    cbn [safe]. unfold m_cfifo_This_Clear. destruct cfifo as [a |]; [| exact Hs].
    destruct take; [| exact Hs]. now apply ClearInternal_all_ok.
  - (* All_Clear *)
    eapply safe_bind with (P := fun r => all_ok (snd r)); [| intros r H; exact H].
    unfold m_cfifo_All_Clear. destruct cfifo as [a |]; [| exact Hs].
    destruct take; [| exact Hs]. cbn [negb].
    eapply safe_bind; [apply each_loop_ok; [apply ClearInternal_all_ok | exact Hs] |].
    intros s' H. exact H.
  - (* This_SetFull *)
    cbn [safe]. unfold m_cfifo_This_SetFull. destruct cfifo as [a |]; [| exact Hs].
    destruct take; [| exact Hs]. now apply SetFullInternal_all_ok.
  - (* All_SetFull *)
    eapply safe_bind with (P := fun r => all_ok (snd r)); [| intros r H; exact H].
    unfold m_cfifo_All_SetFull. destruct cfifo as [a |]; [| exact Hs].
    destruct take; [| exact Hs]. cbn [negb].
    eapply safe_bind; [apply each_loop_ok; [apply SetFullInternal_all_ok | exact Hs] |].
    intros s' H. exact H.
Qed.

(** *** Deciding the conditions on a given store *)

Definition fifo_okb (c : m_cfifo_tCFifo) : bool :=
  (0 <=? used_count c) && (used_count c <=? buffer_size c) && (buffer_size c <=? 65535) &&
  ((buffer_size c <=? 0) ||
   ((0 <=? rdPtr c) && (rdPtr c <? buffer_size c) &&
    (wrPtr c =? (rdPtr c + used_count c) mod buffer_size c))).

Lemma fifo_okb_ok c : fifo_okb c = true -> fifo_ok c.
Proof.
  unfold fifo_okb, fifo_ok. intros H.
  apply andb_prop in H. destruct H as [H H4].
  apply andb_prop in H. destruct H as [H H3].
  apply andb_prop in H. destruct H as [H1 H2].
  apply Z.leb_le in H1, H2, H3.
  split; [lia | split; [lia |]]. intros Hp.
  apply orb_prop in H4. destruct H4 as [H4 | H4]; [apply Z.leb_le in H4; lia |].
  apply andb_prop in H4. destruct H4 as [H4 H7].
  apply andb_prop in H4. destruct H4 as [H5 H6].
  apply Z.leb_le in H5. apply Z.ltb_lt in H6. apply Z.eqb_eq in H7. lia.
Qed.

Fixpoint cascadeb (direction : m_cfifo_tDirection) (s : store) (p : option nat)
         (l : list nat) : bool :=
  match p, l with
  | None, [] => true
  | Some a, b :: l => Nat.eqb a b && cascadeb direction s (link direction (fifos s a)) l
  | _, _ => false
  end.

Lemma cascadeb_cascade direction s l : forall p,
  cascadeb direction s p l = true -> cascade direction s p l.
Proof.
  induction l as [| b l IH]; intros [a |] H; cbn [cascadeb] in H; try discriminate.
  - constructor.
  - apply andb_prop in H. destruct H as [E H]. apply Nat.eqb_eq in E. subst b.
    constructor. now apply IH.
Qed.

(** *** Stores to try the statements on *)

Definition blank_fifo : m_cfifo_tCFifo := mkCFifo None None None 0 0 0 0 0.

Definition blank_store : store := mkStore (fun _ => blank_fifo) (fun _ => 0).

(** One FIFO at address 0 on four bytes of storage at 100; it holds the
    byte 9 in its last place, so that the next push wraps around. *)
Definition ring_store : store :=
  mkStore (fun a => if Nat.eqb a 0 then mkCFifo None None (Some 100) 4 1 3 0 0
                    else blank_fifo)
          (fun x => if x =? 103 then 9 else 0).

(** Two FIFOs in a cascade: the one at 0 is full with 5 and 6, the one at 1
    holds 7 and has room for two more. *)
Definition pair_store : store :=
  mkStore (fun a => if Nat.eqb a 0 then mkCFifo None (Some 1%nat) (Some 100) 2 2 1 1 0
                    else if Nat.eqb a 1 then mkCFifo (Some 0%nat) None (Some 200) 3 1 2 0 0
                    else blank_fifo)
          (fun x => if x =? 101 then 5 else if x =? 100 then 6
                    else if x =? 202 then 7 else 0).

Lemma blank_store_ok : all_ok blank_store.
Proof. intros a. apply fifo_okb_ok. reflexivity. Qed.

Lemma sum_of_zero (f : nat -> Z) l : (forall b, In b l -> f b = 0) -> sum_of (map f l) = 0.
Proof.
  induction l as [| a l IH]; intros H; [reflexivity |].
  cbn [map sum_of fold_right]. rewrite (H a) by now left.
  change (fold_right Z.add 0 (map f l)) with (sum_of (map f l)).
  rewrite IH; [reflexivity |]. intros b Hb. apply H. now right.
Qed.

(** ** Properties of one FIFO *)

(** X13 (m_cfifo_This_Push): on a FIFO in order that has storage and room,
    a push returns true exactly when it took the semaphore.  It then leaves
    the FIFO in order, puts the byte behind the bytes that were waiting,
    and touches no other control structure.  When the semaphore timed out
    the push returns false and nothing has changed. *)
Theorem push_appends_to_the_contents :
  forall (s : store) (a : nat) (base data : Z) (take : bool),
    fifo_ok (fifos s a) ->
    buffer (fifos s a) = Some base ->
    used_count (fifos s a) < buffer_size (fifos s a) ->
    exists s',
      m_cfifo_This_Push s (Some a) take data = Returns (take, s') /\
      (take = true ->
       fifo_ok (fifos s' a) /\
       contents s' a = contents s a ++ [data] /\
       (forall b, b <> a -> fifos s' b = fifos s b)) /\
      (take = false -> s' = s).
Proof.
  intros s a base data take Hok Hb Hu. destruct take.
  - destruct (PushInternal_accepts s a base data Hok Hb Hu) as (s' & E & P).
    exists s'. cbn [m_cfifo_This_Push negb].
    split; [exact E | split; [intros _ | discriminate]].
    split; [| split].
    + eapply pushed_ok; eauto.
    + eapply pushed_contents; eauto.
    + now destruct P as (_ & Ho & _).
  - exists s. cbn [m_cfifo_This_Push negb].
    split; [reflexivity | split; [discriminate | reflexivity]].
Qed.

Lemma push_appends_to_the_contents_witness :
  (exists s',
      m_cfifo_This_Push ring_store (Some 0%nat) true 8 = Returns (true, s') /\
      (true = true ->
       fifo_ok (fifos s' 0%nat) /\
       contents s' 0%nat = contents ring_store 0%nat ++ [8] /\
       (forall b, b <> 0%nat -> fifos s' b = fifos ring_store b)) /\
      (true = false -> s' = ring_store)) /\
  (exists s',
      m_cfifo_This_Push ring_store (Some 0%nat) false 8 = Returns (false, s') /\
      (false = true ->
       fifo_ok (fifos s' 0%nat) /\
       contents s' 0%nat = contents ring_store 0%nat ++ [8] /\
       (forall b, b <> 0%nat -> fifos s' b = fifos ring_store b)) /\
      (false = false -> s' = ring_store)).
Proof.
  split.
  - exact (push_appends_to_the_contents ring_store 0%nat 100 8 true
             (fifo_okb_ok (fifos ring_store 0%nat) eq_refl) eq_refl eq_refl).
  - exact (push_appends_to_the_contents ring_store 0%nat 100 8 false
             (fifo_okb_ok (fifos ring_store 0%nat) eq_refl) eq_refl eq_refl).
Defined.



(** X15 (m_cfifo_This_Push): a push on a FIFO in order always returns; it
    returns true exactly when the pointer is not NULL, the semaphore was
    taken, and the FIFO has storage and room; when it returns false nothing
    has changed. *)
Theorem push_is_refused_without_room :
  forall (s : store) (cfifo : option nat) (take : bool) (data : Z),
    (forall a, cfifo = Some a -> fifo_ok (fifos s a)) ->
    exists r s',
      m_cfifo_This_Push s cfifo take data = Returns (r, s') /\
      r = match cfifo with Some a => take && has_room s a | None => false end /\
      (r = false -> s' = s).
Proof.
  intros s [a |] take data Hok; [| exists false, s; repeat split].
  destruct take; [| exists false, s; repeat split].
  cbn [m_cfifo_This_Push negb andb].
  destruct (has_room s a) eqn:E.
  - destruct (has_room_true s a E) as (base & Hb & Hu).
    destruct (PushInternal_accepts s a base data (Hok a eq_refl) Hb Hu) as (s' & -> & _).
    exists true, s'. split; [reflexivity | split; [reflexivity | discriminate]].
  - rewrite PushInternal_refuses by now apply has_room_false.
    exists false, s. repeat split.
Qed.

Lemma push_is_refused_without_room_witness :
  exists r s',
    m_cfifo_This_Push pair_store (Some 0%nat) true 8 = Returns (r, s') /\
    r = true && has_room pair_store 0%nat /\
    (r = false -> s' = pair_store).
Proof.
  apply (push_is_refused_without_room pair_store (Some 0%nat) true 8).
  intros a H. injection H as <-. apply fifo_okb_ok. reflexivity.
Defined.

(** X16 (m_cfifo_This_Pop): a pop on a FIFO in order always returns; it
    returns true exactly when neither pointer is NULL, the semaphore was
    taken and the FIFO is not empty; when it returns false nothing has
    changed and nothing was stored through the out-pointer. *)
Theorem pop_is_refused_only_when_empty :
  forall (s : store) (cfifo : option nat) (take data : bool),
    (forall a, cfifo = Some a -> fifo_ok (fifos s a)) ->
    exists r s' out,
      m_cfifo_This_Pop s cfifo take data = Returns (r, s', out) /\
      r = match cfifo with
          | Some a => data && take && negb (used_count (fifos s a) =? 0)
          | None => false
          end /\
      (r = false -> s' = s /\ out = None).
Proof.
  intros s [a |] take data Hok; [| exists false, s, None; repeat split].
  destruct data; [| exists false, s, None; repeat split].
  destruct take; [| exists false, s, None; repeat split].
  cbn [m_cfifo_This_Pop negb andb].
  destruct (Z.eqb_spec (used_count (fifos s a)) 0) as [E | E].
  - rewrite PopInternal_refuses by assumption. exists false, s, None. repeat split.
  - assert (Hu : 0 < used_count (fifos s a)).
    { destruct (Hok a eq_refl) as (H & _). lia. }
    destruct (PopInternal_delivers s a (Hok a eq_refl) Hu) as (s' & -> & _).
    exists true, s', (Some (slot s (fifos s a) 0)).
    split; [reflexivity | split; [reflexivity | discriminate]].
Qed.

Lemma pop_is_refused_only_when_empty_witness :
  exists r s' out,
    m_cfifo_This_Pop blank_store (Some 0%nat) true true = Returns (r, s', out) /\
    r = true && true && negb (used_count (fifos blank_store 0%nat) =? 0) /\
    (r = false -> s' = blank_store /\ out = None).
Proof.
  apply (pop_is_refused_only_when_empty blank_store (Some 0%nat) true true).
  intros a _. apply blank_store_ok.
Defined.



(** X18 (m_cfifo_ConfigBuffer): configuring a FIFO on [n] bytes of storage.
    When the call takes the semaphore it ends without a return value and
    leaves the FIFO full: a query that takes the semaphore reports full,
    size [n] and usage [n] (one that times out reports false and 0), the
    bytes found in the storage are what the coming pops deliver, from the
    first address on, and a push right after it is refused.  When the call
    times out it returns false and nothing has changed. *)
Theorem configured_fifo_offers_its_storage :
  forall (s : store) (a : nat) (base n data : Z) (take query : bool),
    0 <= n <= 65535 ->
    exists r s',
      m_cfifo_ConfigBuffer s (Some a) take (Some base) n = (r, s') /\
      (take = false -> r = Some false /\ s' = s) /\
      (take = true ->
       r = None /\
       fifo_ok (fifos s' a) /\
       m_cfifo_This_IsFull s' (Some a) query = query /\
       m_cfifo_This_GetSize s' (Some a) query = (if query then n else 0) /\
       m_cfifo_This_GetUsage s' (Some a) query = (if query then n else 0) /\
       contents s' a = map (fun i => bytes s (base + Z.of_nat i)) (seq 0 (Z.to_nat n)) /\
       m_cfifo_This_Push s' (Some a) query data = Returns (false, s')).
Proof.
  intros s a base n data take query Hn. destruct take.
  2:{ exists (Some false), s. cbn [m_cfifo_ConfigBuffer negb].
      split; [reflexivity | split; [intros _; split; reflexivity | discriminate]]. }
  destruct (ConfigBuffer_fields s a (Some base) n) as (s' & E & Ha & _ & Hm).
  exists None, s'. split; [exact E | split; [discriminate | intros _]].
  split; [reflexivity |].
  assert (Hok : fifo_ok (fifos s' a)).
  { rewrite Ha. destruct (fifos s a). unfold fifo_ok. fields.
    split; [lia | split; [lia |]]. intros Hp. split; [lia |].
    rewrite Z.add_0_l, Z.mod_same; lia. }
  split; [exact Hok |].
  split; [| split; [| split; [| split]]].
  - destruct query; [| reflexivity].
    cbn [m_cfifo_This_IsFull negb]. unfold m_cfifo_This_IsFullInternal.
    rewrite Ha. destruct (fifos s a). fields. apply Z.leb_refl.
  - destruct query; [| reflexivity].
    cbn [m_cfifo_This_GetSize negb]. unfold m_cfifo_This_GetSizeInternal.
    rewrite Ha. now destruct (fifos s a).
  - destruct query; [| reflexivity].
    cbn [m_cfifo_This_GetUsage negb]. unfold m_cfifo_This_GetUsageInternal.
    rewrite Ha. now destruct (fifos s a).
  - unfold contents. rewrite Ha. destruct (fifos s a). fields.
    apply map_ext_in. intros i Hi. apply in_seq in Hi.
    unfold slot. fields. rewrite Hm, Z.add_0_l, Z.mod_small by lia. reflexivity.
  - destruct query; [| reflexivity]. cbn [m_cfifo_This_Push negb].
    apply PushInternal_refuses. right. rewrite Ha. destruct (fifos s a). fields. lia.
Qed.

Lemma configured_fifo_offers_its_storage_witness :
  exists r s',
    m_cfifo_ConfigBuffer pair_store (Some 2%nat) true (Some 100) 2 = (r, s') /\
    (true = false -> r = Some false /\ s' = pair_store) /\
    (true = true ->
     r = None /\
     fifo_ok (fifos s' 2%nat) /\
     m_cfifo_This_IsFull s' (Some 2%nat) true = true /\
     m_cfifo_This_GetSize s' (Some 2%nat) true = 2 /\
     m_cfifo_This_GetUsage s' (Some 2%nat) true = 2 /\
     contents s' 2%nat
       = map (fun i => bytes pair_store (100 + Z.of_nat i)) (seq 0 (Z.to_nat 2)) /\
     m_cfifo_This_Push s' (Some 2%nat) true 8 = Returns (false, s')).
Proof.
  apply (configured_fifo_offers_its_storage pair_store 2%nat 100 2 8 true true).
  split; vm_compute; discriminate.
Defined.

(** The store after [m_cfifo_InitBuffer] with a semaphore at hand. *)
Definition initialised (s : store) (a : nat) (take : bool) : store :=
  snd (m_cfifo_InitBuffer s a true take).

(** X19 (m_cfifo_InitBuffer): initialisation returns true whenever the
    semaphore was created.  If its call of m_cfifo_ConfigBuffer took the
    semaphore, the FIFO is unlinked, without storage, empty and full at
    once, and refuses every push and every pop; if that call timed out,
    the storage pointer, the size, the counter and the two indices are
    what they were before. *)
Theorem init_buffer_leaves_no_room :
  forall (s : store) (a : nat) (data : Z),
    fst (m_cfifo_InitBuffer s a true true) = true /\
    fst (m_cfifo_InitBuffer s a true false) = true /\
    fifos (initialised s a true) a = mkCFifo None None None 0 0 0 0 0 /\
    m_cfifo_This_IsEmpty (initialised s a true) (Some a) true = true /\
    m_cfifo_This_IsFull (initialised s a true) (Some a) true = true /\
    m_cfifo_This_Push (initialised s a true) (Some a) true data
      = Returns (false, initialised s a true) /\
    m_cfifo_This_Pop (initialised s a true) (Some a) true true
      = Returns (false, initialised s a true, None) /\
    fifos (initialised s a false) a
      = set_dummy_byte 0 (set_next None (set_prev None (fifos s a))).
Proof.
  intros s a data.
  assert (E1 : fifos (initialised s a true) a = mkCFifo None None None 0 0 0 0 0).
  { unfold initialised, m_cfifo_InitBuffer, m_cfifo_ConfigBuffer. cbn [negb snd].
    rewrite SetFullInternal_fields, !fifos_put_same. now destruct (fifos s a). }
  assert (E0 : fifos (initialised s a false) a
               = set_dummy_byte 0 (set_next None (set_prev None (fifos s a)))).
  { unfold initialised, m_cfifo_InitBuffer, m_cfifo_ConfigBuffer. cbn [negb snd].
    now rewrite !fifos_put_same. }
  set (s1 := initialised s a true) in *.
  split; [reflexivity | split; [reflexivity | split; [exact E1 |]]].
  cbn [m_cfifo_This_IsEmpty m_cfifo_This_IsFull m_cfifo_This_Push m_cfifo_This_Pop negb].
  unfold m_cfifo_This_IsEmptyInternal, m_cfifo_This_IsFullInternal.
  rewrite E1. cbn [used_count buffer_size].
  split; [reflexivity | split; [reflexivity | split; [| split; [| exact E0]]]].
  - apply PushInternal_refuses. left. now rewrite E1.
  - apply PopInternal_refuses. now rewrite E1.
Qed.

(** X20 (every function of m_cfifo.h that writes): if every FIFO is in
    order, then after any sequence of calls no remainder by zero has been
    taken and every FIFO is in order again: its counter is within its
    size, and its write index is its read index plus its counter, around
    the ring.  The calls are m_cfifo_InitBuffer on a structure (it does
    not test its pointer, so NULL is not among its arguments here) and
    the other eleven functions with any pointers, NULL or not; the
    outcomes of the semaphore and the data are arbitrary, and the size
    given to m_cfifo_ConfigBuffer is a uint16_t. *)
Theorem calls_keep_every_fifo_in_order :
  forall (fuel : nat) (cs : list call) (s : store),
    all_ok s ->
    Forall in_range cs ->
    safe all_ok (run_all fuel cs s).
Proof.
  intros fuel cs. induction cs as [| c cs IH]; intros s Hs Hr.
  - exact Hs.
  - cbn [run_all]. eapply safe_bind.
    + apply run_ok; [exact Hs | now apply Forall_inv in Hr].
    + intros s' Hs'. apply IH; [exact Hs' | now apply Forall_inv_tail in Hr].
Qed.

Lemma calls_keep_every_fifo_in_order_witness :
  safe all_ok
       (run_all 4
          [InitBuffer 0 true true; InitBuffer 1 true true;
           ConfigBuffer (Some 0%nat) true (Some 100) 2;
           ConfigBuffer (Some 1%nat) true None 3;
           CascadeAsNextBuffer (Some 0%nat) (Some 1%nat) true;
           All_Clear (Some 0%nat) true M_CFIFO_UP;
           All_Push (Some 0%nat) true 5; This_Pop (Some 1%nat) true true;
           All_Pop (Some 0%nat) true true; This_SetFull (Some 1%nat) true]
          blank_store).
Proof.
  apply calls_keep_every_fifo_in_order.
  - exact blank_store_ok.
  - repeat constructor; vm_compute; discriminate.
Defined.

(** ** Properties of a cascade *)

(** X21 (m_cfifo_All_GetUsage, m_cfifo_All_GetSize): on a cascade that
    ends, a call that takes the semaphore returns the sum of the counters,
    or of the sizes, of its FIFOs, in 32 bits; a call that times out
    returns 0. *)
Theorem cascade_usage_and_size :
  forall (fuel : nat) (s : store) (a : nat) (l : list nat) (take : bool),
    cascade M_CFIFO_UP s (Some a) l ->
    (length l <= fuel)%nat ->
    m_cfifo_All_GetUsage fuel s (Some a) take
      = Returns (if take then u32 (sum_of (map (fun b => used_count (fifos s b)) l)) else 0) /\
    m_cfifo_All_GetSize fuel s (Some a) take
      = Returns (if take then u32 (sum_of (map (fun b => buffer_size (fifos s b)) l)) else 0).
Proof.
  intros fuel s a l take H Hf. destruct take; [| split; reflexivity].
  cbn [m_cfifo_All_GetUsage m_cfifo_All_GetSize negb]. split.
  - rewrite (sum_loop_cascade _ s (Some a) l H fuel 0 Hf) by lia. reflexivity.
  - rewrite (sum_loop_cascade _ s (Some a) l H fuel 0 Hf) by lia. reflexivity.
Qed.

Lemma cascade_usage_and_size_witness :
  m_cfifo_All_GetUsage 2 pair_store (Some 0%nat) true
    = Returns (u32 (sum_of (map (fun b => used_count (fifos pair_store b)) [0%nat; 1%nat]))) /\
  m_cfifo_All_GetSize 2 pair_store (Some 0%nat) true
    = Returns (u32 (sum_of (map (fun b => buffer_size (fifos pair_store b)) [0%nat; 1%nat]))).
Proof.
  apply (cascade_usage_and_size 2 pair_store 0%nat [0%nat; 1%nat] true).
  - apply cascadeb_cascade. reflexivity.
  - apply le_n.
Defined.

(** X22 (m_cfifo_All_IsEmpty, m_cfifo_All_IsFull): on a cascade that ends,
    the test for empty returns true exactly when it took the semaphore and
    every FIFO of the cascade has a counter of 0; the test for full
    returns true exactly when it took the semaphore and every FIFO of the
    cascade has a counter that reaches its size.  A test that times out
    returns false. *)
Theorem cascade_empty_and_full :
  forall (fuel : nat) (s : store) (a : nat) (l : list nat) (take : bool),
    cascade M_CFIFO_UP s (Some a) l ->
    (length l <= fuel)%nat ->
    exists e f,
      m_cfifo_All_IsEmpty fuel s (Some a) take = Returns e /\
      m_cfifo_All_IsFull fuel s (Some a) take = Returns f /\
      (e = true <-> take = true /\ forall b, In b l -> used_count (fifos s b) = 0) /\
      (f = true <->
       take = true /\
       forall b, In b l -> buffer_size (fifos s b) <= used_count (fifos s b)).
Proof.
  intros fuel s a l take H Hf. destruct take.
  2:{ exists false, false. cbn [m_cfifo_All_IsEmpty m_cfifo_All_IsFull negb].
      split; [reflexivity | split; [reflexivity |]].
      split; split; try discriminate; intros [F _]; discriminate F. }
  cbn [m_cfifo_All_IsEmpty m_cfifo_All_IsFull negb].
  rewrite !(all_loop_cascade _ s (Some a) l H fuel true Hf). cbn [andb].
  eexists; eexists; split; [reflexivity | split; [reflexivity | split]].
  - rewrite forallb_forall. unfold m_cfifo_This_IsEmptyInternal. split.
    + intros G. split; [reflexivity |]. intros b Hb. apply Z.eqb_eq. now apply G.
    + intros [_ G] b Hb. apply Z.eqb_eq. now apply G.
  - rewrite forallb_forall. unfold m_cfifo_This_IsFullInternal. split.
    + intros G. split; [reflexivity |]. intros b Hb. apply Z.leb_le. now apply G.
    + intros [_ G] b Hb. apply Z.leb_le. now apply G.
Qed.

Lemma cascade_empty_and_full_witness :
  exists e f,
    m_cfifo_All_IsEmpty 2 pair_store (Some 0%nat) true = Returns e /\
    m_cfifo_All_IsFull 2 pair_store (Some 0%nat) true = Returns f /\
    (e = true <->
     true = true /\ forall b, In b [0%nat; 1%nat] -> used_count (fifos pair_store b) = 0) /\
    (f = true <->
     true = true /\
     forall b, In b [0%nat; 1%nat] ->
               buffer_size (fifos pair_store b) <= used_count (fifos pair_store b)).
Proof.
  apply (cascade_empty_and_full 2 pair_store 0%nat [0%nat; 1%nat] true).
  - apply cascadeb_cascade. reflexivity.
  - apply le_n.
Defined.

Lemma ClearInternal_other s a b :
  b <> a -> fifos (m_cfifo_This_ClearInternal s a) b = fifos s b.
Proof. intros H. unfold m_cfifo_This_ClearInternal. now rewrite fifos_put_other. Qed.

Lemma SetFullInternal_other s a b :
  b <> a -> fifos (m_cfifo_This_SetFullInternal s a) b = fifos s b.
Proof. intros H. unfold m_cfifo_This_SetFullInternal. now rewrite fifos_put_other. Qed.

(** X23 (m_cfifo_All_Clear): on a cascade that ends in the direction given,
    clearing returns true exactly when it took the semaphore.  Then every
    FIFO on the way has its indices and its counter at 0 and is otherwise
    as before, and no other FIFO and no byte of the memory is touched;
    after clearing upwards, m_cfifo_All_IsEmpty returns true when it takes
    the semaphore and m_cfifo_All_GetUsage returns 0.  When the clearing
    timed out it returns false and nothing has changed. *)
Theorem all_clear_empties_the_cascade :
  forall (fuel : nat) (s : store) (a : nat) (l : list nat) (direction : m_cfifo_tDirection)
         (take : bool),
    cascade direction s (Some a) l ->
    (length l <= fuel)%nat ->
    exists s',
      m_cfifo_All_Clear fuel s (Some a) take direction = Returns (take, s') /\
      (take = false -> s' = s) /\
      (take = true ->
       (forall b, In b l ->
                  fifos s' b = set_used_count 0 (set_wrPtr 0 (set_rdPtr 0 (fifos s b)))) /\
       (forall b, ~ In b l -> fifos s' b = fifos s b) /\
       (forall x, bytes s' x = bytes s x) /\
       (direction = M_CFIFO_UP ->
        forall query,
          m_cfifo_All_IsEmpty fuel s' (Some a) query = Returns query /\
          m_cfifo_All_GetUsage fuel s' (Some a) query = Returns 0)).
Proof.
  intros fuel s a l direction take H Hf. destruct take.
  2:{ exists s. cbn [m_cfifo_All_Clear negb].
      split; [reflexivity | split; [reflexivity | discriminate]]. }
  destruct (each_loop_cascade m_cfifo_This_ClearInternal
              (fun c => set_used_count 0 (set_wrPtr 0 (set_rdPtr 0 c))) direction
              ClearInternal_fields ClearInternal_other (fun _ _ _ => eq_refl)
              ltac:(intros c; destruct c, direction; reflexivity)
              ltac:(intros c; destruct c; reflexivity)
              l s (Some a) H fuel Hf) as (s' & E & Hin & Hout & Hm).
  exists s'. cbn [m_cfifo_All_Clear negb]. rewrite E. cbn [bind].
  split; [reflexivity | split; [discriminate | intros _]].
  split; [exact Hin | split; [exact Hout | split; [exact Hm |]]].
  intros -> query.
  assert (H' : cascade M_CFIFO_UP s' (Some a) l).
  { eapply cascade_frame; [| exact H]. intros b Hb. rewrite Hin by assumption.
    now destruct (fifos s b). }
  assert (Hz : forall b, In b l -> used_count (fifos s' b) = 0).
  { intros b Hb. rewrite Hin by assumption. now destruct (fifos s b). }
  destruct query; [| split; reflexivity].
  cbn [m_cfifo_All_IsEmpty m_cfifo_All_GetUsage negb]. split.
  - rewrite (all_loop_cascade _ s' (Some a) l H' fuel true Hf). cbn [andb]. f_equal.
    apply forallb_forall. intros b Hb. unfold m_cfifo_This_IsEmptyInternal.
    rewrite Hz by assumption. reflexivity.
  - rewrite (sum_loop_cascade _ s' (Some a) l H' fuel 0 Hf) by lia.
    rewrite sum_of_zero; [reflexivity |]. exact Hz.
Qed.

Lemma all_clear_empties_the_cascade_witness :
  exists s',
    m_cfifo_All_Clear 2 pair_store (Some 0%nat) true M_CFIFO_UP = Returns (true, s') /\
    (true = false -> s' = pair_store) /\
    (true = true ->
     (forall b, In b [0%nat; 1%nat] ->
                fifos s' b
                = set_used_count 0 (set_wrPtr 0 (set_rdPtr 0 (fifos pair_store b)))) /\
     (forall b, ~ In b [0%nat; 1%nat] -> fifos s' b = fifos pair_store b) /\
     (forall x, bytes s' x = bytes pair_store x) /\
     (M_CFIFO_UP = M_CFIFO_UP ->
      forall query,
        m_cfifo_All_IsEmpty 2 s' (Some 0%nat) query = Returns query /\
        m_cfifo_All_GetUsage 2 s' (Some 0%nat) query = Returns 0)).
Proof.
  apply (all_clear_empties_the_cascade 2 pair_store 0%nat [0%nat; 1%nat] M_CFIFO_UP true).
  - apply cascadeb_cascade. reflexivity.
  - apply le_n.
Defined.

(** X24 (m_cfifo_All_SetFull): on a cascade that ends in the direction
    given, the call returns true exactly when it took the semaphore.  Then
    every FIFO on the way has its indices at 0 and its counter at its size,
    and no other FIFO and no byte of the memory is touched; after filling
    upwards, m_cfifo_All_IsFull returns true when it takes the semaphore,
    and m_cfifo_All_GetUsage returns what m_cfifo_All_GetSize returned
    before.  When the call timed out it returns false and nothing has
    changed. *)
Theorem all_set_full_fills_the_cascade :
  forall (fuel : nat) (s : store) (a : nat) (l : list nat) (direction : m_cfifo_tDirection)
         (take : bool),
    cascade direction s (Some a) l ->
    (length l <= fuel)%nat ->
    exists s',
      m_cfifo_All_SetFull fuel s (Some a) take direction = Returns (take, s') /\
      (take = false -> s' = s) /\
      (take = true ->
       (forall b, In b l ->
                  fifos s' b = set_used_count (buffer_size (fifos s b))
                                 (set_wrPtr 0 (set_rdPtr 0 (fifos s b)))) /\
       (forall b, ~ In b l -> fifos s' b = fifos s b) /\
       (forall x, bytes s' x = bytes s x) /\
       (direction = M_CFIFO_UP ->
        forall query,
          m_cfifo_All_IsFull fuel s' (Some a) query = Returns query /\
          m_cfifo_All_GetUsage fuel s' (Some a) query
            = m_cfifo_All_GetSize fuel s (Some a) query)).
Proof.
  intros fuel s a l direction take H Hf. destruct take.
  2:{ exists s. cbn [m_cfifo_All_SetFull negb].
      split; [reflexivity | split; [reflexivity | discriminate]]. }
  destruct (each_loop_cascade m_cfifo_This_SetFullInternal
              (fun c => set_used_count (buffer_size c) (set_wrPtr 0 (set_rdPtr 0 c))) direction
              SetFullInternal_fields SetFullInternal_other (fun _ _ _ => eq_refl)
              ltac:(intros c; destruct c, direction; reflexivity)
              ltac:(intros c; destruct c; reflexivity)
              l s (Some a) H fuel Hf) as (s' & E & Hin & Hout & Hm).
  exists s'. cbn [m_cfifo_All_SetFull negb]. rewrite E. cbn [bind].
  split; [reflexivity | split; [discriminate | intros _]].
  split; [exact Hin | split; [exact Hout | split; [exact Hm |]]].
  intros -> query.
  assert (H' : cascade M_CFIFO_UP s' (Some a) l).
  { eapply cascade_frame; [| exact H]. intros b Hb. rewrite Hin by assumption.
    now destruct (fifos s b). }
  assert (Hz : forall b, In b l -> used_count (fifos s' b) = buffer_size (fifos s b)).
  { intros b Hb. rewrite Hin by assumption. now destruct (fifos s b). }
  assert (Hy : forall b, In b l -> buffer_size (fifos s' b) = buffer_size (fifos s b)).
  { intros b Hb. rewrite Hin by assumption. now destruct (fifos s b). }
  destruct query; [| split; reflexivity].
  cbn [m_cfifo_All_IsFull m_cfifo_All_GetUsage m_cfifo_All_GetSize negb]. split.
  - rewrite (all_loop_cascade _ s' (Some a) l H' fuel true Hf). cbn [andb]. f_equal.
    apply forallb_forall. intros b Hb. unfold m_cfifo_This_IsFullInternal.
    rewrite Hz, Hy by assumption. apply Z.leb_refl.
  - rewrite (sum_loop_cascade _ s' (Some a) l H' fuel 0 Hf) by lia.
    rewrite (sum_loop_cascade _ s (Some a) l H fuel 0 Hf) by lia.
    do 4 f_equal. apply map_ext_in. intros b Hb.
    unfold m_cfifo_This_GetUsageInternal, m_cfifo_This_GetSizeInternal. now apply Hz.
Qed.

Lemma all_set_full_fills_the_cascade_witness :
  exists s',
    m_cfifo_All_SetFull 2 pair_store (Some 1%nat) true M_CFIFO_DOWN = Returns (true, s') /\
    (true = false -> s' = pair_store) /\
    (true = true ->
     (forall b, In b [1%nat; 0%nat] ->
                fifos s' b = set_used_count (buffer_size (fifos pair_store b))
                               (set_wrPtr 0 (set_rdPtr 0 (fifos pair_store b)))) /\
     (forall b, ~ In b [1%nat; 0%nat] -> fifos s' b = fifos pair_store b) /\
     (forall x, bytes s' x = bytes pair_store x) /\
     (M_CFIFO_DOWN = M_CFIFO_UP ->
      forall query,
        m_cfifo_All_IsFull 2 s' (Some 1%nat) query = Returns query /\
        m_cfifo_All_GetUsage 2 s' (Some 1%nat) query
          = m_cfifo_All_GetSize 2 pair_store (Some 1%nat) query)).
Proof.
  apply (all_set_full_fills_the_cascade 2 pair_store 1%nat [1%nat; 0%nat] M_CFIFO_DOWN true).
  - apply cascadeb_cascade. reflexivity.
  - apply le_n.
Defined.

(** X25 (m_cfifo_All_Push): when the call takes the semaphore, the byte
    goes to the first FIFO of the cascade that has storage and room: the
    call returns true, the byte is behind the bytes that were waiting in
    that FIFO, and no other control structure is touched.  When the call
    times out it returns false and nothing has changed. *)
Theorem all_push_goes_to_the_first_with_room :
  forall (fuel : nat) (s : store) (a : nat) (l1 : list nat) (b : nat) (l2 : list nat)
         (base data : Z) (take : bool),
    cascade M_CFIFO_UP s (Some a) (l1 ++ b :: l2) ->
    (length l1 < fuel)%nat ->
    (forall c, In c l1 -> has_room s c = false) ->
    fifo_ok (fifos s b) ->
    buffer (fifos s b) = Some base ->
    used_count (fifos s b) < buffer_size (fifos s b) ->
    exists s',
      m_cfifo_All_Push fuel s (Some a) take data = Returns (take, s') /\
      (take = true ->
       contents s' b = contents s b ++ [data] /\
       fifo_ok (fifos s' b) /\
       (forall c, c <> b -> fifos s' c = fifos s c)) /\
      (take = false -> s' = s).
Proof.
  intros fuel s a l1 b l2 base data take H Hf Hr Hok Hb Hu. destruct take.
  2:{ exists s. cbn [m_cfifo_All_Push negb].
      split; [reflexivity | split; [discriminate | reflexivity]]. }
  destruct (push_loop_accepted data l1 s (Some a) fuel b l2 base H Hf Hr Hok Hb Hu)
    as (s' & E & P).
  exists s'. cbn [m_cfifo_All_Push negb].
  split; [exact E | split; [intros _ | discriminate]].
  split; [| split].
  - eapply pushed_contents; eauto.
  - eapply pushed_ok; eauto.
  - now destruct P as (_ & Ho & _).
Qed.

Lemma all_push_goes_to_the_first_with_room_witness :
  exists s',
    m_cfifo_All_Push 2 pair_store (Some 0%nat) true 8 = Returns (true, s') /\
    (true = true ->
     contents s' 1%nat = contents pair_store 1%nat ++ [8] /\
     fifo_ok (fifos s' 1%nat) /\
     (forall c, c <> 1%nat -> fifos s' c = fifos pair_store c)) /\
    (true = false -> s' = pair_store).
Proof.
  apply (all_push_goes_to_the_first_with_room 2 pair_store 0%nat [0%nat] 1%nat [] 200 8 true).
  - apply cascadeb_cascade. reflexivity.
  - apply le_n.
  - intros c [<- | []]. reflexivity.
  - apply fifo_okb_ok. reflexivity.
  - reflexivity.
  - reflexivity.
Defined.

(** X26 (m_cfifo_All_Push): on a cascade that ends and whose FIFOs are in
    order, the call returns, and returns true exactly when it took the
    semaphore and some FIFO of the cascade has storage and room; when it
    returns false nothing has changed, and it returns false whenever
    m_cfifo_All_IsFull, asked in the same state, returns true. *)
Theorem all_push_succeeds_iff_some_has_room :
  forall (fuel : nat) (s : store) (a : nat) (l : list nat) (data : Z) (take : bool),
    cascade M_CFIFO_UP s (Some a) l ->
    (length l <= fuel)%nat ->
    (forall b, In b l -> fifo_ok (fifos s b)) ->
    exists r s',
      m_cfifo_All_Push fuel s (Some a) take data = Returns (r, s') /\
      r = take && existsb (has_room s) l /\
      (r = false -> s' = s) /\
      (forall query, m_cfifo_All_IsFull fuel s (Some a) query = Returns true -> r = false).
Proof.
  intros fuel s a l data take H Hf Hok. destruct take.
  2:{ exists false, s. cbn [m_cfifo_All_Push negb andb]. repeat split. }
  cbn [m_cfifo_All_Push negb andb].
  assert (Hfull : forall query,
             m_cfifo_All_IsFull fuel s (Some a) query = Returns true ->
             forall b, In b l -> buffer_size (fifos s b) <= used_count (fifos s b)).
  { intros query F b Hb. destruct query; [| discriminate F].
    cbn [m_cfifo_All_IsFull negb] in F.
    rewrite (all_loop_cascade _ s (Some a) l H fuel true Hf) in F. cbn [andb] in F.
    injection F as F. rewrite forallb_forall in F. specialize (F b Hb).
    unfold m_cfifo_This_IsFullInternal in F. now apply Z.leb_le in F. }
  destruct (first_such (has_room s) l) as [Hn | (l1 & b & l2 & -> & H1 & Hb)].
  - rewrite (push_loop_refused data l s (Some a) fuel H Hf Hn).
    exists false, s. split; [reflexivity | split; [| split; reflexivity]].
    symmetry. apply not_true_is_false. intros E. apply existsb_exists in E.
    destruct E as (b & Hb & E). rewrite Hn in E by assumption. discriminate.
  - destruct (has_room_true s b Hb) as (base & Hbuf & Hu).
    assert (Hin : In b (l1 ++ b :: l2)) by (apply in_or_app; right; now left).
    destruct (push_loop_accepted data l1 s (Some a) fuel b l2 base H) as (s' & E & _);
      try assumption.
    { rewrite length_app in Hf. cbn [length] in Hf. lia. }
    { now apply Hok. }
    exists true, s'. split; [exact E | split; [| split; [discriminate |]]].
    + symmetry. apply existsb_exists. exists b. now split.
    + intros query F. specialize (Hfull query F b Hin). lia.
Qed.

Lemma all_push_succeeds_iff_some_has_room_witness :
  exists r s',
    m_cfifo_All_Push 2 pair_store (Some 0%nat) true 8 = Returns (r, s') /\
    r = true && existsb (has_room pair_store) [0%nat; 1%nat] /\
    (r = false -> s' = pair_store) /\
    (forall query,
        m_cfifo_All_IsFull 2 pair_store (Some 0%nat) query = Returns true -> r = false).
Proof.
  apply (all_push_succeeds_iff_some_has_room 2 pair_store 0%nat [0%nat; 1%nat] 8 true).
  - apply cascadeb_cascade. reflexivity.
  - apply le_n.
  - intros b [<- | [<- | []]]; apply fifo_okb_ok; reflexivity.
Defined.



(** X28 (m_cfifo_All_Pop, m_cfifo_All_IsEmpty): on a cascade that ends and
    whose FIFOs are in order, the pop returns, and it returns false exactly
    when its out-pointer is NULL, or it timed out, or every FIFO of the
    cascade has a counter of 0, which is when m_cfifo_All_IsEmpty, taking
    the semaphore in the same state, returns true.  When the pop returns
    false nothing has changed and nothing was stored through the
    out-pointer. *)
Theorem all_pop_fails_iff_all_are_empty :
  forall (fuel : nat) (s : store) (a : nat) (l : list nat) (take data : bool),
    cascade M_CFIFO_UP s (Some a) l ->
    (length l <= fuel)%nat ->
    (forall b, In b l -> fifo_ok (fifos s b)) ->
    exists r s' out e,
      m_cfifo_All_Pop fuel s (Some a) take data = Returns (r, s', out) /\
      m_cfifo_All_IsEmpty fuel s (Some a) true = Returns e /\
      (e = true <-> forall b, In b l -> used_count (fifos s b) = 0) /\
      r = data && take && negb e /\
      (r = false -> s' = s /\ out = None).
Proof.
  intros fuel s a l take data H Hf Hok.
  cbn [m_cfifo_All_IsEmpty negb].
  rewrite (all_loop_cascade _ s (Some a) l H fuel true Hf). cbn [andb].
  set (e := forallb (m_cfifo_This_IsEmptyInternal s) l).
  assert (He : e = true <-> forall b, In b l -> used_count (fifos s b) = 0).
  { subst e. rewrite forallb_forall. unfold m_cfifo_This_IsEmptyInternal.
    split; intros G b Hb; apply Z.eqb_eq; now apply G. }
  destruct data.
  2:{ exists false, s, None, e. cbn [m_cfifo_All_Pop negb andb].
      split; [reflexivity | split; [reflexivity | split; [exact He |]]].
      split; [reflexivity | intros _; split; reflexivity]. }
  destruct take.
  2:{ exists false, s, None, e. cbn [m_cfifo_All_Pop negb andb].
      split; [reflexivity | split; [reflexivity | split; [exact He |]]].
      split; [reflexivity | intros _; split; reflexivity]. }
  cbn [m_cfifo_All_Pop negb andb].
  destruct (first_such (fun b => negb (m_cfifo_This_IsEmptyInternal s b)) l)
    as [Hn | (l1 & b & l2 & El & H1 & Hb)].
  - assert (Hz : forall b, In b l -> used_count (fifos s b) = 0).
    { intros b Hb. specialize (Hn b Hb). apply negb_false_iff in Hn.
      now apply Z.eqb_eq in Hn. }
    rewrite (pop_loop_refused l s (Some a) fuel None H Hf Hz).
    assert (Ee : e = true) by now apply He.
    exists false, s, None, e.
    split; [reflexivity | split; [reflexivity | split; [exact He |]]].
    rewrite Ee. split; [reflexivity | split; reflexivity].
  - assert (Hin : In b l) by (rewrite El; apply in_or_app; right; now left).
    apply negb_true_iff in Hb.
    assert (Hu : 0 < used_count (fifos s b)).
    { unfold m_cfifo_This_IsEmptyInternal in Hb. apply Z.eqb_neq in Hb.
      destruct (Hok b Hin) as (G & _). lia. }
    assert (Ee : e = false).
    { apply not_true_is_false. intros F. pose proof (proj1 He F b Hin) as G. lia. }
    revert H Hf. rewrite El. intros H Hf.
    destruct (pop_loop_delivered l1 s (Some a) fuel b l2 None H) as (s' & E & _);
      try assumption.
    { rewrite length_app in Hf. cbn [length] in Hf. lia. }
    { intros c Hc. specialize (H1 c Hc). apply negb_false_iff in H1.
      now apply Z.eqb_eq in H1. }
    { now apply Hok. }
    exists true, s', (Some (slot s (fifos s b) 0)), e.
    split; [exact E | split; [reflexivity | split; [rewrite <- El; exact He |]]].
    rewrite Ee. split; [reflexivity | discriminate].
Qed.

Lemma all_pop_fails_iff_all_are_empty_witness :
  exists r s' out e,
    m_cfifo_All_Pop 2 pair_store (Some 0%nat) true true = Returns (r, s', out) /\
    m_cfifo_All_IsEmpty 2 pair_store (Some 0%nat) true = Returns e /\
    (e = true <-> forall b, In b [0%nat; 1%nat] -> used_count (fifos pair_store b) = 0) /\
    r = true && true && negb e /\
    (r = false -> s' = pair_store /\ out = None).
Proof.
  apply (all_pop_fails_iff_all_are_empty 2 pair_store 0%nat [0%nat; 1%nat] true true).
  - apply cascadeb_cascade. reflexivity.
  - apply le_n.
  - intros b [<- | [<- | []]]; apply fifo_okb_ok; reflexivity.
Defined.

Lemma cascade_head direction s b l : cascade direction s (Some b) l -> In b l.
Proof. intros H. inversion H; subst. now left. Qed.

(** X29 (m_cfifo_CascadeAsNextBuffer): putting a FIFO in front of a cascade
    it is not part of returns true exactly when the call took the
    semaphore.  Then the result is a cascade again, one longer, the old
    head points back to the new one, and m_cfifo_All_GetSize on the new
    head returns, when it takes the semaphore, the size of the new head
    plus the sizes of the others (0 when it times out).  When the linking
    timed out it returns false and nothing has changed. *)
Theorem cascade_link_extends_a_cascade :
  forall (s : store) (a b : nat) (l : list nat) (take : bool),
    cascade M_CFIFO_UP s (Some b) l ->
    ~ In a l ->
    exists s',
      m_cfifo_CascadeAsNextBuffer s (Some a) (Some b) take = (take, s') /\
      (take = false -> s' = s) /\
      (take = true ->
       cascade M_CFIFO_UP s' (Some a) (a :: l) /\
       prev (fifos s' b) = Some a /\
       forall query,
         m_cfifo_All_GetSize (S (length l)) s' (Some a) query
         = Returns (if query
                    then u32 (buffer_size (fifos s a)
                              + sum_of (map (fun c => buffer_size (fifos s c)) l))
                    else 0)).
Proof.
  intros s a b l take H Ha. destruct take.
  2:{ exists s. cbn [m_cfifo_CascadeAsNextBuffer negb].
      split; [reflexivity | split; [reflexivity | discriminate]]. }
  assert (Hab : b <> a) by (intros ->; apply Ha; eapply cascade_head; eassumption).
  eexists. split; [reflexivity |]. split; [discriminate | intros _].
  set (s' := put_fifo b _ _).
  assert (Hn : forall c, next (fifos s' c) = if Nat.eqb c a then Some b else next (fifos s c)).
  { intros c. subst s'. destruct (Nat.eq_dec c b) as [-> | Hcb].
    - rewrite fifos_put_same, fifos_put_other by assumption.
      destruct (Nat.eqb_spec b a); [contradiction |]. now destruct (fifos s b).
    - rewrite fifos_put_other by assumption. destruct (Nat.eqb_spec c a) as [-> | Hca].
      + rewrite fifos_put_same. now destruct (fifos s a).
      + now rewrite fifos_put_other. }
  assert (Hz : forall c, buffer_size (fifos s' c) = buffer_size (fifos s c)).
  { intros c. subst s'. destruct (Nat.eq_dec c b) as [-> | Hcb].
    - rewrite fifos_put_same, fifos_put_other by assumption. now destruct (fifos s b).
    - rewrite fifos_put_other by assumption. destruct (Nat.eq_dec c a) as [-> | Hca].
      + rewrite fifos_put_same. now destruct (fifos s a).
      + now rewrite fifos_put_other. }
  assert (Hc : cascade M_CFIFO_UP s' (Some a) (a :: l)).
  { constructor. cbn [link]. rewrite Hn, Nat.eqb_refl.
    eapply cascade_frame; [| exact H]. intros c Hc. cbn [link]. rewrite Hn.
    destruct (Nat.eqb_spec c a) as [-> | _]; [contradiction | reflexivity]. }
  split; [exact Hc | split].
  - subst s'. rewrite fifos_put_same. now destruct (fifos _ b).
  - intros query. destruct query; [| reflexivity].
    cbn [m_cfifo_All_GetSize negb].
    rewrite (sum_loop_cascade _ s' (Some a) (a :: l) Hc (S (length l)) 0) by (cbn; lia).
    cbn [map sum_of fold_right]. unfold m_cfifo_This_GetSizeInternal.
    rewrite Hz, Z.add_0_l. unfold sum_of. do 4 f_equal. apply map_ext. intros c. apply Hz.
Qed.

Lemma cascade_link_extends_a_cascade_witness :
  exists s',
    m_cfifo_CascadeAsNextBuffer pair_store (Some 2%nat) (Some 0%nat) true = (true, s') /\
    (true = false -> s' = pair_store) /\
    (true = true ->
     cascade M_CFIFO_UP s' (Some 2%nat) [2%nat; 0%nat; 1%nat] /\
     prev (fifos s' 0%nat) = Some 2%nat /\
     forall query,
       m_cfifo_All_GetSize 3 s' (Some 2%nat) query
       = Returns (if query
                  then u32 (buffer_size (fifos pair_store 2%nat)
                            + sum_of (map (fun c => buffer_size (fifos pair_store c))
                                          [0%nat; 1%nat]))
                  else 0)).
Proof.
  apply (cascade_link_extends_a_cascade pair_store 2%nat 0%nat [0%nat; 1%nat] true).
  - apply cascadeb_cascade. reflexivity.
  - intros [H | [H | []]]; discriminate.
Defined.

Lemma each_loop_cycle (body : store -> nat -> store) direction (on_cycle : nat -> Prop)
      (s0 : store) :
  (forall s a b, link direction (fifos (body s a) b) = link direction (fifos s b)) ->
  (forall a, on_cycle a -> exists b, link direction (fifos s0 a) = Some b /\ on_cycle b) ->
  forall fuel s a,
    (forall b, link direction (fifos s b) = link direction (fifos s0 b)) ->
    on_cycle a ->
    each_loop body fuel s (Some a) direction = Unfinished.
Proof.
  intros Hbody Hclosed. induction fuel as [| fuel IH]; intros s a Hs Ha; [reflexivity |].
  cbn [each_loop]. rewrite GetAdjacentFifo_link, Hbody, Hs.
  destruct (Hclosed a Ha) as (b & -> & Hb). apply IH; [| exact Hb].
  intros c. now rewrite Hbody.
Qed.

Lemma push_loop_cycle (on_cycle : nat -> Prop) (s : store) data :
  (forall a, on_cycle a -> exists b, next (fifos s a) = Some b /\ on_cycle b) ->
  (forall a, on_cycle a -> has_room s a = false) ->
  forall fuel a, on_cycle a -> push_loop fuel s (Some a) false data = Unfinished.
Proof.
  intros Hclosed Hfull. induction fuel as [| fuel IH]; intros a Ha; [reflexivity |].
  cbn [push_loop]. rewrite PushInternal_refuses by (apply has_room_false, Hfull, Ha).
  cbn [bind]. destruct (Hclosed a Ha) as (b & -> & Hb). now apply IH.
Qed.

Lemma pop_loop_cycle (on_cycle : nat -> Prop) (s : store) :
  (forall a, on_cycle a -> exists b, next (fifos s a) = Some b /\ on_cycle b) ->
  (forall a, on_cycle a -> used_count (fifos s a) = 0) ->
  forall fuel a out, on_cycle a -> pop_loop fuel s (Some a) false true out = Unfinished.
Proof.
  intros Hclosed Hempty. induction fuel as [| fuel IH]; intros a out Ha; [reflexivity |].
  cbn [pop_loop]. rewrite PopInternal_refuses by (apply Hempty, Ha).
  cbn [bind]. destruct (Hclosed a Ha) as (b & -> & Hb). now apply IH.
Qed.

(** The store after [m_cfifo_CascadeAsNextBuffer] has linked the FIFO at
    [a] to itself. *)
Definition self_linked (s : store) (a : nat) : store :=
  snd (m_cfifo_CascadeAsNextBuffer s (Some a) (Some a) true).

(** X30 (the loops of the m_cfifo_All_ functions): on a cascade that runs
    into a cycle no bound on the iterations is enough.  The sums, the
    tests and the upward clearing and filling never finish; neither does a
    push when no FIFO of the cycle has room, nor a pop when all of them
    are empty. *)
Theorem cyclic_cascade_never_finishes :
  forall (fuel : nat) (s : store) (on_cycle : nat -> Prop) (a : nat) (data : Z),
    (forall b, on_cycle b -> exists c, next (fifos s b) = Some c /\ on_cycle c) ->
    on_cycle a ->
    m_cfifo_All_GetSize fuel s (Some a) true = Unfinished /\
    m_cfifo_All_GetUsage fuel s (Some a) true = Unfinished /\
    m_cfifo_All_IsEmpty fuel s (Some a) true = Unfinished /\
    m_cfifo_All_IsFull fuel s (Some a) true = Unfinished /\
    m_cfifo_All_Clear fuel s (Some a) true M_CFIFO_UP = Unfinished /\
    m_cfifo_All_SetFull fuel s (Some a) true M_CFIFO_UP = Unfinished /\
    ((forall b, on_cycle b -> has_room s b = false) ->
     m_cfifo_All_Push fuel s (Some a) true data = Unfinished) /\
    ((forall b, on_cycle b -> used_count (fifos s b) = 0) ->
     m_cfifo_All_Pop fuel s (Some a) true true = Unfinished).
Proof.
  intros fuel s on_cycle a data Hclosed Ha.
  cbn [m_cfifo_All_GetSize m_cfifo_All_GetUsage m_cfifo_All_IsEmpty m_cfifo_All_IsFull
       m_cfifo_All_Clear m_cfifo_All_SetFull m_cfifo_All_Push m_cfifo_All_Pop negb].
  rewrite !(sum_loop_cycle s on_cycle Hclosed) by exact Ha.
  rewrite !(all_loop_cycle s on_cycle Hclosed) by exact Ha.
  rewrite (each_loop_cycle m_cfifo_This_ClearInternal M_CFIFO_UP on_cycle s);
    [| | exact Hclosed | reflexivity | exact Ha].
  rewrite (each_loop_cycle m_cfifo_This_SetFullInternal M_CFIFO_UP on_cycle s);
    [| | exact Hclosed | reflexivity | exact Ha].
  - cbn [bind]. repeat (split; [reflexivity |]). split.
    + intros Hfull. now apply (push_loop_cycle on_cycle).
    + intros Hempty. now apply (pop_loop_cycle on_cycle).
  - intros s1 c b. destruct (Nat.eq_dec b c) as [-> | Hne].
    + rewrite SetFullInternal_fields. now destruct (fifos s1 c).
    + now rewrite SetFullInternal_other.
  - intros s1 c b. destruct (Nat.eq_dec b c) as [-> | Hne].
    + rewrite ClearInternal_fields. now destruct (fifos s1 c).
    + now rewrite ClearInternal_other.
Qed.

Lemma cyclic_cascade_never_finishes_witness :
  m_cfifo_All_GetSize 1000 (self_linked blank_store 0%nat) (Some 0%nat) true = Unfinished.
Proof.
  refine (proj1 (cyclic_cascade_never_finishes 1000 (self_linked blank_store 0%nat)
                   (fun b => b = 0%nat) 0%nat 0 _ _)).
  - intros b ->. exists 0%nat. split; reflexivity.
  - reflexivity.
Defined.
End CFifo.
